(** * Antigravity-Man: command dispatcher and telemetry reconciliation

    A shallow embedding of the transport-agnostic command dispatcher
    ([request], utils/request.ts), the unauthorized-event handling
    ([AdminAuthGuard]), the request-log monitor ([ProxyMonitor]) and the
    debug-console store ([useDebugConsole]), with the properties the
    specification states about them.

    Conventions of the embedding.
    - A JavaScript string is a [string]: a sequence of bytes, read as UTF-8.
    - A JavaScript number is an integer in [Z]; floating point values and
      NaN are outside the model.
    - A plain object is an association list in [Object.keys] order.
    - An [async] function is cut at its [await] points where another
      callback can observe the intermediate state; the backend's replies
      are explicit inputs. *)

From Stdlib Require Import ZArith String Ascii List Bool Lia.
From Stdlib Require Import DecimalString Sorted Permutation.
Import ListNotations.

Set Warnings "-register-all".
Local Open Scope string_scope.

(* ================================================================== *)
(** * JavaScript values and the string primitives the dispatcher uses *)
(* ================================================================== *)

Module Js.

(** JSON-serialisable values plus [undefined]. *)
Inductive jsval : Type :=
| JUndefined
| JNull
| JBool (b : bool)
| JNum (n : Z)
| JStr (s : string)
| JArr (items : list jsval)
| JObj (fields : list (string * jsval)).

(** Own enumerable properties of a plain object, in enumeration order. *)
Definition obj : Type := list (string * jsval).

Definition keys (o : obj) : list string := map fst o.

(** [o[k]] on a plain object whose prototype adds nothing under [k]. *)
Fixpoint get (o : obj) (k : string) : jsval :=
  match o with
  | [] => JUndefined
  | (k', v) :: o' => if String.eqb k' k then v else get o' k
  end.

(** [delete o[k]]. *)
Fixpoint delete (o : obj) (k : string) : obj :=
  match o with
  | [] => []
  | (k', v) :: o' =>
      if String.eqb k' k then delete o' k else (k', v) :: delete o' k
  end.

(** ToBoolean. *)
Definition truthy (v : jsval) : bool :=
  match v with
  | JUndefined | JNull => false
  | JBool b => b
  | JNum n => negb (n =? 0)%Z
  | JStr s => negb (String.eqb s "")
  | JArr _ | JObj _ => true
  end.

Definition string_of_Z (n : Z) : string :=
  NilZero.string_of_int (Z.to_int n).

Fixpoint join (sep : string) (l : list string) : string :=
  match l with
  | [] => ""
  | [x] => x
  | x :: rest => x ++ sep ++ join sep rest
  end.

(** [String(v)]: arrays join their elements with a comma, printing
    [null] and [undefined] elements as the empty string. *)
Fixpoint ToString (v : jsval) : string :=
  match v with
  | JUndefined => "undefined"
  | JNull => "null"
  | JBool true => "true"
  | JBool false => "false"
  | JNum n => string_of_Z n
  | JStr s => s
  | JArr items =>
      join ","
        ((fix elems (l : list jsval) : list string :=
            match l with
            | [] => []
            | JUndefined :: l' => "" :: elems l'
            | JNull :: l' => "" :: elems l'
            | x :: l' => ToString x :: elems l'
            end) items)
  | JObj _ => "[object Object]"
  end.

(** [s.includes(p)]. *)
Fixpoint includes (s p : string) : bool :=
  if String.prefix p s then true
  else match s with
       | EmptyString => false
       | String _ s' => includes s' p
       end.

Fixpoint drop (n : nat) (s : string) : string :=
  match n, s with
  | O, _ => s
  | S n', String _ s' => drop n' s'
  | S _, EmptyString => EmptyString
  end.

(** [s.replace(p, r)] with a string pattern: only the first occurrence is
    replaced.  The replacement is taken literally; the dispatcher only ever
    passes the output of [encodeURIComponent], which contains no dollar
    sign, so the dollar patterns of [replace] never apply. *)
Fixpoint replace (s p r : string) : string :=
  if String.prefix p s then r ++ drop (String.length p) s
  else match s with
       | EmptyString => EmptyString
       | String c s' => String c (replace s' p r)
       end.

Definition hex_digit (n : N) : ascii :=
  ascii_of_N (if (n <? 10)%N then 48 + n else 55 + n)%N.

(** The percent escape of one byte, upper-case hexadecimal. *)
Definition percent (c : ascii) : string :=
  let n := N_of_ascii c in
  String "%" (String (hex_digit (n / 16)) (String (hex_digit (n mod 16)) "")).

Definition alnum (c : ascii) : bool :=
  let n := N_of_ascii c in
  ((48 <=? n) && (n <=? 57) || (65 <=? n) && (n <=? 90)
   || (97 <=? n) && (n <=? 122))%N%bool.

(** Characters [encodeURIComponent] leaves alone: A-Z a-z 0-9 - _ . ! ~ * ' ( ) *)
Definition uri_unreserved (c : ascii) : bool :=
  alnum c
  || existsb (Ascii.eqb c)
       ["-"; "_"; "."; "!"; "~"; "*"; "'"; "("; ")"]%char.

Fixpoint encodeURIComponent (s : string) : string :=
  match s with
  | EmptyString => EmptyString
  | String c s' =>
      (if uri_unreserved c then String c "" else percent c)
        ++ encodeURIComponent s'
  end.

(** The application/x-www-form-urlencoded byte serialiser used by
    [URLSearchParams.toString]. *)
Definition form_byte (c : ascii) : string :=
  if Ascii.eqb c " " then "+"
  else if alnum c || existsb (Ascii.eqb c) ["*"; "-"; "."; "_"]%char
       then String c ""
       else percent c.

Fixpoint form_encode (s : string) : string :=
  match s with
  | EmptyString => EmptyString
  | String c s' => form_byte c ++ form_encode s'
  end.

Definition URLSearchParams_toString (ps : list (string * string)) : string :=
  join "&" (map (fun kv => form_encode (fst kv) ++ "=" ++ form_encode (snd kv)) ps).

End Js.

(* ================================================================== *)
(** * The command registry and the HTTP adapter (utils/request.ts) *)
(* ================================================================== *)

Module Dispatcher.
Import Js.

Inductive http_method : Type := GET | POST | DELETE | PATCH.

Record descriptor : Type := mk { url : string; method : http_method }.

(** The registry, entry for entry. *)
Definition COMMAND_MAPPING : list (string * descriptor) := [
    ("list_accounts", mk "/api/accounts" GET);
    ("get_current_account", mk "/api/accounts/current" GET);
    ("switch_account", mk "/api/accounts/switch" POST);
    ("add_account", mk "/api/accounts" POST);
    ("delete_account", mk "/api/accounts/:accountId" DELETE);
    ("delete_accounts", mk "/api/accounts/bulk-delete" POST);
    ("fetch_account_quota", mk "/api/accounts/:accountId/quota" GET);
    ("refresh_account_quota", mk "/api/accounts/:accountId/quota" GET);
    ("refresh_all_quotas", mk "/api/accounts/refresh" POST);
    ("reorder_accounts", mk "/api/accounts/reorder" POST);
    ("toggle_proxy_status", mk "/api/accounts/:accountId/toggle-proxy" POST);
    ("warm_up_accounts", mk "/api/accounts/warmup" POST);
    ("warm_up_all_accounts", mk "/api/accounts/warmup" POST);
    ("warm_up_account", mk "/api/accounts/:accountId/warmup" POST);
    ("update_account_label", mk "/api/accounts/:accountId/label" POST);
    ("export_accounts", mk "/api/accounts/export" POST);
    ("bind_device_profile", mk "/api/accounts/:accountId/bind-device" POST);
    ("get_device_profiles", mk "/api/accounts/:accountId/device-profiles" GET);
    ("list_device_versions", mk "/api/accounts/:accountId/device-versions" GET);
    ("preview_generate_profile", mk "/api/accounts/device-preview" POST);
    ("bind_device_profile_with_profile", mk "/api/accounts/:accountId/bind-device-profile" POST);
    ("restore_original_device", mk "/api/accounts/restore-original" POST);
    ("restore_device_version", mk "/api/accounts/:accountId/device-versions/:versionId/restore" POST);
    ("delete_device_version", mk "/api/accounts/:accountId/device-versions/:versionId" DELETE);
    ("open_device_folder", mk "/api/system/open-folder" POST);
    ("get_proxy_status", mk "/api/proxy/status" GET);
    ("start_proxy_service", mk "/api/proxy/start" POST);
    ("stop_proxy_service", mk "/api/proxy/stop" POST);
    ("update_model_mapping", mk "/api/proxy/mapping" POST);
    ("generate_api_key", mk "/api/proxy/api-key/generate" POST);
    ("clear_proxy_session_bindings", mk "/api/proxy/session-bindings/clear" POST);
    ("clear_proxy_rate_limit", mk "/api/proxy/rate-limits/:accountId" DELETE);
    ("clear_all_proxy_rate_limits", mk "/api/proxy/rate-limits" DELETE);
    ("check_proxy_health", mk "/api/proxy/health-check/trigger" POST);
    ("get_preferred_account", mk "/api/proxy/preferred-account" GET);
    ("set_preferred_account", mk "/api/proxy/preferred-account" POST);
    ("fetch_zai_models", mk "/api/zai/models/fetch" POST);
    ("load_config", mk "/api/config" GET);
    ("save_config", mk "/api/config" POST);
    ("get_proxy_stats", mk "/api/proxy/stats" GET);
    ("set_proxy_monitor_enabled", mk "/api/proxy/monitor/toggle" POST);
    ("get_proxy_logs_filtered", mk "/api/logs" GET);
    ("get_proxy_logs_count_filtered", mk "/api/logs/count" GET);
    ("clear_proxy_logs", mk "/api/logs/clear" POST);
    ("get_proxy_log_detail", mk "/api/logs/:logId" GET);
    ("enable_debug_console", mk "/api/debug/enable" POST);
    ("disable_debug_console", mk "/api/debug/disable" POST);
    ("is_debug_console_enabled", mk "/api/debug/enabled" GET);
    ("get_debug_console_logs", mk "/api/debug/logs" GET);
    ("clear_debug_console_logs", mk "/api/debug/logs/clear" POST);
    ("get_cli_sync_status", mk "/api/proxy/cli/status" POST);
    ("execute_cli_sync", mk "/api/proxy/cli/sync" POST);
    ("execute_cli_restore", mk "/api/proxy/cli/restore" POST);
    ("get_cli_config_content", mk "/api/proxy/cli/config" POST);
    ("get_opencode_sync_status", mk "/api/proxy/opencode/status" POST);
    ("execute_opencode_sync", mk "/api/proxy/opencode/sync" POST);
    ("execute_opencode_restore", mk "/api/proxy/opencode/restore" POST);
    ("get_opencode_config_content", mk "/api/proxy/opencode/config" POST);
    ("get_token_stats_hourly", mk "/api/stats/token/hourly" GET);
    ("get_token_stats_daily", mk "/api/stats/token/daily" GET);
    ("get_token_stats_weekly", mk "/api/stats/token/weekly" GET);
    ("get_token_stats_by_account", mk "/api/stats/token/by-account" GET);
    ("get_token_stats_summary", mk "/api/stats/token/summary" GET);
    ("get_token_stats_by_model", mk "/api/stats/token/by-model" GET);
    ("get_token_stats_model_trend_hourly", mk "/api/stats/token/model-trend/hourly" GET);
    ("get_token_stats_model_trend_daily", mk "/api/stats/token/model-trend/daily" GET);
    ("get_token_stats_account_trend_hourly", mk "/api/stats/token/account-trend/hourly" GET);
    ("get_token_stats_account_trend_daily", mk "/api/stats/token/account-trend/daily" GET);
    ("clear_token_stats", mk "/api/stats/token/clear" POST);
    ("get_data_dir_path", mk "/api/system/data-dir" GET);
    ("get_update_settings", mk "/api/system/updates/settings" GET);
    ("save_update_settings", mk "/api/system/updates/save" POST);
    ("is_auto_launch_enabled", mk "/api/system/autostart/status" GET);
    ("toggle_auto_launch", mk "/api/system/autostart/toggle" POST);
    ("get_http_api_settings", mk "/api/system/http-api/settings" GET);
    ("save_http_api_settings", mk "/api/system/http-api/settings" POST);
    ("get_antigravity_path", mk "/api/system/antigravity/path" GET);
    ("get_antigravity_args", mk "/api/system/antigravity/args" GET);
    ("cloudflared_install", mk "/api/proxy/cloudflared/install" POST);
    ("cloudflared_start", mk "/api/proxy/cloudflared/start" POST);
    ("cloudflared_stop", mk "/api/proxy/cloudflared/stop" POST);
    ("cloudflared_get_status", mk "/api/proxy/cloudflared/status" GET);
    ("should_check_updates", mk "/api/system/updates/check-status" GET);
    ("check_for_updates", mk "/api/system/updates/check" POST);
    ("update_last_check_time", mk "/api/system/updates/touch" POST);
    ("prepare_oauth_url", mk "/api/auth/url" GET);
    ("start_oauth_login", mk "/api/accounts/oauth/start" POST);
    ("complete_oauth_login", mk "/api/accounts/oauth/complete" POST);
    ("cancel_oauth_login", mk "/api/accounts/oauth/cancel" POST);
    ("submit_oauth_code", mk "/api/accounts/oauth/submit-code" POST);
    ("import_v1_accounts", mk "/api/accounts/import/v1" POST);
    ("import_from_db", mk "/api/accounts/import/db" POST);
    ("import_custom_db", mk "/api/accounts/import/db-custom" POST);
    ("sync_account_from_db", mk "/api/accounts/sync/db" POST);
    ("open_data_folder", mk "/api/system/open-folder" POST);
    ("clear_antigravity_cache", mk "/api/system/cache/clear" POST);
    ("get_antigravity_cache_paths", mk "/api/system/cache/paths" GET);
    ("clear_log_cache", mk "/api/system/logs/clear-cache" POST);
    ("get_ip_access_logs", mk "/api/security/logs" GET);
    ("clear_ip_access_logs", mk "/api/security/logs/clear" POST);
    ("get_ip_stats", mk "/api/security/stats" GET);
    ("get_ip_token_stats", mk "/api/security/token-stats" GET);
    ("get_ip_blacklist", mk "/api/security/blacklist" GET);
    ("add_ip_to_blacklist", mk "/api/security/blacklist" POST);
    ("remove_ip_from_blacklist", mk "/api/security/blacklist" DELETE);
    ("clear_ip_blacklist", mk "/api/security/blacklist/clear" POST);
    ("check_ip_in_blacklist", mk "/api/security/blacklist/check" GET);
    ("get_ip_whitelist", mk "/api/security/whitelist" GET);
    ("add_ip_to_whitelist", mk "/api/security/whitelist" POST);
    ("remove_ip_from_whitelist", mk "/api/security/whitelist" DELETE);
    ("clear_ip_whitelist", mk "/api/security/whitelist/clear" POST);
    ("check_ip_in_whitelist", mk "/api/security/whitelist/check" GET);
    ("get_security_config", mk "/api/security/config" GET);
    ("update_security_config", mk "/api/security/config" POST);
    ("list_user_tokens", mk "/api/user-tokens" GET);
    ("get_user_token_summary", mk "/api/user-tokens/summary" GET);
    ("create_user_token", mk "/api/user-tokens" POST);
    ("renew_user_token", mk "/api/user-tokens/:id/renew" POST);
    ("delete_user_token", mk "/api/user-tokens/:id" DELETE);
    ("update_user_token", mk "/api/user-tokens/:id" PATCH);
    ("get_proxy_pool_config", mk "/api/proxy/pool/config" GET);
    ("get_all_account_bindings", mk "/api/proxy/pool/bindings" GET);
    ("bind_account_proxy", mk "/api/proxy/pool/bind" POST);
    ("unbind_account_proxy", mk "/api/proxy/pool/unbind" POST);
    ("get_account_proxy_binding", mk "/api/proxy/pool/binding/:accountId" GET)
  ].

Fixpoint own (table : list (string * descriptor)) (cmd : string)
  : option descriptor :=
  match table with
  | [] => None
  | (k, d) :: rest => if String.eqb k cmd then Some d else own rest cmd
  end.

(** The registry is an object literal, so [COMMAND_MAPPING[cmd]] also finds
    what the literal inherits from [Object.prototype]. *)
Definition Object_prototype_names : list string :=
  [ "constructor"; "__proto__"; "hasOwnProperty"; "isPrototypeOf";
    "propertyIsEnumerable"; "toLocaleString"; "toString"; "valueOf";
    "__defineGetter__"; "__defineSetter__"; "__lookupGetter__";
    "__lookupSetter__" ].

Inductive lookup_result : Type :=
| Own (d : descriptor)   (* a registry entry *)
| Inherited              (* a truthy inherited value without url or method *)
| Absent.                (* undefined *)

Definition lookup (table : list (string * descriptor)) (cmd : string)
  : lookup_result :=
  match own table cmd with
  | Some d => Own d
  | None =>
      if existsb (String.eqb cmd) Object_prototype_names
      then Inherited else Absent
  end.

(** What [fetch] is called with.  [req_method = None] is an undefined
    method, [req_body] is the value handed to [JSON.stringify]. *)
Record http_request : Type := {
  req_url : string;
  req_method : option http_method;
  req_headers : list (string * string);
  req_body : option jsval
}.

Inductive thrown : Type :=
| Error (msg : string)
| TypeError (msg : string)
| Value (v : jsval).

Inductive prepared : Type :=
| Throws (e : thrown)
| Fetches (r : http_request).

(** One turn of the [Object.keys(args).forEach] loop of path resolution. *)
Definition subst_step (args : obj) (st : string * obj) (key : string)
  : string * obj :=
  let placeholder := ":" ++ key in
  if includes (fst st) placeholder
  then (replace (fst st) placeholder
          (encodeURIComponent (ToString (get args key))),
        delete (snd st) key)
  else st.

(** Path resolution: the resolved url and [bodyArgs]. *)
Definition resolve_path (template : string) (args : obj) : string * obj :=
  fold_left (subst_step args) (keys args) (template, args).

(** The entries appended to [URLSearchParams] for GET and DELETE. *)
Fixpoint query_pairs (url : string) (args : obj) : list (string * string) :=
  match args with
  | [] => []
  | (key, value) :: rest =>
      if includes url (encodeURIComponent (ToString value))
      then query_pairs url rest
      else match value with
           | JUndefined | JNull => query_pairs url rest
           | _ => (key, ToString value) :: query_pairs url rest
           end
  end.

Definition with_query (url : string) (args : obj) : string :=
  let qs := URLSearchParams_toString (query_pairs url args) in
  if String.eqb qs "" then url else url ++ "?" ++ qs.

Definition headers (apiKey : option string) : list (string * string) :=
  ("Content-Type", "application/json")
  :: match apiKey with
     | Some k =>
         if String.eqb k "" then []
         else [("Authorization", "Bearer " ++ k); ("x-api-key", k)]
     | None => []
     end.

(** The body of a POST or PATCH. *)
Definition body_of (bodyArgs : obj) : jsval :=
  match get bodyArgs "request" with
  | JUndefined => JObj bodyArgs
  | v => v
  end.

Definition is_query_method (m : http_method) : bool :=
  match m with GET | DELETE => true | POST | PATCH => false end.

(** The Web branch of [request] up to the call of [fetch].  [args = None]
    is an omitted argument. *)
Definition prepare (table : list (string * descriptor)) (cmd : string)
    (args : option obj) (apiKey : option string) : prepared :=
  match lookup table cmd with
  | Absent => Throws (Error ("Command [" ++ cmd ++ "] not supported in Web mode."))
  | Inherited =>
      match args with
      | Some (_ :: _) =>
          Throws (TypeError
            "Cannot read properties of undefined (reading 'includes')")
      | _ =>
          Fetches {| req_url := "undefined"; req_method := None;
                     req_headers := headers apiKey; req_body := None |}
      end
  | Own d =>
      match args with
      | None =>
          Fetches {| req_url := url d; req_method := Some (method d);
                     req_headers := headers apiKey; req_body := None |}
      | Some a =>
          let resolved := resolve_path (url d) a in
          if is_query_method (method d)
          then Fetches {| req_url := with_query (fst resolved) a;
                          req_method := Some (method d);
                          req_headers := headers apiKey;
                          req_body := None |}
          else Fetches {| req_url := fst resolved;
                          req_method := Some (method d);
                          req_headers := headers apiKey;
                          req_body := Some (body_of (snd resolved)) |}
      end
  end.

(** The one-entry registry of the specification's scenario. *)
Definition getThing_registry : list (string * descriptor) :=
  [("getThing", mk "/api/things/:id" GET)].

(** A request wrapper with another key beside it. *)
Definition wrapped_args : obj :=
  [("request", JObj [("ip_pattern", JStr "10.0.0.1")]); ("note", JStr "x")].

End Dispatcher.

(* ================================================================== *)
(** * Session state, the unauthorized signal and [AdminAuthGuard] *)
(* ================================================================== *)

Module Session.

(** The browser-side state the 401 path touches.  [signals] and [clears]
    are counters of what has happened so far: how many
    [abv-unauthorized] events were dispatched, and how many times the
    handler removed the credential from [sessionStorage]. *)
Record window : Type := {
  _lastAuthErrorTime : option Z;
  sessionKey : option string;     (* sessionStorage abv_admin_api_key *)
  localKey : option string;       (* localStorage abv_admin_api_key *)
  listeners : nat;                (* handlers registered for abv-unauthorized *)
  isAuthenticated : bool;
  signals : nat;
  clears : nat
}.

Definition fresh_window (isTauri : bool) (session local : option string)
  : window :=
  {| _lastAuthErrorTime := None; sessionKey := session; localKey := local;
     listeners := 0; isAuthenticated := isTauri; signals := 0; clears := 0 |}.

(** A stored key counts when it is a non-empty string. *)
Definition present (k : option string) : bool :=
  match k with
  | Some s => negb (String.eqb s "")
  | None => false
  end.

(** [handleUnauthorized]. *)
Definition handleUnauthorized (w : window) : window :=
  {| _lastAuthErrorTime := _lastAuthErrorTime w;
     sessionKey := None; localKey := None;
     listeners := listeners w; isAuthenticated := false;
     signals := signals w; clears := S (clears w) |}.

Fixpoint run_handlers (n : nat) (w : window) : window :=
  match n with
  | O => w
  | S n' => run_handlers n' (handleUnauthorized w)
  end.

(** [window.dispatchEvent(new CustomEvent('abv-unauthorized'))]: every
    registered handler runs once. *)
Definition dispatchEvent (w : window) : window :=
  run_handlers (listeners w)
    {| _lastAuthErrorTime := _lastAuthErrorTime w;
       sessionKey := sessionKey w; localKey := localKey w;
       listeners := listeners w; isAuthenticated := isAuthenticated w;
       signals := S (signals w); clears := clears w |}.

(** [window._lastAuthErrorTime || 0] *)
Definition lastAuthError (w : window) : Z :=
  match _lastAuthErrorTime w with
  | Some t => t
  | None => 0%Z
  end.

(** The debounce lock of the 401 branch; [now] is [Date.now()]. *)
Definition on_unauthorized (now : Z) (w : window) : window :=
  if (now - lastAuthError w >? 2000)%Z
  then dispatchEvent
         {| _lastAuthErrorTime := Some now;
            sessionKey := sessionKey w; localKey := localKey w;
            listeners := listeners w; isAuthenticated := isAuthenticated w;
            signals := signals w; clears := clears w |}
  else w.

(** The mount effect of [AdminAuthGuard]. *)
(** The 401 responses of several requests, in the order they are seen. *)
Definition observe_401s (times : list Z) (w : window) : window :=
  fold_left (fun acc now => on_unauthorized now acc) times w.

Definition AdminAuthGuard_mount (isTauri : bool) (w : window) : window :=
  if isTauri then w
  else if present (sessionKey w)
  then (* setIsAuthenticated(true); return *)
       {| _lastAuthErrorTime := _lastAuthErrorTime w;
          sessionKey := sessionKey w; localKey := localKey w;
          listeners := listeners w; isAuthenticated := true;
          signals := signals w; clears := clears w |}
  else
    let migrated := present (localKey w) in
    {| _lastAuthErrorTime := _lastAuthErrorTime w;
       sessionKey := if migrated then localKey w else sessionKey w;
       localKey := if migrated then None else localKey w;
       listeners := S (listeners w);
       isAuthenticated := if migrated then true else isAuthenticated w;
       signals := signals w; clears := clears w |}.

(** A browser that comes back with a session key already stored, as after
    a login and reload, with the guard mounted. *)
Definition returning_window : window :=
  AdminAuthGuard_mount false (fresh_window false (Some "secret") None).

End Session.

(* ================================================================== *)
(** * Response classification and the whole of [request] *)
(* ================================================================== *)

Module Transport.
Import Js Dispatcher Session.

(** An HTTP response: [json] is what parsing [body] as JSON gives, [None]
    when the body is not valid JSON (the empty body is not). *)
Record response : Type := {
  status : Z;
  body : string;
  json : option jsval
}.

Definition ok (r : response) : bool :=
  ((200 <=? status r) && (status r <=? 299))%Z.

Inductive outcome : Type :=
| Returns (v : jsval)
| Rejects (e : thrown).

(** [errorData.error || `HTTP Error ${response.status}`]. *)
Definition error_of (errorData : jsval) (st : Z) : thrown :=
  match errorData with
  | JUndefined | JNull =>
      TypeError "Cannot read properties of null (reading 'error')"
  | JObj fields =>
      if truthy (get fields "error") then Value (get fields "error")
      else Value (JStr ("HTTP Error " ++ string_of_Z st))
  | _ => Value (JStr ("HTTP Error " ++ string_of_Z st))
  end.

(** The part of [request] after [fetch] has answered, in Web mode. *)
Definition classify (now : Z) (w : window) (r : response)
  : window * outcome :=
  if negb (ok r) then
    let w' := if (status r =? 401)%Z then on_unauthorized now w else w in
    let errorData := match json r with Some v => v | None => JObj [] end in
    (w', Rejects (error_of errorData (status r)))
  else if (status r =? 204)%Z then (w, Returns JNull)
  else if String.eqb (body r) "" then (w, Returns JNull)
  else match json r with
       | Some v => (w, Returns v)
       | None => (w, Returns (JStr (body r)))
       end.

Inductive fetch_reply : Type :=
| NetworkFailure (e : thrown)
| Response (r : response).

(** What one call of [request] does: the new browser state, how the promise
    settles, and the HTTP requests it issued.  In a Tauri host the native
    bridge's answer [native] is passed on unchanged. *)
Definition request (isTauri : bool) (table : list (string * descriptor))
    (cmd : string) (args : option obj)
    (now : Z) (w : window) (native : outcome) (reply : fetch_reply)
  : window * outcome * list http_request :=
  if isTauri then (w, native, [])
  else match prepare table cmd args (sessionKey w) with
       | Throws e => (w, Rejects e, [])
       | Fetches rq =>
           match reply with
           | NetworkFailure e => (w, Rejects e, [rq])
           | Response r =>
               let '(w', res) := classify now w r in (w', res, [rq])
           end
       end.

End Transport.

(* ================================================================== *)
(** * The request-log monitor (components/proxy/ProxyMonitor.tsx) *)
(* ================================================================== *)

Module Monitor.

Record ProxyRequestLog : Type := {
  id : string;
  timestamp : Z;
  status : Z;
  url : string;
  request_body : option string;
  response_body : option string
}.

Record ProxyStats : Type := {
  total_requests : Z;
  success_count : Z;
  error_count : Z
}.

(** Component state and refs.  [flushArmed] says that the 500ms
    [updateTimeout] is pending; [console] collects [console.error] lines. *)
Record state : Type := {
  logs : list ProxyRequestLog;
  stats : ProxyStats;
  totalCount : Z;
  isLoggingEnabled : bool;
  loading : bool;
  pendingLogs : list ProxyRequestLog;    (* pendingLogsRef.current *)
  listenerSetup : bool;                  (* listenerSetupRef.current *)
  isMounted : bool;                      (* isMountedRef.current *)
  flushArmed : bool;
  console : list string
}.

Definition initial : state :=
  {| logs := [];
     stats := {| total_requests := 0; success_count := 0; error_count := 0 |};
     totalCount := 0; isLoggingEnabled := false; loading := false;
     pendingLogs := []; listenerSetup := false; isMounted := true;
     flushArmed := false; console := [] |}.

Definition setLogs (l : list ProxyRequestLog) (s : state) : state :=
  {| logs := l; stats := stats s; totalCount := totalCount s;
     isLoggingEnabled := isLoggingEnabled s; loading := loading s;
     pendingLogs := pendingLogs s; listenerSetup := listenerSetup s;
     isMounted := isMounted s; flushArmed := flushArmed s;
     console := console s |}.

Definition setStats (x : ProxyStats) (s : state) : state :=
  {| logs := logs s; stats := x; totalCount := totalCount s;
     isLoggingEnabled := isLoggingEnabled s; loading := loading s;
     pendingLogs := pendingLogs s; listenerSetup := listenerSetup s;
     isMounted := isMounted s; flushArmed := flushArmed s;
     console := console s |}.

Definition setTotalCount (n : Z) (s : state) : state :=
  {| logs := logs s; stats := stats s; totalCount := n;
     isLoggingEnabled := isLoggingEnabled s; loading := loading s;
     pendingLogs := pendingLogs s; listenerSetup := listenerSetup s;
     isMounted := isMounted s; flushArmed := flushArmed s;
     console := console s |}.

Definition setIsLoggingEnabled (b : bool) (s : state) : state :=
  {| logs := logs s; stats := stats s; totalCount := totalCount s;
     isLoggingEnabled := b; loading := loading s;
     pendingLogs := pendingLogs s; listenerSetup := listenerSetup s;
     isMounted := isMounted s; flushArmed := flushArmed s;
     console := console s |}.

Definition setLoading (b : bool) (s : state) : state :=
  {| logs := logs s; stats := stats s; totalCount := totalCount s;
     isLoggingEnabled := isLoggingEnabled s; loading := b;
     pendingLogs := pendingLogs s; listenerSetup := listenerSetup s;
     isMounted := isMounted s; flushArmed := flushArmed s;
     console := console s |}.

Definition setPending (l : list ProxyRequestLog) (s : state) : state :=
  {| logs := logs s; stats := stats s; totalCount := totalCount s;
     isLoggingEnabled := isLoggingEnabled s; loading := loading s;
     pendingLogs := l; listenerSetup := listenerSetup s;
     isMounted := isMounted s; flushArmed := flushArmed s;
     console := console s |}.

Definition setArmed (b : bool) (s : state) : state :=
  {| logs := logs s; stats := stats s; totalCount := totalCount s;
     isLoggingEnabled := isLoggingEnabled s; loading := loading s;
     pendingLogs := pendingLogs s; listenerSetup := listenerSetup s;
     isMounted := isMounted s; flushArmed := b;
     console := console s |}.

Definition setListenerSetup (b : bool) (s : state) : state :=
  {| logs := logs s; stats := stats s; totalCount := totalCount s;
     isLoggingEnabled := isLoggingEnabled s; loading := loading s;
     pendingLogs := pendingLogs s; listenerSetup := b;
     isMounted := isMounted s; flushArmed := flushArmed s;
     console := console s |}.

Definition console_error (msg : string) (s : state) : state :=
  {| logs := logs s; stats := stats s; totalCount := totalCount s;
     isLoggingEnabled := isLoggingEnabled s; loading := loading s;
     pendingLogs := pendingLogs s; listenerSetup := listenerSetup s;
     isMounted := isMounted s; flushArmed := flushArmed s;
     console := console s ++ [msg] |}.

(** ** The push path *)

(** [{...newLog, request_body: undefined, response_body: undefined}] *)
Definition summary (l : ProxyRequestLog) : ProxyRequestLog :=
  {| id := id l; timestamp := timestamp l; status := status l; url := url l;
     request_body := None; response_body := None |}.

Definition has_id (i : string) (l : list ProxyRequestLog) : bool :=
  existsb (fun x => String.eqb (id x) i) l.

(** The handler of [proxy://request]. *)
Definition on_request_event (newLog : ProxyRequestLog) (s : state) : state :=
  if negb (isMounted s) then s
  else if has_id (id newLog) (pendingLogs s) then s
  else setArmed true (setPending (pendingLogs s ++ [summary newLog]) s).

Definition ingest_all (events : list ProxyRequestLog) (s : state) : state :=
  fold_left (fun acc e => on_request_event e acc) events s.

(** [merged.sort((a, b) => b.timestamp - a.timestamp)].  [Array.prototype.sort]
    is stable, so its result is determined by the comparator: the entries by
    descending timestamp, equal timestamps in their original order.
    Insertion from the right computes exactly that arrangement. *)
Fixpoint insert (x : ProxyRequestLog) (l : list ProxyRequestLog)
  : list ProxyRequestLog :=
  match l with
  | [] => [x]
  | y :: l' =>
      if (timestamp y >? timestamp x)%Z then y :: insert x l' else x :: l
  end.

Fixpoint sort (l : list ProxyRequestLog) : list ProxyRequestLog :=
  match l with
  | [] => []
  | x :: l' => insert x (sort l')
  end.

(** The updater passed to [setLogs] by the flush. *)
Definition merge (currentPending prev : list ProxyRequestLog)
  : list ProxyRequestLog :=
  let uniqueNewLogs :=
    filter (fun l => negb (has_id (id l) prev)) currentPending in
  firstn 100 (sort (uniqueNewLogs ++ prev)).

Inductive reply (A : Type) : Type :=
| Resolved (a : A)
| Rejected (msg : string).
Arguments Resolved {A} a.
Arguments Rejected {A} msg.

(** The timer callback up to its [await]: the flag tells whether it goes on
    to fetch the tallies. *)
Definition flush_sync (s : state) : state * bool :=
  let s := setArmed false s in
  if negb (isMounted s) then (s, false)
  else match pendingLogs s with
       | [] => (s, false)
       | _ :: _ => (setLogs (merge (pendingLogs s) (logs s)) s, true)
       end.

(** The rest of the callback, once [Promise.all] of the two tallies has
    settled. *)
Definition flush_resume (tallies : reply (option ProxyStats * Z)) (s : state)
  : state :=
  let s1 :=
    match tallies with
    | Resolved (currentStats, count) =>
        if isMounted s
        then setTotalCount count
               (match currentStats with
                | Some x => setStats x s
                | None => s
                end)
        else s
    | Rejected e => console_error ("Failed to fetch stats: " ++ e) s
    end in
  setPending [] s1.

(** A flush during whose [await] the events [during] are pushed. *)
Definition flush_with (during : list ProxyRequestLog)
    (tallies : reply (option ProxyStats * Z)) (s : state) : state :=
  let '(s1, continues) := flush_sync s in
  if continues then flush_resume tallies (ingest_all during s1) else s1.

(** A flush that no other callback interleaves with. *)
Definition flush (tallies : reply (option ProxyStats * Z)) (s : state)
  : state :=
  flush_with [] tallies s.

(** ** The pull path *)

(** What the backend answers to the calls of one [loadData].  A lost race
    against the 10s timeout is a rejection.  [r_config = Resolved None]
    stands for a config without a [proxy] part, [r_history = Resolved None]
    for an answer that is not an array, [r_stats = Resolved None] for a
    falsy answer. *)
Record pull : Type := {
  r_config : reply (option bool);
  r_monitor : reply unit;
  r_count : reply Z;
  r_history : reply (option (list ProxyRequestLog));
  r_stats : reply (option ProxyStats)
}.

(** A computation over the component state that may throw. *)
Definition io (A : Type) : Type := state -> state * reply A.

Definition ret {A : Type} (a : A) : io A := fun s => (s, Resolved a).

Definition bind {A B : Type} (m : io A) (k : A -> io B) : io B :=
  fun s =>
    match m s with
    | (s', Resolved a) => k a s'
    | (s', Rejected e) => (s', Rejected e)
    end.

Definition await {A : Type} (r : reply A) : io A := fun s => (s, r).

Definition update (f : state -> state) : io unit :=
  fun s => (f s, Resolved tt).

Definition try_catch (body : io unit) (handler : string -> io unit) : io unit :=
  fun s =>
    match body s with
    | (s', Resolved _) => (s', Resolved tt)
    | (s', Rejected e) => handler e s'
    end.

Definition finally (body : io unit) (cleanup : state -> state) : io unit :=
  fun s => let '(s', r) := body s in (cleanup s', r).

Declare Scope io_scope.
Delimit Scope io_scope with io.
Notation "x <- m ;; k" := (bind m (fun x => k))
  (at level 61, m at next level, right associativity) : io_scope.
Notation "m ;;; k" := (bind m (fun _ => k))
  (at level 61, right associativity) : io_scope.

(** The body of the [try] block of [loadData]. *)
Definition loadData_body (p : pull) : io unit :=
  (config <- await (r_config p) ;;
   match config with
   | Some enable_logging =>
       update (setIsLoggingEnabled enable_logging) ;;;
       await (r_monitor p)
   | None => ret tt
   end ;;;
   count <- await (r_count p) ;;
   update (setTotalCount count) ;;;
   history <- await (r_history p) ;;
   match history with
   | Some h => update (fun s => setPending [] (setLogs h s))
   | None => ret tt
   end ;;;
   currentStats <- await (r_stats p) ;;
   match currentStats with
   | Some x => update (setStats x)
   | None => ret tt
   end)%io.

(** The [catch] block of [loadData]: one console line, a second one when
    the error is the timeout. *)
Definition report_failure (e : string) (s : state) : state :=
  let s1 := console_error ("Failed to load proxy data " ++ e) s in
  if String.eqb e "Request timeout"
  then console_error "Loading monitor data timeout, please try again later" s1
  else s1.

(** [loadData]: the state it leaves and how its promise settles.  The guard
    [if (loading) return] reads the [loading] of the render that created
    the closure being called, [loading_seen], which need not be the flag
    the component holds by now: the timer of the mount effect keeps calling
    the closure of the first render. *)
Definition loadData (loading_seen : bool) (p : pull) : io unit :=
  fun s =>
    if loading_seen then (s, Resolved tt)
    else finally
           (try_catch (loadData_body p) (fun e => update (report_failure e)))
           (setLoading false)
           (setLoading true s).

(** Whether the calls that precede the count query resolved. *)
Definition preamble_ok (p : pull) : bool :=
  match r_config p with
  | Resolved None => true
  | Resolved (Some _) =>
      match r_monitor p with
      | Resolved _ => true
      | Rejected _ => false
      end
  | Rejected _ => false
  end.

(** The history a pull delivers: every call up to the history query
    resolved and its answer is an array. *)
Definition pulled (p : pull) : option (list ProxyRequestLog) :=
  if preamble_ok p then
    match r_count p, r_history p with
    | Resolved _, Resolved (Some h) => Some h
    | _, _ => None
    end
  else None.

(** The rejection that ends a pull before the view is replaced: the first
    call, up to and including the history query, that rejects. *)
Definition failed_pull (p : pull) : option string :=
  match r_config p with
  | Rejected e => Some e
  | Resolved config =>
      match (match config with Some _ => r_monitor p | None => Resolved tt end)
      with
      | Rejected e => Some e
      | Resolved _ =>
          match r_count p with
          | Rejected e => Some e
          | Resolved _ =>
              match r_history p with
              | Rejected e => Some e
              | Resolved _ => None
              end
          end
      end
  end.

(** The total count a pull leaves behind. *)
Definition count_after (p : pull) (s : state) : Z :=
  if preamble_ok p then
    match r_count p with
    | Resolved c => c
    | Rejected _ => totalCount s
    end
  else totalCount s.

(** The rejection a pull ends with: the first call that rejects, the
    statistics query included. *)
Definition pull_failure (p : pull) : option string :=
  match failed_pull p with
  | Some e => Some e
  | None =>
      match r_stats p with
      | Rejected e => Some e
      | Resolved _ => None
      end
  end.

(** The tallies a pull leaves behind: replaced when every call resolved and
    the statistics answer is truthy. *)
Definition stats_after (p : pull) (s : state) : ProxyStats :=
  match failed_pull p, r_stats p with
  | None, Resolved (Some x) => x
  | _, _ => stats s
  end.

(** The console after a pull. *)
Definition console_after (p : pull) (s : state) : list string :=
  match pull_failure p with
  | Some e => console (report_failure e s)
  | None => console s
  end.

(** The operations of the push path: an event, or the timer callback with
    the events pushed during its await and the answer to its tallies. *)
Inductive push_op : Type :=
| Ingest (e : ProxyRequestLog)
| Flush (during : list ProxyRequestLog)
        (tallies : reply (option ProxyStats * Z)).

Definition run_push_op (s : state) (op : push_op) : state :=
  match op with
  | Ingest e => on_request_event e s
  | Flush during tallies => flush_with during tallies s
  end.

Definition run_push (ops : list push_op) (s : state) : state :=
  fold_left run_push_op ops s.

(** An entry of the scenarios. *)
Definition entry (i : string) (ts : Z) : ProxyRequestLog :=
  {| id := i; timestamp := ts; status := 200; url := "/v1/messages";
     request_body := None; response_body := None |}.

(** A monitor with one entry pushed and not yet flushed. *)
Definition one_pending : state := setPending [entry "b" 200] initial.

(** A pull that answers with the page [h] and the count [count]. *)
Definition page_pull (h : list ProxyRequestLog) (count : Z) : pull :=
  {| r_config := Resolved None; r_monitor := Resolved tt;
     r_count := Resolved count; r_history := Resolved (Some h);
     r_stats := Resolved None |}.



(** A monitor that shows one entry and has another one pending. *)
Definition showing_one : state :=
  setPending [entry "b" 200] (setLogs [entry "a" 100] initial).

(** A page of [n] distinct entries. *)
Definition page (n : nat) : list ProxyRequestLog :=
  map (fun k => entry (Js.string_of_Z (Z.of_nat k)) (Z.of_nat k)) (seq 0 n).

(** Newest first. *)
Definition newer_or_equal (a b : ProxyRequestLog) : Prop :=
  (timestamp b <= timestamp a)%Z.

(** [setupListener] up to its [await]: the flag tells whether [listen] is
    called. *)
Definition setupListener (isTauri : bool) (s : state) : state * bool :=
  if negb isTauri then (s, false)
  else if listenerSetup s then (s, false)
  else (setListenerSetup true s, true).

End Monitor.

(* ================================================================== *)
(** * The debug-console store (stores/useDebugConsole.ts) *)
(* ================================================================== *)

Module DebugConsole.

Inductive LogLevel : Type := ERROR | WARN | INFO | DEBUG | TRACE.

Record LogEntry : Type := {
  id : Z;
  timestamp : Z;
  level : LogLevel;
  target : string;
  message : string
}.

Definition MAX_LOGS : nat := 5000.

(** The store, and around it what the browser and the Tauri event system
    hold: the interval timers and event handlers that are registered, the
    calls of [listen] that have not settled yet, and a supply of fresh
    ids.  A timer id is an [integer] greater than zero. *)
Record world : Type := {
  isOpen : bool;
  isEnabled : bool;
  logs : list LogEntry;
  unlistenFn : option positive;
  pollInterval : option Z;
  timers : list Z;
  handlers : list positive;
  awaiting : nat;
  next : positive
}.

Definition initial : world :=
  {| isOpen := false; isEnabled := false; logs := [];
     unlistenFn := None; pollInterval := None;
     timers := []; handlers := []; awaiting := 0; next := 1%positive |}.

Definition set_logs (l : list LogEntry) (w : world) : world :=
  {| isOpen := isOpen w; isEnabled := isEnabled w; logs := l;
     unlistenFn := unlistenFn w; pollInterval := pollInterval w;
     timers := timers w; handlers := handlers w; awaiting := awaiting w;
     next := next w |}.

Definition set_isEnabled (b : bool) (w : world) : world :=
  {| isOpen := isOpen w; isEnabled := b; logs := logs w;
     unlistenFn := unlistenFn w; pollInterval := pollInterval w;
     timers := timers w; handlers := handlers w; awaiting := awaiting w;
     next := next w |}.

Definition set_isOpen (b : bool) (w : world) : world :=
  {| isOpen := b; isEnabled := isEnabled w; logs := logs w;
     unlistenFn := unlistenFn w; pollInterval := pollInterval w;
     timers := timers w; handlers := handlers w; awaiting := awaiting w;
     next := next w |}.

(** [newLogs.slice(-MAX_LOGS)] *)
Definition last_n (n : nat) (l : list LogEntry) : list LogEntry :=
  skipn (length l - n) l.

Definition addLog (log : LogEntry) (w : world) : world :=
  let newLogs := (logs w ++ [log])%list in
  if Nat.ltb MAX_LOGS (length newLogs)
  then set_logs (last_n MAX_LOGS newLogs) w
  else set_logs newLogs w.

(** Truthiness of [pollInterval]. *)
Definition polling (w : world) : bool :=
  match pollInterval w with
  | Some i => negb (i =? 0)%Z
  | None => false
  end.

Definition startPolling (w : world) : world :=
  if polling w then w
  else
    let interval := Z.pos (next w) in
    {| isOpen := isOpen w; isEnabled := isEnabled w; logs := logs w;
       unlistenFn := unlistenFn w; pollInterval := Some interval;
       timers := interval :: timers w; handlers := handlers w;
       awaiting := awaiting w; next := Pos.succ (next w) |}.

Definition stopPolling (w : world) : world :=
  match pollInterval w with
  | Some i =>
      if (i =? 0)%Z then w
      else
        {| isOpen := isOpen w; isEnabled := isEnabled w; logs := logs w;
           unlistenFn := unlistenFn w; pollInterval := None;
           timers := filter (fun t => negb (t =? i)%Z) (timers w);
           handlers := handlers w; awaiting := awaiting w; next := next w |}
  | None => w
  end.

(** [startListening] up to its [await]: past both guards it calls [listen]. *)
Definition startListening (isTauri : bool) (w : world) : world :=
  if negb isTauri then w
  else match unlistenFn w with
       | Some _ => w
       | None =>
           {| isOpen := isOpen w; isEnabled := isEnabled w; logs := logs w;
              unlistenFn := None; pollInterval := pollInterval w;
              timers := timers w; handlers := handlers w;
              awaiting := S (awaiting w); next := next w |}
       end.

(** A pending [listen] resolves: the handler is registered and its
    unlisten function stored. *)
Definition listen_resolved (w : world) : world :=
  {| isOpen := isOpen w; isEnabled := isEnabled w; logs := logs w;
     unlistenFn := Some (next w); pollInterval := pollInterval w;
     timers := timers w; handlers := next w :: handlers w;
     awaiting := pred (awaiting w); next := Pos.succ (next w) |}.

(** A pending [listen] rejects: the error is logged, nothing is stored. *)
Definition listen_rejected (w : world) : world :=
  {| isOpen := isOpen w; isEnabled := isEnabled w; logs := logs w;
     unlistenFn := unlistenFn w; pollInterval := pollInterval w;
     timers := timers w; handlers := handlers w;
     awaiting := pred (awaiting w); next := next w |}.

Definition stopListening (w : world) : world :=
  match unlistenFn w with
  | Some h =>
      {| isOpen := isOpen w; isEnabled := isEnabled w; logs := logs w;
         unlistenFn := None; pollInterval := pollInterval w;
         timers := timers w;
         handlers := filter (fun x => negb (Pos.eqb x h)) (handlers w);
         awaiting := awaiting w; next := next w |}
  | None => w
  end.

(** A [log-event] reaches every registered handler, each calls [addLog]. *)
Definition deliver (e : LogEntry) (w : world) : world :=
  fold_left (fun acc _ => addLog e acc) (handlers w) w.

(** The atomic steps the store's actions are made of, between awaits.
    [startPolling] is reached from [enable] and [checkEnabled], on their
    Web branch only. *)
Inductive step (isTauri : bool) : world -> world -> Prop :=
| step_startPolling w :
    isTauri = false -> step isTauri w (startPolling w)
| step_stopPolling w : step isTauri w (stopPolling w)
| step_startListening w : step isTauri w (startListening isTauri w)
| step_listen_resolved w :
    0 < awaiting w -> step isTauri w (listen_resolved w)
| step_listen_rejected w :
    0 < awaiting w -> step isTauri w (listen_rejected w)
| step_stopListening w : step isTauri w (stopListening w)
| step_set_isEnabled b w : step isTauri w (set_isEnabled b w)
| step_set_isOpen b w : step isTauri w (set_isOpen b w)
| step_set_logs l w : step isTauri w (set_logs l w)
| step_deliver e w : 0 < length (handlers w) -> step isTauri w (deliver e w).

Inductive reachable (isTauri : bool) : world -> Prop :=
| reach_initial : reachable isTauri initial
| reach_step w w' :
    reachable isTauri w -> step isTauri w w' -> reachable isTauri w'.

(** The answers one run of an action gets from outside. *)
Inductive answer (A : Type) : Type :=
| Ok (a : A)
| Failed.
Arguments Ok {A} a.
Arguments Failed {A}.

(** [loadLogs] *)
Definition loadLogs (r : answer (list LogEntry)) (w : world) : world :=
  match r with
  | Ok l => set_logs l w
  | Failed => w
  end.

(** [startListening] run to completion, [listened] being how [listen]
    settles if it is called. *)
Definition startListening_run (isTauri listened : bool) (w : world) : world :=
  let w1 := startListening isTauri w in
  if Nat.ltb (awaiting w) (awaiting w1)
  then if listened then listen_resolved w1 else listen_rejected w1
  else w1.

(** [enable], run without interleaving. *)
Definition enable (isTauri : bool) (r_enable : answer unit)
    (r_logs : answer (list LogEntry)) (listened : bool) (w : world) : world :=
  match r_enable with
  | Failed => w
  | Ok _ =>
      let w1 := loadLogs r_logs (set_isEnabled true w) in
      if isTauri then startListening_run isTauri listened w1
      else startPolling w1
  end.

(** [checkEnabled], run without interleaving. *)
Definition checkEnabled (isTauri : bool) (r_enabled : answer bool)
    (r_logs : answer (list LogEntry)) (listened : bool) (w : world) : world :=
  match r_enabled with
  | Failed => w
  | Ok b =>
      let w1 := set_isEnabled b w in
      if b then
        let w2 := loadLogs r_logs w1 in
        if isTauri then startListening_run isTauri listened w2
        else startPolling w2
      else w1
  end.

(** An entry of the scenarios. *)
Definition sample_entry : LogEntry :=
  {| id := 7; timestamp := 50; level := INFO;
     target := "proxy"; message := "hello" |}.

(** [disable], run without interleaving. *)
Definition disable (isTauri : bool) (r_disable : answer unit) (w : world)
  : world :=
  match r_disable with
  | Failed => w
  | Ok _ =>
      set_isEnabled false
        (if isTauri then stopListening w else stopPolling w)
  end.

(** What holds in every state the store can reach: in a Tauri host no
    timer exists, in a browser no handler and no pending [listen]; and the
    timers that exist are exactly the one [pollInterval] names. *)
Definition subscription_inv (isTauri : bool) (w : world) : Prop :=
  (isTauri = true -> timers w = [] /\ pollInterval w = None)
  /\ (isTauri = false ->
        handlers w = [] /\ awaiting w = 0 /\ unlistenFn w = None)
  /\ match pollInterval w with
     | Some i => timers w = [i] /\ (0 < i)%Z
     | None => timers w = []
     end.

End DebugConsole.

(* ================================================================== *)
(** * Path templates, read as segments *)
(* ================================================================== *)

(** The registry stores a path template as a string.  To speak about its
    [:key] tokens we read it as a sequence of literal pieces and
    parameters; [render] gives the string back. *)
Module Template.
Import Js.

Inductive seg : Type :=
| Lit (s : string)
| Param (name : string).

Definition render_seg (sg : seg) : string :=
  match sg with
  | Lit s => s
  | Param p => ":" ++ p
  end.

Fixpoint render (t : list seg) : string :=
  match t with
  | [] => ""
  | sg :: t' => render_seg sg ++ render t'
  end.

Fixpoint params (t : list seg) : list string :=
  match t with
  | [] => []
  | Lit _ :: t' => params t'
  | Param p :: t' => p :: params t'
  end.

(** [free_of c s]: the character [c] does not occur in [s]. *)
Fixpoint free_of (c : ascii) (s : string) : bool :=
  match s with
  | EmptyString => true
  | String d s' => negb (Ascii.eqb d c) && free_of c s'
  end.

Definition starts_with_slash (s : string) : bool :=
  match s with
  | String c _ => Ascii.eqb c "/"
  | EmptyString => false
  end.

(** Literal pieces carry no colon, a parameter name carries none either and
    runs up to the next slash or to the end of the template. *)
Fixpoint well_formed (t : list seg) : bool :=
  match t with
  | [] => true
  | Lit s :: t' => free_of ":" s && well_formed t'
  | Param p :: t' =>
      free_of ":" p
      && match t' with
         | [] => true
         | Lit s :: _ => starts_with_slash s
         | Param _ :: _ => false
         end
      && well_formed t'
  end.

(** Reading a template string: a colon opens a parameter, whose name runs
    up to the next slash or to the end. *)
Fixpoint scan (s cur : string) (in_param : bool) : list seg :=
  match s with
  | EmptyString => [if in_param then Param cur else Lit cur]
  | String c s' =>
      if in_param then
        if Ascii.eqb c "/" then Param cur :: scan s' (String c "") false
        else scan s' (cur ++ String c "") true
      else
        if Ascii.eqb c ":" then Lit cur :: scan s' "" true
        else scan s' (cur ++ String c "") false
  end.

Definition parse (template : string) : list seg := scan template "" false.

Fixpoint nodupb (l : list string) : bool :=
  match l with
  | [] => true
  | x :: l' => negb (existsb (String.eqb x) l') && nodupb l'
  end.

(** A template that reads as well-formed segments and names no parameter
    twice. *)
Definition template_ok (template : string) : bool :=
  well_formed (parse template) && nodupb (params (parse template)).

(** No key of the arguments is a proper prefix of a parameter name. *)
Definition compatible (ks ps : list string) : bool :=
  forallb (fun k =>
    forallb (fun p => negb (String.prefix k p) || String.eqb k p) ps) ks.

Definition mem (k : string) (l : list string) : bool :=
  existsb (String.eqb k) l.

(** The template with the parameters named by [ks] filled in from [args]. *)
Definition fill (args : obj) (ks : list string) (sg : seg) : seg :=
  match sg with
  | Param p =>
      if mem p ks then Lit (encodeURIComponent (ToString (get args p)))
      else sg
  | Lit _ => sg
  end.

Definition instantiate (args : obj) (t : list seg) : list seg :=
  map (fill args (keys args)) t.

(** The arguments left after deleting the keys that name a parameter. *)
Definition remaining (args : obj) (t : list seg) : obj :=
  fold_left delete (filter (fun k => mem k (params t)) (keys args)) args.

End Template.

(* ================================================================== *)
(** * The monitor's pull arguments, paging and teardown
      (components/proxy/ProxyMonitor.tsx) *)
(* ================================================================== *)

Module MonitorControls.
Import Js Monitor.

(** [searchFilter === '__ERROR__'] *)
Definition errorsOnly (searchFilter : string) : bool :=
  String.eqb searchFilter "__ERROR__".

(** The filter text [loadData] sends: the search text, unless it is the
    errors-only marker, joined to the account filter by a space. *)
Definition actualFilter (searchFilter accountEmailFilter : string) : string :=
  let baseFilter := if errorsOnly searchFilter then "" else searchFilter in
  if String.eqb accountEmailFilter "" then baseFilter
  else if String.eqb baseFilter "" then accountEmailFilter
  else baseFilter ++ " " ++ accountEmailFilter.

(** The arguments of [get_proxy_logs_filtered]. *)
Definition history_args (page pageSize : Z)
    (searchFilter accountEmailFilter : string) : obj :=
  [ ("filter", JStr (actualFilter searchFilter accountEmailFilter));
    ("errorsOnly", JBool (errorsOnly searchFilter));
    ("limit", JNum pageSize);
    ("offset", JNum ((page - 1) * pageSize)) ].

(** [Math.ceil(a / b)] on integers, for a positive [b]. *)
Definition ceil_div (a b : Z) : Z := (- ((- a) / b))%Z.

Definition totalPages (totalCount pageSize : Z) : Z :=
  ceil_div totalCount pageSize.

Definition pageStart (totalCount currentPage pageSize : Z) : Z :=
  if (totalCount =? 0)%Z then 0%Z else ((currentPage - 1) * pageSize + 1)%Z.

Definition pageEnd (totalCount currentPage pageSize : Z) : Z :=
  if (totalCount =? 0)%Z then 0%Z
  else Z.min (currentPage * pageSize) totalCount.

(** [goToPage]: the page it loads, if it loads one. *)
Definition goToPage (page currentPage totalCount pageSize : Z) : option Z :=
  if ((1 <=? page) && (page <=? totalPages totalCount pageSize)
      && negb (page =? currentPage))%Z%bool
  then Some page else None.

(** The offset [loadData] asks for on a page. *)
Definition offset_of (page pageSize : Z) : Z := ((page - 1) * pageSize)%Z.

Definition no_stats : ProxyStats :=
  {| total_requests := 0; success_count := 0; error_count := 0 |}.

(** [executeClearLogs], given how [clear_proxy_logs] settles. *)
Definition executeClearLogs (r : reply unit) (s : state) : state :=
  match r with
  | Resolved _ => setTotalCount 0 (setStats no_stats (setLogs [] s))
  | Rejected e => console_error ("Failed to clear logs " ++ e) s
  end.

Definition setMounted (b : bool) (s : state) : state :=
  {| logs := logs s; stats := stats s; totalCount := totalCount s;
     isLoggingEnabled := isLoggingEnabled s; loading := loading s;
     pendingLogs := pendingLogs s; listenerSetup := listenerSetup s;
     isMounted := b; flushArmed := flushArmed s;
     console := console s |}.

(** The cleanup of the mount effect: the refs are reset and the pending
    timeout is cleared. *)
Definition cleanup (s : state) : state :=
  setArmed false (setListenerSetup false (setMounted false s)).

End MonitorControls.

(* ================================================================== *)
(** * Logging in and out (AdminAuthGuard.handleLogin, handleLogout) *)
(* ================================================================== *)

Module Login.
Import Js Session Transport.

Inductive login_error : Type := InvalidKey | NetworkError.

(** What [handleLogin] leaves: the browser state, whether it reloads the
    page, and the error it sets, if it sets one. *)
Record login_result : Type := {
  after : window;
  reloads : bool;
  shown : option login_error
}.

Definition set_session (k : option string) (w : window) : window :=
  {| _lastAuthErrorTime := _lastAuthErrorTime w;
     sessionKey := k; localKey := localKey w;
     listeners := listeners w; isAuthenticated := isAuthenticated w;
     signals := signals w; clears := clears w |}.

Definition set_local (k : option string) (w : window) : window :=
  {| _lastAuthErrorTime := _lastAuthErrorTime w;
     sessionKey := sessionKey w; localKey := k;
     listeners := listeners w; isAuthenticated := isAuthenticated w;
     signals := signals w; clears := clears w |}.

Definition set_authenticated (b : bool) (w : window) : window :=
  {| _lastAuthErrorTime := _lastAuthErrorTime w;
     sessionKey := sessionKey w; localKey := localKey w;
     listeners := listeners w; isAuthenticated := b;
     signals := signals w; clears := clears w |}.

(** [handleLogin], with [trimmedKey] the trimmed input and [reply] the
    answer to its [fetch('/api/accounts')]. *)
Definition handleLogin (trimmedKey : string) (reply : fetch_reply)
    (w : window) : login_result :=
  if String.eqb trimmedKey "" then
    {| after := w; reloads := false; shown := None |}
  else
    let w1 := set_session (Some trimmedKey) w in
    match reply with
    | NetworkFailure _ =>
        {| after := set_session None w1; reloads := false;
           shown := Some NetworkError |}
    | Response r =>
        if (ok r || (status r =? 204)%Z)%bool then
          {| after := set_authenticated true (set_local None w1);
             reloads := true; shown := None |}
        else if (status r =? 401)%Z then
          {| after := set_session None w1; reloads := false;
             shown := Some InvalidKey |}
        else
          {| after := set_authenticated true w1;
             reloads := true; shown := None |}
    end.

(** [window.location.reload()]: a new page over the same storage, on which
    the guard mounts again. *)
Definition reload (w : window) : window :=
  AdminAuthGuard_mount false (fresh_window false (sessionKey w) (localKey w)).

(** [handleLogout], up to its reload. *)
Definition handleLogout (w : window) : window :=
  set_local None (set_session None w).

End Login.

(* ================================================================== *)
(** * The account service (services/accountService.ts) and the argument
      objects of some callers of [request] *)
(* ================================================================== *)

Module Services.
Import Js Dispatcher Transport.

(** What [listAccounts] makes of the response. *)
Definition accounts_of (response : jsval) : jsval :=
  match response with
  | JObj fields =>
      match get fields "accounts" with
      | JArr items => JArr items
      | _ => response
      end
  | _ => if truthy response then response else JArr []
  end.

Definition listAccounts (settled : outcome) : outcome :=
  match settled with
  | Returns v => Returns (accounts_of v)
  | Rejects e => Rejects e
  end.

(** [{ id: editingToken.id, request: {...} }] of [handleUpdate]. *)
Definition update_user_token_args (id : string) (fields : obj) : obj :=
  [("id", JStr id); ("request", JObj fields)].

(** [{ accountId, versionId }] of [deleteDeviceVersion] and
    [restoreDeviceVersion]. *)
Definition device_version_args (accountId versionId : string) : obj :=
  [("accountId", JStr accountId); ("versionId", JStr versionId)].

End Services.

(* ================================================================== *)
(** * The configuration store (stores/useConfigStore.ts) *)
(* ================================================================== *)

Module ConfigStore.

(** The configuration: the three settings the store reads, and the rest of
    the object, which it only copies. *)
Record AppConfig : Type := {
  theme : string;
  language : string;
  hidden_menu_items : option (list string);
  other_settings : Js.obj
}.

(** The store, with the [localStorage] entry it persists its flag in. *)
Record ConfigState : Type := {
  config : option AppConfig;
  loading : bool;
  error : option string;
  showAllQuotas : bool;
  stored_show_all : option string   (* antigravity_show_all_quotas *)
}.

(** The store as created over a given [localStorage]. *)
Definition create (stored : option string) : ConfigState :=
  {| config := None; loading := false; error := None;
     showAllQuotas := match stored with
                      | Some s => String.eqb s "true"
                      | None => false
                      end;
     stored_show_all := stored |}.

Definition toggleShowAllQuotas (st : ConfigState) : ConfigState :=
  let next := negb (showAllQuotas st) in
  {| config := config st; loading := loading st; error := error st;
     showAllQuotas := next;
     stored_show_all := Some (if next then "true" else "false") |}.

Fixpoint toggles (n : nat) (st : ConfigState) : ConfigState :=
  match n with
  | O => st
  | S n' => toggles n' (toggleShowAllQuotas st)
  end.

(** How [configService.saveConfig] settles. *)
Inductive saved : Type :=
| Saved
| SaveFailed (msg : string).

(** [saveConfig]: the store it leaves and whether its promise rejects. *)
Definition saveConfig (c : AppConfig) (silent : bool) (r : saved)
    (st : ConfigState) : ConfigState * option string :=
  let loading0 := if silent then loading st else true in
  let error0 := if silent then error st else None in
  match r with
  | Saved =>
      ({| config := Some c; loading := false; error := error0;
          showAllQuotas := showAllQuotas st;
          stored_show_all := stored_show_all st |}, None)
  | SaveFailed msg =>
      ({| config := config st; loading := false; error := Some msg;
          showAllQuotas := showAllQuotas st;
          stored_show_all := stored_show_all st |}, Some msg)
  end.

(** [config.hidden_menu_items || []] *)
Definition hiddenItems (c : AppConfig) : list string :=
  match hidden_menu_items c with
  | Some l => l
  | None => []
  end.

Definition includes_item (path : string) (l : list string) : bool :=
  existsb (String.eqb path) l.

Definition toggleMenuItem (path : string) (r : saved) (st : ConfigState)
  : ConfigState * option string :=
  match config st with
  | None => (st, None)
  | Some c =>
      let isHidden := includes_item path (hiddenItems c) in
      let newHiddenItems :=
        if isHidden
        then filter (fun item => negb (String.eqb item path)) (hiddenItems c)
        else (hiddenItems c ++ [path])%list in
      saveConfig {| theme := theme c; language := language c;
                    hidden_menu_items := Some newHiddenItems;
                    other_settings := other_settings c |} true r st
  end.

Definition isMenuItemHidden (path : string) (st : ConfigState) : bool :=
  match config st with
  | None => false
  | Some c => includes_item path (hiddenItems c)
  end.

End ConfigStore.

(* ================================================================== *)
(** * The accounts page (pages/Accounts.tsx) *)
(* ================================================================== *)

Module AccountsPage.
Import Js.

Record Account : Type := {
  id : string;
  email : string;
  subscription_tier : option string   (* quota?.subscription_tier *)
}.

Inductive FilterType : Type := all | pro | ultra | free.
Inductive ViewMode : Type := list_mode | grid_mode.

Section WithLowerCase.

(** [String.prototype.toLowerCase], left to the platform. *)
Variable toLowerCase : string -> string.

Definition searchedAccounts (searchQuery : string) (accounts : list Account)
  : list Account :=
  if String.eqb searchQuery "" then accounts
  else filter (fun a => includes (toLowerCase (email a))
                          (toLowerCase searchQuery)) accounts.

(** [a.quota?.subscription_tier?.toLowerCase().includes(word)] *)
Definition tier_has (word : string) (a : Account) : bool :=
  match subscription_tier a with
  | Some tier => includes (toLowerCase tier) word
  | None => false
  end.

(** [tier && !tier.includes("pro") && !tier.includes("ultra")] *)
Definition is_free (a : Account) : bool :=
  match subscription_tier a with
  | Some t =>
      let tier := toLowerCase t in
      negb (String.eqb tier "") && negb (includes tier "pro")
      && negb (includes tier "ultra")
  | None => false
  end.

Record counts : Type := {
  count_all : nat; count_pro : nat; count_ultra : nat; count_free : nat
}.

Definition filterCounts (searched : list Account) : counts :=
  {| count_all := length searched;
     count_pro := length (filter (tier_has "pro") searched);
     count_ultra := length (filter (tier_has "ultra") searched);
     count_free := length (filter is_free searched) |}.

Definition filteredAccounts (f : FilterType) (searched : list Account)
  : list Account :=
  match f with
  | all => searched
  | pro => filter (tier_has "pro") searched
  | ultra => filter (tier_has "ultra") searched
  | free => filter is_free searched
  end.

End WithLowerCase.

(** The page size.  [None] stands for [null], [NaN] or an absent setting;
    the container is measured in whole pixels. *)
Definition ITEMS_PER_PAGE (localPageSize config_page_size : option Z)
    (width height : Z) (viewMode : ViewMode) : Z :=
  let positive (o : option Z) :=
    match o with
    | Some n => if (0 <? n)%Z then Some n else None
    | None => None
    end in
  match positive localPageSize with
  | Some n => n
  | None =>
      match positive config_page_size with
      | Some n => n
      | None =>
          if (height =? 0)%Z then
            match viewMode with grid_mode => 6%Z | list_mode => 8%Z end
          else
            match viewMode with
            | list_mode => Z.max 10 ((height - 36) / 72)
            | grid_mode =>
                let cols :=
                  if (1200 <=? width)%Z then 4%Z
                  else if (900 <=? width)%Z then 3%Z
                  else if (600 <=? width)%Z then 2%Z
                  else 1%Z in
                let rows := Z.max 1 ((height + 16) / (180 + 16)) in
                (cols * rows)%Z
            end
      end
  end.

(** [l.slice(start, end)] for integer bounds: a negative bound counts from
    the end. *)
Definition slice {A : Type} (l : list A) (start stop : Z) : list A :=
  let len := Z.of_nat (length l) in
  let clamp (i : Z) :=
    if (i <? 0)%Z then Z.max (len + i) 0 else Z.min i len in
  let from := clamp start in
  let to := clamp stop in
  if (to <=? from)%Z then []
  else firstn (Z.to_nat (to - from)) (skipn (Z.to_nat from) l).

Definition paginatedAccounts (currentPage itemsPerPage : Z)
    (filtered : list Account) : list Account :=
  let startIndex := ((currentPage - 1) * itemsPerPage)%Z in
  slice filtered startIndex (startIndex + itemsPerPage).

(** A [Set] of strings: its members in insertion order. *)
Definition set_has (s : list string) (x : string) : bool :=
  existsb (String.eqb x) s.

Definition set_add (s : list string) (x : string) : list string :=
  if set_has s x then s else (s ++ [x])%list.

Definition set_delete (s : list string) (x : string) : list string :=
  filter (fun y => negb (String.eqb y x)) s.

Definition handleToggleSelect (id : string) (selectedIds : list string)
  : list string :=
  if set_has selectedIds id then set_delete selectedIds id
  else set_add selectedIds id.

(** [handleToggleAll] on the ids of the current page. *)
Definition handleToggleAll (currentIds selectedIds : list string)
  : list string :=
  if forallb (set_has selectedIds) currentIds
  then fold_left set_delete currentIds selectedIds
  else fold_left set_add currentIds selectedIds.

(** ** Importing accounts *)

Inductive toast : Type :=
| InvalidFormat
| ImportSuccess (count : nat)
| ImportPartial (success fail : nat)
| ImportFail.

(** How [processImportData] ends: with a toast, or with the TypeError of
    reading [refresh_token] off a [null] entry. *)
Inductive import_end : Type :=
| Toast (t : toast)
| Throws.

(** The filter of [validEntries] on one entry; [None] when it throws. *)
Definition valid_entry (item : jsval) : option bool :=
  match item with
  | JNull | JUndefined => None
  | JObj fields =>
      match get fields "refresh_token" with
      | JStr token =>
          Some (negb (String.eqb token "") && String.prefix "1//" token)
      | _ => Some false
      end
  | _ => Some false
  end.

Fixpoint validEntries (items : list jsval) : option (list jsval) :=
  match items with
  | [] => Some []
  | item :: rest =>
      match valid_entry item, validEntries rest with
      | Some keep, Some kept => Some (if keep then item :: kept else kept)
      | _, _ => None
      end
  end.

(** A valid entry in the words of the page: an object whose
    [refresh_token] is a string that starts with [1//].  It is what
    [validEntries] is compared with. *)
Definition importable (item : jsval) : bool :=
  match item with
  | JObj fields =>
      match get fields "refresh_token" with
      | JStr token => String.prefix "1//" token
      | _ => false
      end
  | _ => false
  end.

(** The call [addAccount(entry.email || "", entry.refresh_token)]. *)
Definition call_of (entry : jsval) : jsval * jsval :=
  match entry with
  | JObj fields =>
      ((if truthy (get fields "email") then get fields "email" else JStr ""),
       get fields "refresh_token")
  | _ => (JStr "", JUndefined)
  end.

(** The loop over the valid entries: [addAccount n email token] says
    whether the [n]-th call succeeds.  It returns the calls made and the
    two counters. *)
Fixpoint import_loop (addAccount : nat -> jsval -> jsval -> bool)
    (n : nat) (entries : list jsval)
  : list (jsval * jsval) * nat * nat :=
  match entries with
  | [] => ([], 0, 0)
  | entry :: rest =>
      let '(email, token) := call_of entry in
      let ok := addAccount n email token in
      let '(calls, successCount, failCount) :=
        import_loop addAccount (S n) rest in
      ((email, token) :: calls,
       if ok then S successCount else successCount,
       if ok then failCount else S failCount)
  end.

(** [processImportData], with [parsed] what [JSON.parse(content)] gives
    ([None] when it throws): the calls of [addAccount] and the end. *)
Definition processImportData (addAccount : nat -> jsval -> jsval -> bool)
    (parsed : option jsval) : list (jsval * jsval) * import_end :=
  match parsed with
  | Some (JArr (first :: others)) =>
      match validEntries (first :: others) with
      | None => ([], Throws)
      | Some [] => ([], Toast InvalidFormat)
      | Some entries =>
          let '(calls, successCount, failCount) :=
            import_loop addAccount 0 entries in
          (calls,
           Toast (if Nat.eqb failCount 0 then ImportSuccess successCount
                  else if Nat.ltb 0 successCount
                       then ImportPartial successCount failCount
                       else ImportFail))
      end
  | _ => ([], Toast InvalidFormat)
  end.

End AccountsPage.

(* ================================================================== *)
(** * Runs of the debug console (stores/useDebugConsole.ts) *)
(* ================================================================== *)

Module ConsoleRuns.
Import DebugConsole.

(** Several entries pushed through [addLog], one after the other. *)
Definition addLogs (es : list LogEntry) (w : world) : world :=
  fold_left (fun acc e => addLog e acc) es w.

(** Two calls of [startListening] that both pass the guard before either
    [listen] has resolved, as when [checkEnabled] and [enable] overlap. *)
Definition overlapping_listens (w : world) : world :=
  listen_resolved
    (listen_resolved (startListening true (startListening true w))).

(** Every registered handler was handed out before [next]. *)
Definition handlers_fresh (w : world) : Prop :=
  Forall (fun h => (h < next w)%positive) (handlers w).

End ConsoleRuns.

(* ================================================================== *)
(** * Part II: properties *)
(* ================================================================== *)

Section Samples.
Import Js Dispatcher.

Example encode_samples :
  encodeURIComponent "a b:c/d$" = "a%20b%3Ac%2Fd%24"
  /\ ToString (JArr [JNum 1; JNull; JStr "x"]) = "1,,x"
  /\ replace "/a/:id/:id" ":id" "7" = "/a/7/:id"
  /\ URLSearchParams_toString [("a b", "1:2"); ("c", "d")] = "a+b=1%3A2&c=d".
Proof. repeat split; reflexivity. Qed.

Example delete_device_version_request :
  prepare COMMAND_MAPPING "delete_device_version"
    (Some [("accountId", JStr "a b"); ("versionId", JNum 3)]) (Some "k")
  = Fetches {| req_url := "/api/accounts/a%20b/device-versions/3";
               req_method := Some DELETE;
               req_headers := [("Content-Type", "application/json");
                               ("Authorization", "Bearer k");
                               ("x-api-key", "k")];
               req_body := None |}.
Proof. reflexivity. Qed.

Example get_proxy_logs_filtered_request :
  prepare COMMAND_MAPPING "get_proxy_logs_filtered"
    (Some [("filter", JStr ""); ("errorsOnly", JBool false);
           ("limit", JNum 100); ("offset", JNum 0)]) None
  = Fetches {| req_url := "/api/logs?errorsOnly=false&limit=100&offset=0";
               req_method := Some GET;
               req_headers := [("Content-Type", "application/json")];
               req_body := None |}.
Proof. reflexivity. Qed.

End Samples.

Section StringFacts.
Import Js Template.

Lemma append_nil_r (s : string) : s ++ "" = s.
Proof. induction s as [|c s IH]; simpl; [reflexivity | now rewrite IH]. Qed.

Lemma append_assoc (a b c : string) : (a ++ b) ++ c = a ++ (b ++ c).
Proof. induction a as [|x a IH]; simpl; [reflexivity | now rewrite IH]. Qed.

Lemma prefix_cons (c d : ascii) (p s : string) :
  String.prefix (String c p) (String d s)
  = Ascii.eqb c d && String.prefix p s.
Proof.
  simpl. destruct (ascii_dec c d) as [->|Hne].
  - now rewrite Ascii.eqb_refl.
  - apply Ascii.eqb_neq in Hne. now rewrite Hne.
Qed.

Lemma prefix_nil (s : string) : String.prefix "" s = true.
Proof. destruct s; reflexivity. Qed.

Lemma prefix_app (x b : string) : String.prefix x (x ++ b) = true.
Proof.
  induction x as [|c x IH]; [apply prefix_nil|].
  change (String c x ++ b) with (String c (x ++ b)).
  now rewrite prefix_cons, Ascii.eqb_refl, IH.
Qed.

Lemma drop_app (x b : string) : drop (String.length x) (x ++ b) = b.
Proof. induction x as [|c x IH]; simpl; [now destruct b | exact IH]. Qed.

Lemma free_of_app (c : ascii) (a b : string) :
  free_of c (a ++ b) = free_of c a && free_of c b.
Proof.
  induction a as [|d a IH]; simpl; [reflexivity|].
  now rewrite IH, andb_assoc.
Qed.

(** A pattern that starts with [c] is not found inside text free of [c]. *)
Lemma includes_skip (c : ascii) (k a u : string) :
  free_of c a = true ->
  includes (a ++ u) (String c k) = includes u (String c k).
Proof.
  induction a as [|d a IH]; simpl append; intros Hf; [reflexivity|].
  simpl in Hf. apply andb_true_iff in Hf as [Hd Ha].
  cbn [includes]. rewrite prefix_cons.
  rewrite Ascii.eqb_sym. apply negb_true_iff in Hd. rewrite Hd. simpl.
  now apply IH.
Qed.

Lemma replace_skip (c : ascii) (k a u r : string) :
  free_of c a = true ->
  replace (a ++ u) (String c k) r = a ++ replace u (String c k) r.
Proof.
  induction a as [|d a IH]; simpl append; intros Hf; [reflexivity|].
  simpl in Hf. apply andb_true_iff in Hf as [Hd Ha].
  cbn [replace]. rewrite prefix_cons.
  rewrite Ascii.eqb_sym. apply negb_true_iff in Hd. rewrite Hd. simpl.
  now rewrite IH.
Qed.

Lemma includes_eq (s p : string) :
  includes s p
  = if String.prefix p s then true
    else match s with
         | EmptyString => false
         | String _ s' => includes s' p
         end.
Proof. destruct s; reflexivity. Qed.

Lemma replace_eq (s p r : string) :
  replace s p r
  = if String.prefix p s then r ++ drop (String.length p) s
    else match s with
         | EmptyString => EmptyString
         | String c s' => String c (replace s' p r)
         end.
Proof. destruct s; reflexivity. Qed.

Lemma includes_here (x b : string) : includes (x ++ b) x = true.
Proof. now rewrite includes_eq, prefix_app. Qed.

Lemma includes_later (a s p : string) :
  includes s p = true -> includes (a ++ s) p = true.
Proof.
  induction a as [|d a IH]; simpl append; intros H; [exact H|].
  cbn [includes]. rewrite (IH H). now destruct (String.prefix p _).
Qed.

Lemma includes_mid (a x b : string) : includes (a ++ x ++ b) x = true.
Proof. apply includes_later, includes_here. Qed.

(** A slash-free key that matches at a parameter is a prefix of its name. *)
Lemma prefix_within_param (k p rest : string) :
  free_of "/" k = true ->
  rest = "" \/ starts_with_slash rest = true ->
  String.prefix k (p ++ rest) = true -> String.prefix k p = true.
Proof.
  revert p. induction k as [|c k IH]; intros p Hk Hrest Hp.
  - apply prefix_nil.
  - simpl in Hk. apply andb_true_iff in Hk as [Hc Hk].
    destruct p as [|d p].
    + simpl append in Hp. destruct Hrest as [-> | Hs]; [discriminate Hp|].
      destruct rest as [|e rest]; [discriminate Hs|].
      rewrite prefix_cons in Hp. apply andb_true_iff in Hp as [Hce _].
      simpl in Hs. apply Ascii.eqb_eq in Hce, Hs. subst.
      now rewrite Ascii.eqb_refl in Hc.
    + change (String d p ++ rest) with (String d (p ++ rest)) in Hp.
      rewrite prefix_cons in Hp |- *.
      apply andb_true_iff in Hp as [Hcd Hp]. rewrite Hcd. simpl.
      now apply IH.
Qed.

Lemma render_scan (s : string) :
  forall (cur : string) (in_param : bool),
  render (scan s cur in_param)
  = (if in_param then ":" ++ cur else cur) ++ s.
Proof.
  induction s as [|c s IH]; intros cur [|]; cbn [scan].
  - cbn [render render_seg]. now rewrite !append_nil_r.
  - cbn [render render_seg]. now rewrite !append_nil_r.
  - destruct (Ascii.eqb_spec c "/") as [->|_].
    + cbn [render render_seg]. now rewrite IH.
    + rewrite IH. simpl. now rewrite append_assoc.
  - destruct (Ascii.eqb_spec c ":") as [->|_].
    + cbn [render render_seg]. now rewrite IH.
    + rewrite IH. now rewrite append_assoc.
Qed.

Lemma render_parse (template : string) : render (parse template) = template.
Proof. unfold parse. now rewrite render_scan. Qed.

Lemma nodupb_NoDup (l : list string) : nodupb l = true -> NoDup l.
Proof.
  induction l as [|x l IH]; simpl; intros H; [constructor|].
  apply andb_true_iff in H as [Hx Hl]. constructor; [|now apply IH].
  intros Hin. apply negb_true_iff in Hx.
  assert (Ht : existsb (String.eqb x) l = true).
  { apply existsb_exists. exists x. split; [exact Hin|].
    apply String.eqb_refl. }
  congruence.
Qed.

End StringFacts.

Section PathResolution.
Import Js Dispatcher Template.

Variable args : obj.

Lemma mem_In (k : string) (l : list string) : mem k l = true <-> In k l.
Proof.
  unfold mem. rewrite existsb_exists. split.
  - intros (x & Hx & He). apply String.eqb_eq in He. now subst.
  - intros H. exists k. split; [exact H | apply String.eqb_refl].
Qed.

Lemma fill_absent (k : string) (t : list seg) :
  ~ In k (params t) -> map (fill args [k]) t = t.
Proof.
  induction t as [|[s|p] t IH]; simpl; intros Hn; [reflexivity| |].
  - now rewrite IH.
  - rewrite IH by tauto. rewrite orb_false_r.
    destruct (String.eqb_spec p k) as [->|_]; [tauto | reflexivity].
Qed.

Lemma render_tail_shape (p : string) (t : list seg) :
  well_formed (Param p :: t) = true ->
  render t = "" \/ starts_with_slash (render t) = true.
Proof.
  simpl. intros H. apply andb_true_iff in H as [H _].
  apply andb_true_iff in H as [_ H].
  destruct t as [|[s|q] t]; [now left | right | discriminate].
  destruct s as [|c s]; [discriminate | exact H].
Qed.

(** One turn of the substitution loop on a well-formed template: the
    placeholder is found exactly when the key names a parameter, and then
    that parameter, and nothing else, is replaced. *)
Lemma step_on_template (k : string) (t : list seg) :
  well_formed t = true ->
  NoDup (params t) ->
  free_of "/" k = true ->
  (forall p, In p (params t) -> String.prefix k p = true -> k = p) ->
  includes (render t) (String ":" k) = mem k (params t)
  /\ replace (render t) (String ":" k)
       (encodeURIComponent (ToString (get args k)))
     = render (map (fill args [k]) t).
Proof.
  intros Hwf Hnd Hk Hcompat.
  induction t as [|[s|p] t IH].
  - split; reflexivity.
  - simpl in Hwf. apply andb_true_iff in Hwf as [Hs Hwf].
    destruct (IH Hwf Hnd Hcompat) as [IHi IHr].
    cbn [render render_seg map fill params]. split.
    + now rewrite includes_skip.
    + now rewrite replace_skip, IHr.
  - pose proof (render_tail_shape _ _ Hwf) as Hshape.
    simpl in Hwf. apply andb_true_iff in Hwf as [Hwf1 Hwf].
    apply andb_true_iff in Hwf1 as [Hp _].
    cbn [params] in Hnd, Hcompat. inversion Hnd as [|? ? Hnotin Hnd']; subst.
    destruct (IH Hwf Hnd' (fun q Hq => Hcompat q (or_intror Hq)))
      as [IHi IHr].
    cbn [render render_seg]. simpl append.
    rewrite includes_eq, replace_eq, prefix_cons, Ascii.eqb_refl. simpl andb.
    destruct (String.eqb_spec k p) as [->|Hne].
    + rewrite prefix_app. split.
      * cbn [params mem existsb]. now rewrite String.eqb_refl.
      * cbn [String.length drop]. rewrite drop_app.
        cbn [map fill mem existsb]. rewrite String.eqb_refl. simpl orb.
        cbn [render render_seg]. now rewrite fill_absent.
    + assert (Hpre : String.prefix k (p ++ render t) = false).
      { destruct (String.prefix k (p ++ render t)) eqn:E; [|reflexivity].
        exfalso. apply Hne, (Hcompat p (or_introl eq_refl)).
        now apply prefix_within_param with (rest := render t). }
      rewrite Hpre. split.
      * rewrite includes_skip by exact Hp. rewrite IHi.
        cbn [params mem existsb].
        destruct (String.eqb_spec k p); [contradiction | reflexivity].
      * rewrite replace_skip by exact Hp. rewrite IHr.
        cbn [map fill mem existsb]. rewrite orb_false_r.
        destruct (String.eqb_spec p k) as [E|_]; [now symmetry in E|].
        reflexivity.
Qed.

Lemma percent_colon_free (c : ascii) : free_of ":" (percent c) = true.
Proof. destruct c as [[] [] [] [] [] [] [] []]; reflexivity. Qed.

Lemma encodeURIComponent_colon_free (s : string) :
  free_of ":" (encodeURIComponent s) = true.
Proof.
  induction s as [|c s IH]; [reflexivity|].
  cbn [encodeURIComponent]. rewrite free_of_app, IH, andb_true_r.
  destruct (uri_unreserved c) eqn:E; [|apply percent_colon_free].
  simpl. rewrite andb_true_r. apply negb_true_iff, Ascii.eqb_neq.
  intros ->. discriminate E.
Qed.

Lemma form_encode_colon_free (s : string) :
  free_of ":" (form_encode s) = true.
Proof.
  induction s as [|c s IH]; [reflexivity|].
  cbn [form_encode]. rewrite free_of_app, IH, andb_true_r.
  destruct c as [[] [] [] [] [] [] [] []]; reflexivity.
Qed.

Lemma params_fill (k : string) (t : list seg) :
  params (map (fill args [k]) t)
  = filter (fun p => negb (String.eqb p k)) (params t).
Proof.
  induction t as [|[s|p] t IH]; simpl; [reflexivity | exact IH |].
  rewrite orb_false_r.
  destruct (String.eqb p k); simpl; [exact IH | now rewrite IH].
Qed.

Lemma well_formed_fill (k : string) (t : list seg) :
  well_formed t = true -> well_formed (map (fill args [k]) t) = true.
Proof.
  induction t as [|[s|p] t IH]; intros Hwf; [reflexivity| |].
  - simpl in Hwf |- *. apply andb_true_iff in Hwf as [Hs Hwf].
    now rewrite Hs, IH.
  - simpl in Hwf. apply andb_true_iff in Hwf as [Hwf1 Hwf].
    apply andb_true_iff in Hwf1 as [Hp Hnext].
    cbn [map fill mem existsb]. rewrite orb_false_r.
    destruct (String.eqb p k).
    + cbn [well_formed]. now rewrite encodeURIComponent_colon_free, IH.
    + cbn [well_formed]. rewrite Hp, (IH Hwf), andb_true_r. simpl.
      destruct t as [|[s|q] t]; [reflexivity | exact Hnext | discriminate].
Qed.

Lemma fill_nil (t : list seg) : map (fill args []) t = t.
Proof.
  induction t as [|[s|p] t IH]; simpl; [reflexivity| |]; now rewrite IH.
Qed.

Lemma fill_cons (k : string) (ks : list string) (t : list seg) :
  map (fill args ks) (map (fill args [k]) t) = map (fill args (k :: ks)) t.
Proof.
  rewrite map_map. apply map_ext. intros [s|p]; [reflexivity|].
  cbn [fill mem existsb]. rewrite orb_false_r.
  destruct (String.eqb p k); [reflexivity|]. reflexivity.
Qed.

Lemma compatible_spec (ks ps : list string) :
  compatible ks ps = true ->
  forall k p, In k ks -> In p ps -> String.prefix k p = true -> k = p.
Proof.
  unfold compatible. rewrite forallb_forall. intros H k p Hk Hp Hpre.
  specialize (H k Hk). rewrite forallb_forall in H. specialize (H p Hp).
  rewrite Hpre in H. simpl in H. now apply String.eqb_eq.
Qed.

Lemma compatible_tail (k : string) (ks ps : list string) :
  compatible (k :: ks) ps = true -> compatible ks ps = true.
Proof. unfold compatible. simpl. intros H. now apply andb_true_iff in H. Qed.

Lemma compatible_filter (f : string -> bool) (ks ps : list string) :
  compatible ks ps = true -> compatible ks (filter f ps) = true.
Proof.
  unfold compatible. rewrite !forallb_forall. intros H k Hk.
  specialize (H k Hk). rewrite forallb_forall in H |- *.
  intros p Hp. apply filter_In in Hp as [Hp _]. now apply H.
Qed.

(** The whole loop on a well-formed template. *)
Lemma resolve_fold (ks : list string) :
  forall (t : list seg) (b : obj),
  well_formed t = true ->
  NoDup (params t) ->
  NoDup ks ->
  forallb (free_of "/") ks = true ->
  compatible ks (params t) = true ->
  fold_left (subst_step args) ks (render t, b)
  = (render (map (fill args ks) t),
     fold_left delete (filter (fun k => mem k (params t)) ks) b).
Proof.
  induction ks as [|k ks IH]; intros t b Hwf Hnd Hks Hfree Hcompat.
  - simpl. now rewrite fill_nil.
  - inversion Hks as [|? ? Hnotin Hks']; subst.
    simpl in Hfree. apply andb_true_iff in Hfree as [Hk Hfree].
    destruct (step_on_template k t Hwf Hnd Hk) as [Hinc Hrep].
    { intros p Hp. apply (compatible_spec _ _ Hcompat); [now left | exact Hp]. }
    cbn [fold_left]. unfold subst_step at 2. cbn [fst snd].
    simpl append. rewrite Hinc, Hrep.
    assert (Hfilter :
      filter (fun k' => mem k' (params (map (fill args [k]) t))) ks
      = filter (fun k' => mem k' (params t)) ks).
    { apply filter_ext_in. intros k' Hk'. rewrite params_fill.
      apply eq_true_iff_eq. rewrite !mem_In, filter_In.
      split; [tauto|]. intros Hin. split; [exact Hin|].
      apply negb_true_iff, String.eqb_neq. intros ->. contradiction. }
    cbn [filter].
    destruct (mem k (params t)) eqn:Hmem.
    + rewrite IH; try assumption.
      * now rewrite fill_cons, Hfilter.
      * now apply well_formed_fill.
      * rewrite params_fill. now apply NoDup_filter.
      * rewrite params_fill. apply compatible_filter.
        now apply compatible_tail in Hcompat.
    + assert (Hsame : map (fill args [k]) t = t).
      { apply fill_absent. rewrite <- mem_In. now rewrite Hmem. }
      rewrite <- Hsame at 1. rewrite IH; try assumption.
      * now rewrite fill_cons, Hfilter.
      * now apply well_formed_fill.
      * rewrite params_fill. now apply NoDup_filter.
      * rewrite params_fill. apply compatible_filter.
        now apply compatible_tail in Hcompat.
Qed.

End PathResolution.

Section ResolvedRequests.
Import Js Dispatcher Template.

Lemma render_app (t1 t2 : list seg) :
  render (t1 ++ t2) = render t1 ++ render t2.
Proof.
  induction t1 as [|sg t1 IH]; simpl; [reflexivity|].
  now rewrite IH, append_assoc.
Qed.

Lemma render_includes_lit (x : string) (t : list seg) :
  In (Lit x) t -> includes (render t) x = true.
Proof.
  intros H. apply in_split in H as (t1 & t2 & ->).
  rewrite render_app. cbn [render render_seg]. apply includes_mid.
Qed.

Lemma keys_delete (b : obj) (k x : string) :
  In x (keys (delete b k)) <-> In x (keys b) /\ x <> k.
Proof.
  induction b as [|[k' v] b IH]; simpl; [tauto|].
  destruct (String.eqb_spec k' k) as [->|Hne]; simpl; rewrite IH.
  - split; [tauto|]. intros [[->|H] Hx]; [contradiction | tauto].
  - split; [|tauto]. intros [->|H]; [|tauto]. split; [now left | exact Hne].
Qed.

Lemma get_delete_other (b : obj) (k x : string) :
  x <> k -> get (delete b k) x = get b x.
Proof.
  intros Hx. induction b as [|[k' v] b IH]; simpl; [reflexivity|].
  destruct (String.eqb_spec k' k) as [->|Hne]; simpl.
  - destruct (String.eqb_spec k x) as [->|_]; [contradiction | exact IH].
  - now rewrite IH.
Qed.

Lemma keys_fold_delete (ks : list string) (b : obj) (x : string) :
  In x (keys (fold_left delete ks b)) <-> In x (keys b) /\ ~ In x ks.
Proof.
  revert b. induction ks as [|k ks IH]; intros b; simpl; [tauto|].
  rewrite IH, keys_delete. split.
  - intros [[Hb Hne] Hks]. split; [exact Hb|]. intros [->|H]; tauto.
  - intros [Hb Hn]. repeat split; [exact Hb | |]; intros H; apply Hn;
      [left; now symmetry | now right].
Qed.

Lemma get_fold_delete (ks : list string) (b : obj) (x : string) :
  ~ In x ks -> get (fold_left delete ks b) x = get b x.
Proof.
  revert b. induction ks as [|k ks IH]; intros b Hn; simpl; [reflexivity|].
  rewrite IH by (intros H; apply Hn; now right).
  apply get_delete_other. intros ->. apply Hn. now left.
Qed.

Lemma get_In (o : obj) (k : string) (v : jsval) :
  NoDup (keys o) -> In (k, v) o -> get o k = v.
Proof.
  induction o as [|[k' v'] o IH]; simpl; intros Hnd Hin; [contradiction|].
  inversion Hnd as [|? ? Hnotin Hnd']; subst.
  destruct Hin as [E|Hin].
  - inversion E; subst. now rewrite String.eqb_refl.
  - destruct (String.eqb_spec k' k) as [->|_]; [|now apply IH].
    exfalso. apply Hnotin. change k with (fst (k, v)). now apply in_map.
Qed.

Lemma join_colon_free (l : list string) :
  Forall (fun s => free_of ":" s = true) l -> free_of ":" (join "&" l) = true.
Proof.
  induction 1 as [|x l Hx Hl IH]; [reflexivity|].
  destruct l as [|y l]; [exact Hx|].
  change (join "&" (x :: y :: l)) with (x ++ "&" ++ join "&" (y :: l)).
  now rewrite !free_of_app, Hx, IH.
Qed.

Lemma query_string_colon_free (ps : list (string * string)) :
  free_of ":" (URLSearchParams_toString ps) = true.
Proof.
  unfold URLSearchParams_toString. apply join_colon_free.
  apply Forall_forall. intros s Hs. apply in_map_iff in Hs as ([k v] & <- & _).
  now rewrite !free_of_app, !form_encode_colon_free.
Qed.

Lemma with_query_colon_free (u : string) (a : obj) :
  free_of ":" u = true -> free_of ":" (with_query u a) = true.
Proof.
  intros Hu. unfold with_query.
  destruct (String.eqb _ ""); [exact Hu|].
  now rewrite !free_of_app, Hu, query_string_colon_free.
Qed.

(** An argument whose encoded value occurs in the path is left out of the
    query string. *)
Lemma query_pairs_skip (u : string) (ps : list string) (a : obj) :
  (forall k v, In (k, v) a -> In k ps ->
               includes u (encodeURIComponent (ToString v)) = true) ->
  forall k, In k ps -> ~ In k (map fst (query_pairs u a)).
Proof.
  induction a as [|[k' v'] a IH]; intros Hinc k Hk; simpl; [tauto|].
  assert (IH' : ~ In k (map fst (query_pairs u a))).
  { apply IH; [|exact Hk]. intros k0 v0 H0. apply Hinc. now right. }
  destruct (includes u (encodeURIComponent (ToString v'))) eqn:E;
    [exact IH'|].
  assert (Hne : k' <> k).
  { intros ->. rewrite (Hinc k v' (or_introl eq_refl) Hk) in E. discriminate. }
  destruct v'; simpl; tauto.
Qed.

Variable args : obj.
Variable t : list seg.
Hypothesis Hwf : well_formed t = true.
Hypothesis Hparams : NoDup (params t).
Hypothesis Hkeys : NoDup (keys args).
Hypothesis Hslash : forallb (free_of "/") (keys args) = true.
Hypothesis Hcompat : compatible (keys args) (params t) = true.

Lemma resolve_path_template :
  resolve_path (render t) args = (render (instantiate args t), remaining args t).
Proof. unfold resolve_path. now rewrite resolve_fold. Qed.

Lemma remaining_keys (p : string) :
  In p (keys (remaining args t)) <-> In p (keys args) /\ ~ In p (params t).
Proof.
  unfold remaining. rewrite keys_fold_delete, filter_In, mem_In. tauto.
Qed.

Lemma remaining_get (k : string) :
  ~ In k (params t) -> get (remaining args t) k = get args k.
Proof.
  intros Hk. unfold remaining. apply get_fold_delete.
  rewrite filter_In, mem_In. tauto.
Qed.

Hypothesis Hall : forall p, In p (params t) -> In p (keys args).

Lemma instantiate_colon_free : free_of ":" (render (instantiate args t)) = true.
Proof.
  unfold instantiate. clear Hparams Hcompat.
  induction t as [|[s|p] t' IH]; [reflexivity| |].
  - simpl in Hwf |- *. apply andb_true_iff in Hwf as [Hs Hwf'].
    rewrite free_of_app, Hs. apply IH; [exact Hwf' | exact Hall].
  - simpl in Hwf. apply andb_true_iff in Hwf as [_ Hwf'].
    cbn [map fill]. 
    assert (Hm : mem p (keys args) = true)
      by (apply mem_In, Hall; now left).
    rewrite Hm. cbn [render render_seg].
    rewrite free_of_app, encodeURIComponent_colon_free.
    apply IH; [exact Hwf'|]. intros q Hq. apply Hall. now right.
Qed.

Lemma consumed_not_in_query (p : string) :
  In p (params t) ->
  ~ In p (map fst (query_pairs (render (instantiate args t)) args)).
Proof.
  apply query_pairs_skip. intros k v Hin Hk.
  apply render_includes_lit. unfold instantiate.
  apply in_map_iff. exists (Param k). split.
  - cbn [fill]. assert (Hm : mem k (keys args) = true)
      by (apply mem_In, Hall, Hk).
    now rewrite Hm, (get_In _ _ _ Hkeys Hin).
  - clear - Hk. induction t as [|[s|q] t' IH]; simpl in *; [tauto | auto |].
    destruct Hk as [->|Hk]; [now left | right; auto].
Qed.

End ResolvedRequests.

(* ------------------------------------------------------------------ *)
(** ** The HTTP adapter: path parameters, query string and body *)
(* ------------------------------------------------------------------ *)

Section AdapterProperties.
Import Js Dispatcher Template.

Lemma lookup_own (table : list (string * descriptor)) (cmd : string)
    (d : descriptor) :
  own table cmd = Some d -> lookup table cmd = Own d.
Proof. unfold lookup. now intros ->. Qed.

Lemma own_In (table : list (string * descriptor)) (cmd : string)
    (d : descriptor) :
  own table cmd = Some d -> In (cmd, d) table.
Proof.
  induction table as [|[k d'] table IH]; simpl; [discriminate|].
  destruct (String.eqb_spec k cmd) as [->|_].
  - intros [= ->]. now left.
  - intros H. right. now apply IH.
Qed.

(** Every template of the registry reads as well-formed segments and names
    no parameter twice. *)
Lemma registry_templates_ok (cmd : string) (d : descriptor) :
  own COMMAND_MAPPING cmd = Some d -> template_ok (url d) = true.
Proof.
  intros H. apply own_In in H.
  assert (Hall : forallb (fun e => template_ok (url (snd e))) COMMAND_MAPPING
                 = true) by (vm_compute; reflexivity).
  rewrite forallb_forall in Hall. exact (Hall (cmd, d) H).
Qed.

(** C2, as the code has it.  Take a command whose path template is well
    formed (a [:key] token runs up to the next slash) and names no token
    twice, and arguments with a value for every token, whose keys hold no
    slash and are never a proper prefix of a token name.  Then the request
    is sent, its url holds no colon at all, the path is the template with
    every token replaced by [encodeURIComponent(String(args[key]))], for GET
    and DELETE no token key appears in the query string, and for POST and
    PATCH the body is taken from the arguments with exactly the token keys
    removed.  The scenario [getThing] with [{id: "42", verbose: true}] gives
    [GET /api/things/42?verbose=true]. *)
Theorem C2_path_parameters_resolved :
  (forall (table : list (string * descriptor)) (cmd : string)
          (d : descriptor) (args : obj) (apiKey : option string),
     let t := parse (url d) in
     own table cmd = Some d ->
     template_ok (url d) = true ->
     nodupb (keys args) = true ->
     forallb (free_of "/") (keys args) = true ->
     compatible (keys args) (params t) = true ->
     (forall p, In p (params t) -> In p (keys args)) ->
     exists rq,
       prepare table cmd (Some args) apiKey = Fetches rq
       /\ req_method rq = Some (method d)
       /\ free_of ":" (req_url rq) = true
       /\ if is_query_method (method d)
          then req_url rq = with_query (render (instantiate args t)) args
               /\ req_body rq = None
               /\ (forall p, In p (params t) ->
                     ~ In p (map fst
                          (query_pairs (render (instantiate args t)) args)))
          else req_url rq = render (instantiate args t)
               /\ req_body rq = Some (body_of (remaining args t))
               /\ (forall p, In p (params t) ->
                     ~ In p (keys (remaining args t)))
               /\ (forall k, ~ In k (params t) ->
                     get (remaining args t) k = get args k))
  /\ prepare getThing_registry "getThing"
       (Some [("id", JStr "42"); ("verbose", JBool true)]) None
     = Fetches {| req_url := "/api/things/42?verbose=true";
                  req_method := Some GET;
                  req_headers := [("Content-Type", "application/json")];
                  req_body := None |}.
Proof.
  split; [|reflexivity].
  intros table cmd d args apiKey t Hown Hok Hkeys Hslash Hcompat Hall.
  unfold template_ok in Hok. apply andb_true_iff in Hok as [Hwf Hnd].
  fold t in Hwf, Hnd. apply nodupb_NoDup in Hnd, Hkeys.
  unfold prepare. rewrite (lookup_own _ _ _ Hown).
  pose proof (resolve_path_template args t Hwf Hnd Hkeys Hslash Hcompat)
    as Hres.
  unfold t in Hres at 1. rewrite render_parse in Hres. rewrite Hres.
  cbn [fst snd].
  pose proof (instantiate_colon_free args t Hwf Hall) as Hfree.
  destruct (is_query_method (method d)) eqn:Hm; eexists;
    (split; [reflexivity|]);
    cbn [req_url req_method req_body]; (split; [reflexivity|]).
  - split; [now apply with_query_colon_free|].
    repeat split.
    intros p Hp. now apply consumed_not_in_query.
  - split; [exact Hfree|]. repeat split.
    + intros p Hp Hin. apply remaining_keys in Hin. tauto.
    + intros k Hk. now apply remaining_get.
Qed.

(** The hypotheses of C2 hold for the scenario of the specification. *)
Lemma C2_path_parameters_resolved_witness :
  exists rq,
    prepare getThing_registry "getThing"
      (Some [("id", JStr "42"); ("verbose", JBool true)]) None = Fetches rq
    /\ req_url rq = "/api/things/42?verbose=true".
Proof.
  destruct (proj1 C2_path_parameters_resolved getThing_registry "getThing"
              (mk "/api/things/:id" GET)
              [("id", JStr "42"); ("verbose", JBool true)] None)
    as (rq & Hrq & _ & _ & Hq).
  - reflexivity.
  - reflexivity.
  - reflexivity.
  - reflexivity.
  - reflexivity.
  - simpl. intuition.
  - exists rq. split; [exact Hrq|]. simpl in Hq. now destruct Hq as [-> _].
Defined.

(** C2 as the specification words it fails.  A key that is a proper prefix
    of a token name takes the token's place: with
    [{account: "x", accountId: "42"}] the registry's [fetch_account_quota]
    is sent to [/api/accounts/xId/quota?accountId=42], so the token is not
    replaced by its own value and its key shows up in the query string.
    A template that names a token twice keeps the second one:
    [/api/pairs/:id/:id] with [{id: "42"}] becomes [/api/pairs/42/:id].
    And the body of a PATCH is the value of [request] when there is one, so
    it can carry a key that the path consumed. *)
Lemma C2_counterexample :
  (exists rq,
     prepare COMMAND_MAPPING "fetch_account_quota"
       (Some [("account", JStr "x"); ("accountId", JStr "42")]) None
     = Fetches rq
     /\ req_url rq = "/api/accounts/xId/quota?accountId=42"
     /\ req_url rq <> "/api/accounts/42/quota"
     /\ In "accountId"
          (map fst (query_pairs "/api/accounts/xId/quota"
             [("account", JStr "x"); ("accountId", JStr "42")])))
  /\ (exists rq,
        prepare [("getPair", mk "/api/pairs/:id/:id" GET)] "getPair"
          (Some [("id", JStr "42")]) None
        = Fetches rq
        /\ req_url rq = "/api/pairs/42/:id"
        /\ free_of ":" (req_url rq) = false)
  /\ (exists rq,
        prepare COMMAND_MAPPING "update_user_token"
          (Some [("id", JStr "7");
                 ("request", JObj [("id", JStr "8")])]) None
        = Fetches rq
        /\ req_url rq = "/api/user-tokens/7"
        /\ req_body rq = Some (JObj [("id", JStr "8")])).
Proof.
  split; [|split]; eexists; (split; [reflexivity|]); simpl.
  - repeat split; [discriminate | now left].
  - split; reflexivity.
  - split; reflexivity.
Qed.

End AdapterProperties.

Section BodyProperties.
Import Js Dispatcher.

Lemma delete_subset (b : obj) (k : string) (kv : string * jsval) :
  In kv (delete b k) -> In kv b.
Proof.
  induction b as [|[k' v] b IH]; simpl; [tauto|].
  destruct (String.eqb k' k); simpl; tauto.
Qed.

Lemma resolve_subset (args : obj) (ks : list string) :
  forall (st : string * obj) (kv : string * jsval),
  In kv (snd (fold_left (subst_step args) ks st)) -> In kv (snd st).
Proof.
  induction ks as [|k ks IH]; intros st kv H; [exact H|].
  simpl in H. apply IH in H. unfold subst_step in H.
  destruct (includes (fst st) _); [|exact H].
  simpl in H. now apply delete_subset in H.
Qed.

(** C5, as the code has it.  A POST or PATCH with arguments sends as its
    body what path substitution left of the arguments; whenever that
    remainder has a [request] key whose value is not [undefined], the value
    of [request] alone is the body, whatever other keys remain; otherwise
    the remainder itself is.  Without arguments no body is sent. *)
Theorem C5_request_wrapper_unwrapped :
  forall (table : list (string * descriptor)) (cmd : string)
         (d : descriptor) (apiKey : option string),
    own table cmd = Some d ->
    is_query_method (method d) = false ->
    (forall args : obj,
       let rest := snd (resolve_path (url d) args) in
       exists rq,
         prepare table cmd (Some args) apiKey = Fetches rq
         /\ (forall kv, In kv rest -> In kv args)
         /\ (get rest "request" <> JUndefined ->
               req_body rq = Some (get rest "request"))
         /\ (get rest "request" = JUndefined ->
               req_body rq = Some (JObj rest)))
    /\ exists rq,
         prepare table cmd None apiKey = Fetches rq /\ req_body rq = None.
Proof.
  intros table cmd d apiKey Hown Hm. split.
  - intros args rest. unfold prepare. rewrite (lookup_own _ _ _ Hown), Hm.
    eexists. split; [reflexivity|]. cbn [req_body]. fold rest. split.
    + intros kv H. apply resolve_subset in H. exact H.
    + unfold body_of. split; intros H.
      * destruct (get rest "request"); congruence.
      * now rewrite H.
  - unfold prepare. rewrite (lookup_own _ _ _ Hown).
    eexists. split; reflexivity.
Qed.

Lemma C5_request_wrapper_unwrapped_witness :
  exists rq,
    prepare COMMAND_MAPPING "update_user_token"
      (Some [("id", JStr "7");
             ("request", JObj [("username", JStr "ann")])]) None
    = Fetches rq
    /\ req_body rq = Some (JObj [("username", JStr "ann")]).
Proof.
  destruct (C5_request_wrapper_unwrapped COMMAND_MAPPING "update_user_token"
              (mk "/api/user-tokens/:id" PATCH) None
              eq_refl eq_refl) as [H _].
  destruct (H [("id", JStr "7");
               ("request", JObj [("username", JStr "ann")])])
    as (rq & Hrq & _ & Hwrap & _).
  exists rq. split; [exact Hrq|]. apply Hwrap. discriminate.
Defined.

(** C5 as the specification words it fails: with another key beside
    [request] the specification sends the arguments object, the code sends
    the value of [request] and drops the other key. *)
Lemma C5_counterexample :
  exists rq,
    prepare COMMAND_MAPPING "add_ip_to_blacklist" (Some wrapped_args) None
    = Fetches rq
    /\ snd (resolve_path "/api/security/blacklist" wrapped_args)
       = wrapped_args
    /\ req_body rq = Some (JObj [("ip_pattern", JStr "10.0.0.1")])
    /\ req_body rq <> Some (JObj wrapped_args).
Proof.
  eexists. split; [reflexivity|]. simpl. repeat split. discriminate.
Qed.

End BodyProperties.

(* ------------------------------------------------------------------ *)
(** ** The registry lookup *)
(* ------------------------------------------------------------------ *)

Section RegistryProperties.
Import Js Dispatcher Session Transport.

(** A name for which the lookup yields [undefined] fails at once, with the
    "not supported" error, and nothing is sent. *)
Lemma absent_command_fails_fast
    (table : list (string * descriptor)) (cmd : string) (args : option obj)
    (now : Z) (w : window) (native : outcome) (reply : fetch_reply) :
  lookup table cmd = Absent ->
  request false table cmd args now w native reply
  = (w, Rejects (Error ("Command [" ++ cmd ++ "] not supported in Web mode.")),
     []).
Proof. intros H. unfold request, prepare. now rewrite H. Qed.

(** C6 at the failing input.  [constructor] is not a registry entry, yet
    the lookup finds the inherited property, the guard lets it through and
    a request for the url [undefined] goes out. *)
Theorem C6_inherited_name_not_rejected :
  forall (now : Z) (w : window) (native : outcome) (r : response),
    own COMMAND_MAPPING "constructor" = None
    /\ snd (request false COMMAND_MAPPING "constructor" None now w native
              (Response r))
       = [ {| req_url := "undefined"; req_method := None;
              req_headers := headers (sessionKey w); req_body := None |} ].
Proof.
  intros. split; [reflexivity|].
  unfold request.
  change (prepare COMMAND_MAPPING "constructor" None (sessionKey w))
    with (Fetches {| req_url := "undefined"; req_method := None;
                     req_headers := headers (sessionKey w);
                     req_body := None |}).
  cbv beta iota. now destruct (classify now w r).
Qed.

End RegistryProperties.

(* ------------------------------------------------------------------ *)
(** ** Response classification *)
(* ------------------------------------------------------------------ *)

Section ResponseProperties.
Import Js Dispatcher Session Transport.

Variable now : Z.
Variable w : window.

(** What [request] makes of a response, case by case. *)
Lemma response_classification (r : response) :
  (status r = 204%Z -> classify now w r = (w, Returns JNull))
  /\ (ok r = true -> body r = "" -> classify now w r = (w, Returns JNull))
  /\ (ok r = true -> status r <> 204%Z -> body r <> "" -> json r = None ->
        classify now w r = (w, Returns (JStr (body r))))
  /\ (ok r = true -> status r <> 204%Z -> body r <> "" ->
        forall v, json r = Some v -> classify now w r = (w, Returns v))
  /\ (ok r = false ->
        forall fields, json r = Some (JObj fields) ->
        truthy (get fields "error") = true ->
        snd (classify now w r) = Rejects (Value (get fields "error")))
  /\ (ok r = false -> json r = None ->
        snd (classify now w r)
        = Rejects (Value (JStr ("HTTP Error " ++ string_of_Z (status r))))).
Proof.
  unfold classify. repeat split.
  - intros H. unfold ok. rewrite H. reflexivity.
  - intros Hok Hb. rewrite Hok, Hb. simpl. now destruct (status r =? 204)%Z.
  - intros Hok Hs Hb Hj. rewrite Hok, Hj. simpl.
    apply Z.eqb_neq in Hs. apply String.eqb_neq in Hb. now rewrite Hs, Hb.
  - intros Hok Hs Hb v Hj. rewrite Hok, Hj. simpl.
    apply Z.eqb_neq in Hs. apply String.eqb_neq in Hb. now rewrite Hs, Hb.
  - intros Hok fields Hj Ht. rewrite Hok, Hj. simpl. now rewrite Ht.
  - intros Hok Hj. rewrite Hok, Hj. reflexivity.
Qed.

(** C7 at the failing input.  A 500 whose body is the JSON text [null]
    parses, so the fallback object is not used, and reading [error] off
    [null] raises a TypeError instead of the string [HTTP Error 500]. *)
Theorem C7_null_error_payload :
  let r := {| status := 500; body := "null"; json := Some JNull |} in
  ok r = false
  /\ classify now w r
     = (w, Rejects (TypeError
                      "Cannot read properties of null (reading 'error')"))
  /\ snd (classify now w r) <> Rejects (Value (JStr "HTTP Error 500")).
Proof. repeat split. discriminate. Qed.

End ResponseProperties.

(* ------------------------------------------------------------------ *)
(** ** The unauthorized signal *)
(* ------------------------------------------------------------------ *)

Section UnauthorizedProperties.
Import Js Dispatcher Session Transport.

Lemma run_handlers_effect (n : nat) (w : window) :
  _lastAuthErrorTime (run_handlers n w) = _lastAuthErrorTime w
  /\ listeners (run_handlers n w) = listeners w
  /\ signals (run_handlers n w) = signals w
  /\ clears (run_handlers n w) = clears w + n.
Proof.
  revert w. induction n as [|n IH]; intros w; simpl.
  - repeat split. lia.
  - destruct (IH (handleUnauthorized w)) as (H1 & H2 & H3 & H4).
    rewrite H1, H2, H3, H4. simpl. repeat split. lia.
Qed.

Lemma on_unauthorized_fires (now : Z) (w : window) :
  (now - lastAuthError w > 2000)%Z ->
  lastAuthError (on_unauthorized now w) = now
  /\ listeners (on_unauthorized now w) = listeners w
  /\ signals (on_unauthorized now w) = S (signals w)
  /\ clears (on_unauthorized now w) = clears w + listeners w.
Proof.
  intros H. unfold on_unauthorized.
  apply Z.gtb_gt in H. rewrite H. unfold dispatchEvent, lastAuthError.
  cbn [listeners].
  match goal with |- context [run_handlers ?n ?x] =>
    destruct (run_handlers_effect n x) as (H1 & H2 & H3 & H4) end.
  rewrite H1, H2, H3, H4. repeat split.
Qed.

Lemma on_unauthorized_suppressed (now : Z) (w : window) :
  (now - lastAuthError w <= 2000)%Z -> on_unauthorized now w = w.
Proof.
  intros H. unfold on_unauthorized.
  destruct (now - lastAuthError w >? 2000)%Z eqn:E; [|reflexivity].
  apply Z.gtb_gt in E. lia.
Qed.

(** The debounce lock itself: a 401 that fires, followed by any number of
    401s no later than 2000ms after it, dispatches one event in all. *)
Lemma one_signal_per_window (t0 : Z) (later : list Z) (w : window) :
  (t0 - lastAuthError w > 2000)%Z ->
  Forall (fun t => t - t0 <= 2000)%Z later ->
  signals (observe_401s (t0 :: later) w) = S (signals w)
  /\ clears (observe_401s (t0 :: later) w) = clears w + listeners w.
Proof.
  intros Hfire Hlater. unfold observe_401s. cbn [fold_left].
  destruct (on_unauthorized_fires t0 w Hfire) as (Hl & _ & Hs & Hc).
  rewrite <- Hs, <- Hc. clear Hs Hc Hfire.
  induction Hlater as [|t later Ht _ IH]; [now split|].
  cbn [fold_left]. rewrite on_unauthorized_suppressed by lia. exact IH.
Qed.

(** C4 at the failing input.  The guard mounts in a browser that already
    holds a session key, so its effect returns before it registers the
    handler.  A 401 seen by [request] then dispatches the one signal, and
    nothing clears the credential. *)
Theorem C4_signal_without_listener :
  forall (native : outcome) (r : response),
    status r = 401%Z ->
    let w1 := fst (fst (request false COMMAND_MAPPING "list_accounts" None
                          10000 returning_window native (Response r))) in
    listeners returning_window = 0
    /\ signals w1 = 1
    /\ clears w1 = 0
    /\ sessionKey w1 = Some "secret".
Proof.
  intros native r Hr w1. subst w1. unfold request.
  change (prepare COMMAND_MAPPING "list_accounts" None
            (sessionKey returning_window))
    with (Fetches {| req_url := "/api/accounts"; req_method := Some GET;
                     req_headers := headers (sessionKey returning_window);
                     req_body := None |}).
  cbv beta iota. unfold classify, ok. rewrite Hr. simpl.
  repeat split.
Qed.

Lemma C4_signal_without_listener_witness :
  clears
    (fst (fst (request false COMMAND_MAPPING "list_accounts" None 10000
                 returning_window (Returns JNull)
                 (Response {| status := 401; body := ""; json := None |}))))
  = 0.
Proof.
  exact (proj1 (proj2 (proj2
           (C4_signal_without_listener (Returns JNull)
              {| status := 401; body := ""; json := None |} eq_refl)))).
Defined.

End UnauthorizedProperties.

(* ------------------------------------------------------------------ *)
(** ** The request-log monitor: ingest, flush and pull *)
(* ------------------------------------------------------------------ *)

Section SortFacts.
Import Monitor.

Lemma insert_perm (x : ProxyRequestLog) (l : list ProxyRequestLog) :
  Permutation (insert x l) (x :: l).
Proof.
  induction l as [|y l IH]; simpl; [reflexivity|].
  destruct (timestamp y >? timestamp x)%Z; [|reflexivity].
  rewrite IH. apply perm_swap.
Qed.

Lemma sort_perm (l : list ProxyRequestLog) : Permutation (sort l) l.
Proof.
  induction l as [|x l IH]; simpl; [reflexivity|].
  rewrite insert_perm. now constructor.
Qed.

Lemma insert_sorted (x : ProxyRequestLog) (l : list ProxyRequestLog) :
  StronglySorted newer_or_equal l ->
  StronglySorted newer_or_equal (insert x l).
Proof.
  induction 1 as [|y l Hl IH Hy]; simpl.
  - repeat constructor.
  - destruct (timestamp y >? timestamp x)%Z eqn:E.
    + constructor; [exact IH|].
      apply Forall_forall. intros z Hz.
      apply (Permutation_in _ (insert_perm x l)) in Hz.
      destruct Hz as [<-|Hz].
      * unfold newer_or_equal. apply Z.gtb_gt in E. lia.
      * rewrite Forall_forall in Hy. now apply Hy.
    + constructor; [now constructor|].
      assert (Hxy : newer_or_equal x y).
      { unfold newer_or_equal. rewrite Z.gtb_ltb in E.
        apply Z.ltb_ge in E. exact E. }
      constructor; [exact Hxy|].
      apply Forall_forall. intros z Hz.
      rewrite Forall_forall in Hy. specialize (Hy z Hz).
      unfold newer_or_equal in *. lia.
Qed.

Lemma sort_sorted (l : list ProxyRequestLog) :
  StronglySorted newer_or_equal (sort l).
Proof.
  induction l as [|x l IH]; simpl; [constructor | now apply insert_sorted].
Qed.

Lemma sorted_app_inv (l1 l2 : list ProxyRequestLog) :
  StronglySorted newer_or_equal (l1 ++ l2) ->
  StronglySorted newer_or_equal l1
  /\ forall x y, In x l1 -> In y l2 -> newer_or_equal x y.
Proof.
  induction l1 as [|a l1 IH]; simpl; intros H.
  - split; [constructor | contradiction].
  - inversion H as [|? ? Hs Hf]; subst.
    destruct (IH Hs) as [IH1 IH2]. rewrite Forall_app in Hf.
    destruct Hf as [Hf1 Hf2]. split; [now constructor|].
    intros x y [<-|Hx] Hy; [|now apply IH2].
    rewrite Forall_forall in Hf2. now apply Hf2.
Qed.

Lemma sorted_firstn (n : nat) (l : list ProxyRequestLog) :
  StronglySorted newer_or_equal l ->
  StronglySorted newer_or_equal (firstn n l).
Proof.
  intros H. rewrite <- (firstn_skipn n l) in H.
  now apply sorted_app_inv in H.
Qed.

End SortFacts.

Section IngestFacts.
Import Monitor.
Local Open Scope list_scope.

Lemma has_id_In (i : string) (l : list ProxyRequestLog) :
  has_id i l = true <-> In i (map id l).
Proof.
  unfold has_id. rewrite existsb_exists, in_map_iff. split.
  - intros (x & Hx & He). apply String.eqb_eq in He. now exists x.
  - intros (x & He & Hx). exists x. split; [exact Hx|].
    now apply String.eqb_eq.
Qed.

Lemma has_id_app (i : string) (l1 l2 : list ProxyRequestLog) :
  has_id i (l1 ++ l2) = has_id i l1 || has_id i l2.
Proof. apply existsb_app. Qed.

(** What one event does to the state. *)
Lemma on_request_event_cases (e : ProxyRequestLog) (s : state) :
  isMounted s = true ->
  logs (on_request_event e s) = logs s
  /\ isMounted (on_request_event e s) = true
  /\ (pendingLogs (on_request_event e s) = pendingLogs s
        /\ has_id (id e) (pendingLogs s) = true
      \/ pendingLogs (on_request_event e s) = pendingLogs s ++ [summary e]
        /\ has_id (id e) (pendingLogs s) = false).
Proof.
  intros Hm. unfold on_request_event. rewrite Hm. simpl.
  destruct (has_id (id e) (pendingLogs s)) eqn:E; simpl; auto.
Qed.

Lemma ingest_all_cons (e : ProxyRequestLog) (es : list ProxyRequestLog)
    (s : state) :
  ingest_all (e :: es) s = ingest_all es (on_request_event e s).
Proof. reflexivity. Qed.

Lemma ingest_all_keeps (es : list ProxyRequestLog) :
  forall s, isMounted s = true ->
  logs (ingest_all es s) = logs s
  /\ isMounted (ingest_all es s) = true
  /\ (forall i, has_id i (pendingLogs s) = true ->
                has_id i (pendingLogs (ingest_all es s)) = true)
  /\ (NoDup (map id (pendingLogs s)) ->
      NoDup (map id (pendingLogs (ingest_all es s)))).
Proof.
  induction es as [|e es IH]; intros s Hm; [now repeat split|].
  rewrite ingest_all_cons.
  destruct (on_request_event_cases e s Hm) as (Hl & Hm' & Hp).
  destruct (IH _ Hm') as (IHl & IHm & IHi & IHn).
  rewrite IHl, Hl. repeat split; [exact IHm | |].
  - intros i Hi. apply IHi.
    destruct Hp as [[-> _]|[-> _]]; [exact Hi|].
    rewrite has_id_app, Hi. reflexivity.
  - intros Hnd. apply IHn.
    destruct Hp as [[-> _]|[-> Hfresh]]; [exact Hnd|].
    rewrite map_app. simpl.
    apply NoDup_app; [exact Hnd | repeat constructor; simpl; tauto |].
    intros i Hi [<-|[]].
    apply has_id_In in Hi. simpl in Hi. congruence.
Qed.

(** Every ingested id is pending afterwards. *)
Lemma ingest_all_pending (es : list ProxyRequestLog) :
  forall s e, isMounted s = true -> In e es ->
  has_id (id e) (pendingLogs (ingest_all es s)) = true.
Proof.
  induction es as [|e' es IH]; intros s e Hm Hin; [contradiction|].
  rewrite ingest_all_cons.
  destruct (on_request_event_cases e' s Hm) as (_ & Hm' & Hp).
  destruct Hin as [->|Hin]; [|now apply IH].
  destruct (ingest_all_keeps es _ Hm') as (_ & _ & Hmono & _).
  apply Hmono. destruct Hp as [[-> H]|[-> _]]; [exact H|].
  rewrite has_id_app. simpl. rewrite String.eqb_refl.
  now rewrite orb_true_r.
Qed.

Lemma ingest_all_nonempty (es : list ProxyRequestLog) (s : state) :
  isMounted s = true -> es <> [] -> pendingLogs (ingest_all es s) <> [].
Proof.
  intros Hm Hes. destruct es as [|e es]; [congruence|].
  pose proof (ingest_all_pending (e :: es) s e Hm (or_introl eq_refl)) as H.
  intros E. rewrite E in H. discriminate.
Qed.

Lemma flush_resume_effect (tallies : reply (option ProxyStats * Z))
    (s : state) :
  logs (flush_resume tallies s) = logs s
  /\ pendingLogs (flush_resume tallies s) = [].
Proof.
  unfold flush_resume.
  destruct tallies as [[[x|] count]|msg]; simpl;
    destruct (isMounted s); now split.
Qed.

(** A flush with something pending, in a mounted component: what is pushed
    while it waits for the tallies is cleared with the rest and never
    reaches the view. *)
Lemma flush_with_merges (during : list ProxyRequestLog)
    (tallies : reply (option ProxyStats * Z)) (s : state) :
  isMounted s = true -> pendingLogs s <> [] ->
  logs (flush_with during tallies s) = merge (pendingLogs s) (logs s)
  /\ pendingLogs (flush_with during tallies s) = [].
Proof.
  intros Hm Hp. unfold flush_with, flush_sync. simpl. rewrite Hm. simpl.
  destruct (pendingLogs s) as [|x l] eqn:E; [congruence|].
  match goal with |- context [ingest_all during ?s1] =>
    destruct (ingest_all_keeps during s1 Hm) as (Hl & _);
    destruct (flush_resume_effect tallies (ingest_all during s1))
      as [Hr1 Hr2]
  end.
  rewrite Hr1, Hr2, Hl. now split.
Qed.

Lemma flush_merges (tallies : reply (option ProxyStats * Z)) (s : state) :
  isMounted s = true -> pendingLogs s <> [] ->
  logs (flush tallies s) = merge (pendingLogs s) (logs s)
  /\ pendingLogs (flush tallies s) = [].
Proof. apply flush_with_merges. Qed.

Lemma merge_bounded (pending prev : list ProxyRequestLog) :
  length (merge pending prev) <= 100.
Proof. unfold merge. apply firstn_le_length. Qed.

Lemma merge_sorted (pending prev : list ProxyRequestLog) :
  StronglySorted newer_or_equal (merge pending prev).
Proof. unfold merge. apply sorted_firstn, sort_sorted. Qed.

Lemma In_firstn (n : nat) (l : list ProxyRequestLog) (x : ProxyRequestLog) :
  In x (firstn n l) -> In x l.
Proof.
  intros H. rewrite <- (firstn_skipn n l). apply in_or_app. now left.
Qed.

Lemma merge_origin (pending prev : list ProxyRequestLog)
    (x : ProxyRequestLog) :
  In x (merge pending prev) ->
  In x prev \/ (In x pending /\ has_id (id x) prev = false).
Proof.
  unfold merge. intros H. apply In_firstn in H.
  apply (Permutation_in _ (sort_perm _)) in H.
  apply in_app_or in H as [H|H]; [right | now left].
  apply filter_In in H as [H1 H2]. apply negb_true_iff in H2. now split.
Qed.

Lemma merge_unique_ids (pending prev : list ProxyRequestLog) :
  NoDup (map id prev) -> NoDup (map id pending) ->
  NoDup (map id (merge pending prev)).
Proof.
  intros Hprev Hpend. unfold merge.
  set (fresh := filter (fun l => negb (has_id (id l) prev)) pending).
  assert (Hall : NoDup (map id (sort (fresh ++ prev)))).
  { apply (Permutation_NoDup (l := map id (fresh ++ prev))).
    - apply Permutation_map. symmetry. apply sort_perm.
    - rewrite map_app. apply NoDup_app.
      + subst fresh. clear Hprev. induction pending as [|y l IH];
          [constructor|]. simpl in Hpend |- *.
        inversion Hpend as [|? ? Hy Hl]; subst.
        destruct (negb (has_id (id y) prev)); [|now apply IH].
        simpl. constructor; [|now apply IH].
        intros Hin. apply Hy. apply in_map_iff in Hin as (z & Hz & Hin).
        apply filter_In in Hin as [Hin _]. rewrite <- Hz. now apply in_map.
      + exact Hprev.
      + intros i Hi Hi'. apply in_map_iff in Hi as (z & <- & Hz).
        apply filter_In in Hz as [_ Hz]. apply negb_true_iff in Hz.
        apply has_id_In in Hi'. congruence. }
  rewrite <- (firstn_skipn 100 (sort (fresh ++ prev))) in Hall.
  rewrite map_app in Hall. now apply NoDup_app_remove_r in Hall.
Qed.

(** When everything fits, nothing is lost. *)
Lemma merge_complete (pending prev : list ProxyRequestLog) :
  length (filter (fun l => negb (has_id (id l) prev)) pending)
    + length prev <= 100 ->
  Permutation (merge pending prev)
    (filter (fun l => negb (has_id (id l) prev)) pending ++ prev).
Proof.
  intros H. unfold merge. rewrite firstn_all2; [apply sort_perm|].
  rewrite (Permutation_length (sort_perm _)), length_app. exact H.
Qed.

End IngestFacts.

Section MonitorProperties.
Import Monitor.
Local Open Scope list_scope.


End MonitorProperties.

(* ------------------------------------------------------------------ *)
(** ** The debug-console store: appending, starting and stopping *)
(* ------------------------------------------------------------------ *)

Section DebugConsoleFacts.
Import DebugConsole.
Local Open Scope list_scope.

Lemma MAX_LOGS_ge_2 : 2 <= MAX_LOGS.
Proof. apply Nat.leb_le. reflexivity. Qed.

(** Both branches of [addLog] keep the last [MAX_LOGS] entries. *)
Lemma addLog_logs (e : LogEntry) (w : world) :
  logs (addLog e w)
  = skipn (length (logs w ++ [e]) - MAX_LOGS) (logs w ++ [e]).
Proof.
  unfold addLog, last_n.
  destruct (Nat.ltb_spec MAX_LOGS (length (logs w ++ [e]))) as [H|H];
    [reflexivity|].
  replace (length (logs w ++ [e]) - MAX_LOGS) with 0 by lia. reflexivity.
Qed.

Lemma addLog_bounded (e : LogEntry) (w : world) :
  length (logs (addLog e w)) <= MAX_LOGS.
Proof. rewrite addLog_logs, length_skipn. lia. Qed.

(** What is dropped is a prefix: the entries that arrived first. *)
Lemma addLog_suffix (e : LogEntry) (w : world) :
  exists dropped, logs w ++ [e] = dropped ++ logs (addLog e w).
Proof.
  rewrite addLog_logs.
  exists (firstn (length (logs w ++ [e]) - MAX_LOGS) (logs w ++ [e])).
  symmetry. apply firstn_skipn.
Qed.

Lemma addLog_last (e : LogEntry) (w : world) :
  logs (addLog e w)
  = skipn (length (logs w ++ [e]) - MAX_LOGS) (logs w) ++ [e].
Proof.
  rewrite addLog_logs, skipn_app.
  pose proof MAX_LOGS_ge_2 as H. rewrite length_app. simpl length.
  replace (length (logs w) + 1 - MAX_LOGS - length (logs w)) with 0 by lia.
  reflexivity.
Qed.

Lemma addLog_twice (e1 e2 : LogEntry) (w : world) :
  exists older, logs (addLog e2 (addLog e1 w)) = older ++ [e1; e2].
Proof.
  rewrite (addLog_last e2), (addLog_last e1).
  set (kept := skipn _ (logs w)).
  rewrite skipn_app, !length_app. simpl length.
  pose proof MAX_LOGS_ge_2 as H.
  replace (length kept + 1 + 1 - MAX_LOGS - length kept) with 0 by lia.
  simpl skipn. rewrite <- app_assoc. simpl. eauto.
Qed.

End DebugConsoleFacts.

Section MonitorBound.
Import Monitor.
Local Open Scope list_scope.

(** What a flush drops is no newer than anything it keeps. *)
Lemma merge_evicts_oldest (pending prev : list ProxyRequestLog) :
  exists dropped,
    sort (filter (fun l => negb (has_id (id l) prev)) pending ++ prev)
    = merge pending prev ++ dropped
    /\ forall x y, In x (merge pending prev) -> In y dropped ->
                   (timestamp y <= timestamp x)%Z.
Proof.
  unfold merge.
  set (all := sort (filter _ pending ++ prev)).
  exists (skipn 100 all). split; [symmetry; apply firstn_skipn|].
  pose proof (sort_sorted (filter (fun l => negb (has_id (id l) prev)) pending
                             ++ prev)) as Hs.
  fold all in Hs. rewrite <- (firstn_skipn 100 all) in Hs.
  apply sorted_app_inv in Hs as [_ Hs]. exact Hs.
Qed.

End MonitorBound.

Section SubscriptionProperties.
Import DebugConsole.
Local Open Scope list_scope.

Lemma addLog_subscription (e : LogEntry) (w : world) :
  pollInterval (addLog e w) = pollInterval w
  /\ timers (addLog e w) = timers w
  /\ handlers (addLog e w) = handlers w
  /\ awaiting (addLog e w) = awaiting w
  /\ unlistenFn (addLog e w) = unlistenFn w.
Proof. unfold addLog. now destruct (Nat.ltb _ _). Qed.

Lemma deliver_subscription (e : LogEntry) (w : world) :
  pollInterval (deliver e w) = pollInterval w
  /\ timers (deliver e w) = timers w
  /\ handlers (deliver e w) = handlers w
  /\ awaiting (deliver e w) = awaiting w
  /\ unlistenFn (deliver e w) = unlistenFn w.
Proof.
  unfold deliver.
  assert (H : forall (l : list positive) (v : world),
            let v' := fold_left (fun acc _ => addLog e acc) l v in
            pollInterval v' = pollInterval v
            /\ timers v' = timers v
            /\ handlers v' = handlers v
            /\ awaiting v' = awaiting v
            /\ unlistenFn v' = unlistenFn v).
  { induction l as [|h l IH]; intros v; [now repeat split|].
    simpl. destruct (IH (addLog e v)) as (H1 & H2 & H3 & H4 & H5).
    destruct (addLog_subscription e v) as (A1 & A2 & A3 & A4 & A5).
    rewrite H1, H2, H3, H4, H5. now repeat split. }
  apply H.
Qed.

Lemma inv_tauri (w : world) :
  timers w = [] -> pollInterval w = None -> subscription_inv true w.
Proof.
  intros Ht Hp. unfold subscription_inv. rewrite Hp, Ht.
  repeat split; discriminate.
Qed.

Lemma inv_web (w : world) :
  handlers w = [] -> awaiting w = 0 -> unlistenFn w = None ->
  match pollInterval w with
  | Some i => timers w = [i] /\ (0 < i)%Z
  | None => timers w = []
  end ->
  subscription_inv false w.
Proof.
  intros Hh Ha Hu Hp. unfold subscription_inv.
  repeat split; try discriminate; assumption.
Qed.

Lemma step_preserves (isTauri : bool) (w w' : world) :
  step isTauri w w' ->
  subscription_inv isTauri w -> subscription_inv isTauri w'.
Proof.
  intros Hstep (Ht & Hw & Hp). destruct isTauri.
  - destruct (Ht eq_refl) as [Htim Hpoll]. clear Ht Hw Hp.
    destruct Hstep as [w Hweb|w|w|w Ha|w Ha|w|b w|b w|l w|e w Hh];
      try discriminate; apply inv_tauri; try assumption.
    + unfold stopPolling. now rewrite Hpoll.
    + unfold stopPolling. now rewrite Hpoll.
    + unfold startListening. simpl. now destruct (unlistenFn w).
    + unfold startListening. simpl. now destruct (unlistenFn w).
    + unfold stopListening. now destruct (unlistenFn w).
    + unfold stopListening. now destruct (unlistenFn w).
    + destruct (deliver_subscription e w) as (_ & -> & _). exact Htim.
    + destruct (deliver_subscription e w) as (-> & _). exact Hpoll.
  - destruct (Hw eq_refl) as (Hh & Haw & Hu). clear Ht Hw.
    destruct Hstep as [w _|w|w|w Ha|w Ha|w|b w|b w|l w|e w Hlen];
      try lia; try (now apply inv_web).
    + unfold startPolling, polling.
      destruct (pollInterval w) as [i|] eqn:E.
      * destruct Hp as [Hti Hi].
        replace (negb (i =? 0)%Z) with true
          by (symmetry; apply negb_true_iff, Z.eqb_neq; lia).
        apply inv_web; try assumption. now rewrite E.
      * apply inv_web; try assumption. simpl. rewrite Hp.
        split; [reflexivity | lia].
    + unfold stopPolling. destruct (pollInterval w) as [i|] eqn:E.
      * destruct Hp as [Hti Hi].
        replace (i =? 0)%Z with false by (symmetry; apply Z.eqb_neq; lia).
        apply inv_web; try assumption. simpl. rewrite Hti. simpl.
        now rewrite Z.eqb_refl.
      * apply inv_web; try assumption. now rewrite E.
    + unfold stopListening. rewrite Hu. now apply inv_web.
    + rewrite Hh in Hlen. simpl in Hlen. lia.
Qed.

Lemma reachable_inv (isTauri : bool) (w : world) :
  reachable isTauri w -> subscription_inv isTauri w.
Proof.
  induction 1 as [|w w' _ IH Hstep].
  - repeat split; reflexivity.
  - exact (step_preserves _ _ _ Hstep IH).
Qed.

(** The store's own [enable] and [disable] stay within the steps. *)
Lemma enable_reachable (isTauri : bool) (r_enable : answer unit)
    (r_logs : answer (list LogEntry)) (listened : bool) (w : world) :
  reachable isTauri w ->
  reachable isTauri (enable isTauri r_enable r_logs listened w).
Proof.
  intros Hw. unfold enable. destruct r_enable as [u|]; [|exact Hw].
  assert (H1 : reachable isTauri (loadLogs r_logs (set_isEnabled true w))).
  { assert (H0 : reachable isTauri (set_isEnabled true w))
      by (eapply reach_step; [exact Hw | constructor]).
    destruct r_logs as [l|]; [|exact H0].
    eapply reach_step; [exact H0 | constructor]. }
  destruct isTauri.
  - unfold startListening_run.
    set (w1 := loadLogs r_logs (set_isEnabled true w)) in *.
    assert (H2 : reachable true (startListening true w1))
      by (eapply reach_step; [exact H1 | constructor]).
    destruct (Nat.ltb_spec (awaiting w1) (awaiting (startListening true w1)))
      as [Hlt|_]; [|exact H2].
    destruct listened; (eapply reach_step; [exact H2 | constructor; lia]).
  - eapply reach_step; [exact H1 | now constructor].
Qed.

Lemma checkEnabled_reachable (isTauri : bool) (r_enabled : answer bool)
    (r_logs : answer (list LogEntry)) (listened : bool) (w : world) :
  reachable isTauri w ->
  reachable isTauri (checkEnabled isTauri r_enabled r_logs listened w).
Proof.
  intros Hw. unfold checkEnabled. destruct r_enabled as [b|]; [|exact Hw].
  assert (H0 : reachable isTauri (set_isEnabled b w))
    by (eapply reach_step; [exact Hw | constructor]).
  destruct b; [|exact H0].
  assert (H1 : reachable isTauri (loadLogs r_logs (set_isEnabled true w))).
  { destruct r_logs as [l|]; [|exact H0].
    eapply reach_step; [exact H0 | constructor]. }
  destruct isTauri.
  - unfold startListening_run.
    set (w1 := loadLogs r_logs (set_isEnabled true w)) in *.
    assert (H2 : reachable true (startListening true w1))
      by (eapply reach_step; [exact H1 | constructor]).
    destruct (Nat.ltb_spec (awaiting w1) (awaiting (startListening true w1)))
      as [Hlt|_]; [|exact H2].
    destruct listened; (eapply reach_step; [exact H2 | constructor; lia]).
  - eapply reach_step; [exact H1 | now constructor].
Qed.

Lemma disable_reachable (isTauri : bool) (r_disable : answer unit)
    (w : world) :
  reachable isTauri w -> reachable isTauri (disable isTauri r_disable w).
Proof.
  intros Hw. unfold disable. destruct r_disable as [u|]; [|exact Hw].
  eapply reach_step; [|constructor].
  destruct isTauri; (eapply reach_step; [exact Hw | constructor]).
Qed.

(** C10.  Two entries pushed through [addLog] are both in the view, as its
    last two entries and in the order they were pushed, whatever their ids
    and timestamps: in particular the same entry pushed twice is there
    twice.  The request-log monitor instead ignores an event whose id is
    already pending. *)
Theorem C10_addLog_appends_unconditionally :
  (forall (w : world) (e1 e2 : LogEntry),
     exists older, logs (addLog e2 (addLog e1 w)) = older ++ [e1; e2])
  /\ (forall (w : world) (e : LogEntry),
        exists older, logs (addLog e (addLog e w)) = older ++ [e; e])
  /\ (forall (e : Monitor.ProxyRequestLog) (s : Monitor.state),
        Monitor.has_id (Monitor.id e) (Monitor.pendingLogs s) = true ->
        Monitor.on_request_event e s = s).
Proof.
  repeat split.
  - intros w e1 e2. apply addLog_twice.
  - intros w e. apply addLog_twice.
  - intros e s H. unfold Monitor.on_request_event. rewrite H.
    now destruct (negb (Monitor.isMounted s)).
Qed.

Lemma C10_addLog_appends_unconditionally_witness :
  exists older,
    logs (addLog sample_entry (addLog sample_entry initial))
    = older ++ [sample_entry; sample_entry].
Proof.
  exact (proj1 (proj2 C10_addLog_appends_unconditionally)
           initial sample_entry).
Defined.

End SubscriptionProperties.

(* ------------------------------------------------------------------ *)
(** ** More about [request]: how it settles, what it sends *)
(* ------------------------------------------------------------------ *)

Section RequestOutcomes.
Import Js Dispatcher Session Transport.


Lemma unauthorized_not_ok (r : response) : status r = 401%Z -> ok r = false.
Proof. intros H. unfold ok. now rewrite H. Qed.



Lemma includes_absent_head (c : ascii) (k s : string) :
  Template.free_of c s = true -> includes s (String c k) = false.
Proof.
  intros H. rewrite <- (append_nil_r s). now rewrite includes_skip.
Qed.

Lemma fold_unchanged (args : obj) (u : string) (ks : list string) :
  Template.free_of ":" u = true ->
  forall b : obj, fold_left (subst_step args) ks (u, b) = (u, b).
Proof.
  intros Hu. induction ks as [|k ks IH]; intros b; [reflexivity|].
  cbn [fold_left]. unfold subst_step at 2. cbn [fst snd]. simpl append.
  rewrite (includes_absent_head _ _ _ Hu). apply IH.
Qed.

End RequestOutcomes.

Section MonitorPull.
Import Js Dispatcher MonitorControls.

Lemma decimal_head (n : Z) :
  exists c rest,
    string_of_Z n = String c rest
    /\ In c ["-"; "0"; "1"; "2"; "3"; "4"; "5"; "6"; "7"; "8"; "9"]%char.
Proof.
  unfold string_of_Z. destruct n as [|p|p]; simpl.
  - exists "0"%char, "". split; [reflexivity | simpl; tauto].
  - destruct (Pos.to_uint p); simpl; eexists; eexists;
      (split; [reflexivity | simpl; tauto]).
  - eexists; eexists; (split; [reflexivity | simpl; tauto]).
Qed.

(** A number is never left out of the query string of a path without
    digits and minus sign. *)
Lemma decimal_not_in_path (path : string) (n : Z) :
  forallb (fun c => Template.free_of c path)
    ["-"; "0"; "1"; "2"; "3"; "4"; "5"; "6"; "7"; "8"; "9"]%char = true ->
  includes path (encodeURIComponent (string_of_Z n)) = false.
Proof.
  intros Hfree. destruct (decimal_head n) as (c & rest & -> & Hc).
  rewrite forallb_forall in Hfree. specialize (Hfree c Hc).
  assert (Hun : uri_unreserved c = true).
  { simpl in Hc.
    repeat (destruct Hc as [<-|Hc]; [reflexivity|]). contradiction. }
  cbn [encodeURIComponent]. rewrite Hun. simpl append.
  now apply includes_absent_head.
Qed.

(** The history query of the monitor in Web mode, for every page, page size
    and filter: the filter text is sent unless its encoded form occurs
    inside the string [/api/logs] (as the empty text does, and [log] or
    [api]); the errors-only flag, the limit and the offset are always
    sent. *)
Theorem history_request_url :
  forall (page pageSize : Z) (searchFilter accountEmailFilter : string)
         (apiKey : option string),
    let f := actualFilter searchFilter accountEmailFilter in
    prepare COMMAND_MAPPING "get_proxy_logs_filtered"
      (Some (history_args page pageSize searchFilter accountEmailFilter))
      apiKey
    = Fetches
        {| req_url :=
             "/api/logs?"
             ++ (if includes "/api/logs" (encodeURIComponent f) then ""
                 else "filter=" ++ form_encode f ++ "&")
             ++ "errorsOnly="
             ++ (if errorsOnly searchFilter then "true" else "false")
             ++ "&limit=" ++ form_encode (string_of_Z pageSize)
             ++ "&offset="
             ++ form_encode (string_of_Z ((page - 1) * pageSize));
           req_method := Some GET;
           req_headers := headers apiKey;
           req_body := None |}.
Proof.
  intros page pageSize searchFilter accountEmailFilter apiKey f.
  assert (Hres : resolve_path "/api/logs"
                   (history_args page pageSize searchFilter
                      accountEmailFilter)
                 = ("/api/logs",
                    history_args page pageSize searchFilter
                      accountEmailFilter))
    by (unfold resolve_path; now apply fold_unchanged).
  unfold prepare.
  rewrite (lookup_own COMMAND_MAPPING "get_proxy_logs_filtered"
             (mk "/api/logs" GET) eq_refl).
  cbn [is_query_method method url]. rewrite Hres. cbn [fst snd].
  f_equal. f_equal.
  unfold with_query, history_args. fold f.
  cbn [query_pairs ToString].
  rewrite !decimal_not_in_path by reflexivity.
  assert (Hb : includes "/api/logs"
                 (encodeURIComponent
                    (if errorsOnly searchFilter then "true" else "false"))
               = false)
    by (destruct (errorsOnly searchFilter); reflexivity).
  destruct (includes "/api/logs" (encodeURIComponent f));
    destruct (errorsOnly searchFilter) eqn:He;
    cbn [ToString] in Hb |- *; rewrite Hb;
    unfold URLSearchParams_toString; cbn [map fst snd join];
    simpl; rewrite ?append_assoc; reflexivity.
Qed.

End MonitorPull.

Section CallSites.
Import Js Dispatcher Template Services.

(** [handleUpdate] of the user-token page, for every token id and every
    request object: a PATCH to [/api/user-tokens/<encoded id>] whose body
    is the request object itself, without the id. *)
Theorem update_user_token_request :
  forall (id : string) (fields : obj) (apiKey : option string),
    prepare COMMAND_MAPPING "update_user_token"
      (Some (update_user_token_args id fields)) apiKey
    = Fetches {| req_url := "/api/user-tokens/" ++ encodeURIComponent id;
                 req_method := Some PATCH;
                 req_headers := headers apiKey;
                 req_body := Some (JObj fields) |}.
Proof.
  intros id fields apiKey.
  pose proof (resolve_path_template (update_user_token_args id fields)
                [Lit "/api/user-tokens/"; Param "id"]
                eq_refl) as Hres.
  assert (Hnd1 : NoDup (params [Lit "/api/user-tokens/"; Param "id"]))
    by (apply nodupb_NoDup; reflexivity).
  assert (Hnd2 : NoDup (keys (update_user_token_args id fields)))
    by (apply nodupb_NoDup; reflexivity).
  specialize (Hres Hnd1 Hnd2 eq_refl eq_refl).
  unfold prepare.
  change (lookup COMMAND_MAPPING "update_user_token")
    with (Own (mk "/api/user-tokens/:id" PATCH)).
  cbn [url method is_query_method].
  change "/api/user-tokens/:id"
    with (render [Lit "/api/user-tokens/"; Param "id"]).
  rewrite Hres. cbn [fst snd].
  unfold instantiate, remaining, update_user_token_args.
  cbn. now rewrite append_nil_r.
Qed.

Lemma device_version_path (accountId versionId : string) :
  resolve_path "/api/accounts/:accountId/device-versions/:versionId"
    (device_version_args accountId versionId)
  = ("/api/accounts/" ++ encodeURIComponent accountId
       ++ "/device-versions/" ++ encodeURIComponent versionId, []).
Proof.
  pose proof (resolve_path_template (device_version_args accountId versionId)
                [Lit "/api/accounts/"; Param "accountId";
                 Lit "/device-versions/"; Param "versionId"]
                eq_refl) as Hres.
  assert (Hnd1 : NoDup (params [Lit "/api/accounts/"; Param "accountId";
                                Lit "/device-versions/"; Param "versionId"]))
    by (apply nodupb_NoDup; reflexivity).
  assert (Hnd2 : NoDup (keys (device_version_args accountId versionId)))
    by (apply nodupb_NoDup; reflexivity).
  specialize (Hres Hnd1 Hnd2 eq_refl eq_refl).
  change "/api/accounts/:accountId/device-versions/:versionId"
    with (render [Lit "/api/accounts/"; Param "accountId";
                  Lit "/device-versions/"; Param "versionId"]).
  rewrite Hres. unfold instantiate, remaining, device_version_args.
  cbn. now rewrite append_nil_r.
Qed.

(** [deleteDeviceVersion], for every account id and version id: a DELETE to
    [/api/accounts/<id>/device-versions/<version>] with both ids percent
    encoded, no query string and no body. *)
Theorem delete_device_version_request_url :
  forall (accountId versionId : string) (apiKey : option string),
    prepare COMMAND_MAPPING "delete_device_version"
      (Some (device_version_args accountId versionId)) apiKey
    = Fetches {| req_url :=
                   "/api/accounts/" ++ encodeURIComponent accountId
                   ++ "/device-versions/" ++ encodeURIComponent versionId;
                 req_method := Some DELETE;
                 req_headers := headers apiKey;
                 req_body := None |}.
Proof.
  intros accountId versionId apiKey. unfold prepare.
  change (lookup COMMAND_MAPPING "delete_device_version")
    with (Own (mk "/api/accounts/:accountId/device-versions/:versionId"
                  DELETE)).
  cbn [url method is_query_method].
  rewrite device_version_path. cbn [fst snd]. f_equal. f_equal.
  unfold with_query, device_version_args. cbn [query_pairs ToString].
  assert (H1 : includes
                 ("/api/accounts/" ++ encodeURIComponent accountId
                    ++ "/device-versions/" ++ encodeURIComponent versionId)
                 (encodeURIComponent accountId) = true)
    by apply includes_mid.
  assert (H2 : includes
                 ("/api/accounts/" ++ encodeURIComponent accountId
                    ++ "/device-versions/" ++ encodeURIComponent versionId)
                 (encodeURIComponent versionId) = true).
  { do 3 apply includes_later.
    rewrite <- (append_nil_r (encodeURIComponent versionId)) at 1.
    apply includes_here. }
  rewrite H1, H2. reflexivity.
Qed.

End CallSites.

(* ------------------------------------------------------------------ *)
(** ** The unauthorized signal over many responses; logging in *)
(* ------------------------------------------------------------------ *)

Section SignalRate.
Import Session.

Lemma observe_cons (t : Z) (ts : list Z) (w : window) :
  observe_401s (t :: ts) w = observe_401s ts (on_unauthorized t w).
Proof. reflexivity. Qed.

Lemma on_unauthorized_cases (t : Z) (w : window) :
  (t - lastAuthError w > 2000)%Z
    /\ lastAuthError (on_unauthorized t w) = t
    /\ listeners (on_unauthorized t w) = listeners w
    /\ signals (on_unauthorized t w) = S (signals w)
    /\ clears (on_unauthorized t w) = clears w + listeners w
  \/ (t - lastAuthError w <= 2000)%Z /\ on_unauthorized t w = w.
Proof.
  destruct (Z_gt_le_dec (t - lastAuthError w) 2000) as [H|H].
  - left. split; [exact H | now apply on_unauthorized_fires].
  - right. split; [exact H | now apply on_unauthorized_suppressed].
Qed.

(** After a first signal, [n] more signals need more than [2000 * n]
    milliseconds. *)
Lemma signals_after_last (ts : list Z) :
  forall (w : window) (hi : Z),
  Forall (fun t => t <= hi)%Z ts ->
  signals w <= signals (observe_401s ts w)
  /\ listeners (observe_401s ts w) = listeners w
  /\ clears (observe_401s ts w)
     = clears w + listeners w * (signals (observe_401s ts w) - signals w)
  /\ (signals (observe_401s ts w) = signals w
      \/ (2000 * Z.of_nat (signals (observe_401s ts w) - signals w)
          < hi - lastAuthError w)%Z).
Proof.
  induction ts as [|t ts IH]; intros w hi Hts.
  - cbn. repeat split; lia.
  - inversion Hts as [|? ? Ht Hts']; subst. rewrite observe_cons.
    destruct (on_unauthorized_cases t w)
      as [(Hfire & Hl & Hn & Hs & Hc)|(_ & ->)]; [|now apply IH].
    destruct (IH (on_unauthorized t w) hi Hts') as (I1 & I2 & I3 & I4).
    rewrite I2, I3, Hn, Hc, Hs in *. rewrite Hl in I4.
    repeat split; try lia; try nia.
Qed.

(** The debounce lock as a rate limit.  Whatever 401 responses are seen
    between two instants, in whatever order their clock readings come, the
    signals dispatched for them number at most one, or else [n] signals
    need more than [2000 * (n - 1)] milliseconds; so a span of two seconds
    sees at most one signal. *)
Theorem unauthorized_signals_rate_limited :
  forall (ts : list Z) (w : window) (lo hi : Z),
    Forall (fun t => lo <= t <= hi)%Z ts ->
    let n := signals (observe_401s ts w) - signals w in
    (n <= 1 \/ (2000 * (Z.of_nat n - 1) < hi - lo)%Z)
    /\ ((hi - lo <= 2000)%Z -> n <= 1).
Proof.
  intros ts w lo hi Hts n.
  assert (H : n <= 1 \/ (2000 * (Z.of_nat n - 1) < hi - lo)%Z);
    [|split; [exact H | intros Hspan; destruct H; lia]].
  subst n. revert w. induction Hts as [|t ts Ht Hts IH]; intros w.
  - left. cbn. lia.
  - rewrite observe_cons.
    destruct (on_unauthorized_cases t w)
      as [(Hfire & Hl & Hn & Hs & Hc)|(_ & ->)]; [|apply IH].
    assert (Hhi : Forall (fun t0 => t0 <= hi)%Z ts).
    { eapply Forall_impl; [|exact Hts]. cbn. intros; lia. }
    destruct (signals_after_last ts (on_unauthorized t w) hi Hhi)
      as (I1 & _ & _ & I4).
    rewrite Hs, Hl in *. destruct I4 as [I4|I4]; [left; lia | right; lia].
Qed.

Lemma unauthorized_signals_rate_limited_witness :
  signals (observe_401s [10000; 10400; 11900]%Z
             (fresh_window false None None))
  - signals (fresh_window false None None) <= 1.
Proof.
  assert (H : Forall (fun t => 10000 <= t <= 12000)%Z
                 [10000; 10400; 11900]%Z) by (repeat constructor; lia).
  apply (proj2 (unauthorized_signals_rate_limited
                  [10000; 10400; 11900]%Z (fresh_window false None None)
                  10000 12000 H)).
  lia.
Defined.

Lemma run_handlers_keeps_cleared (n : nat) :
  forall v : window,
  sessionKey v = None /\ localKey v = None /\ isAuthenticated v = false ->
  sessionKey (run_handlers n v) = None
  /\ localKey (run_handlers n v) = None
  /\ isAuthenticated (run_handlers n v) = false.
Proof.
  induction n as [|n IH]; intros v Hv; [exact Hv|].
  cbn [run_handlers]. apply IH. now repeat split.
Qed.

Lemma run_handlers_clears_credential (n : nat) (w : window) :
  0 < n ->
  sessionKey (run_handlers n w) = None
  /\ localKey (run_handlers n w) = None
  /\ isAuthenticated (run_handlers n w) = false.
Proof.
  intros Hn. destruct n as [|n]; [lia|]. cbn [run_handlers].
  apply run_handlers_keeps_cleared. now repeat split.
Qed.

Lemma on_unauthorized_keeps_cleared (t : Z) (w : window) :
  sessionKey w = None /\ localKey w = None /\ isAuthenticated w = false ->
  sessionKey (on_unauthorized t w) = None
  /\ localKey (on_unauthorized t w) = None
  /\ isAuthenticated (on_unauthorized t w) = false.
Proof.
  intros H. unfold on_unauthorized.
  destruct (t - lastAuthError w >? 2000)%Z; [|exact H].
  unfold dispatchEvent. apply run_handlers_keeps_cleared. exact H.
Qed.

Lemma observe_keeps_cleared (ts : list Z) :
  forall v : window,
  sessionKey v = None /\ localKey v = None /\ isAuthenticated v = false ->
  sessionKey (observe_401s ts v) = None
  /\ localKey (observe_401s ts v) = None
  /\ isAuthenticated (observe_401s ts v) = false.
Proof.
  induction ts as [|t ts IH]; intros v Hv; [exact Hv|].
  rewrite observe_cons. apply IH. now apply on_unauthorized_keeps_cleared.
Qed.

Lemma first_signal_clears (ts : list Z) :
  forall w : window,
  0 < listeners w ->
  signals w < signals (observe_401s ts w) ->
  sessionKey (observe_401s ts w) = None
  /\ localKey (observe_401s ts w) = None
  /\ isAuthenticated (observe_401s ts w) = false.
Proof.
  induction ts as [|t ts IH]; intros w Hl Hs; [cbn in Hs; lia|].
  rewrite observe_cons in *.
  destruct (on_unauthorized_cases t w)
    as [(Hfire & _ & Hn & _ & _)|(_ & Heq)].
  - apply observe_keeps_cleared.
    unfold on_unauthorized. apply Z.gtb_gt in Hfire. rewrite Hfire.
    unfold dispatchEvent. cbn [listeners].
    now apply run_handlers_clears_credential.
  - rewrite Heq in *. now apply IH.
Qed.

(** When the guard mounted in a browser without a session key, so that its
    handler is registered, every signal clears the credential exactly once:
    the clears equal the signals, and after the first signal no key is
    stored and the guard shows the login form. *)
Theorem registered_guard_clears_once_per_signal :
  forall (session local : option string) (ts : list Z),
    present session = false ->
    let w := AdminAuthGuard_mount false (fresh_window false session local) in
    let w' := observe_401s ts w in
    listeners w = 1
    /\ clears w' = signals w'
    /\ (0 < signals w' ->
          sessionKey w' = None /\ localKey w' = None
          /\ isAuthenticated w' = false).
Proof.
  intros session local ts Hs w w'.
  assert (Hl : listeners w = 1).
  { subst w. unfold AdminAuthGuard_mount, fresh_window. cbn.
    now rewrite Hs. }
  assert (H0 : signals w = 0 /\ clears w = 0).
  { subst w. unfold AdminAuthGuard_mount, fresh_window. cbn.
    rewrite Hs. now split. }
  destruct H0 as [Hsig Hcl].
  assert (Hall : Forall (fun t => t <= fold_right Z.max 0 ts)%Z ts).
  { clear. induction ts as [|t ts IH]; constructor; cbn; [lia|].
    eapply Forall_impl; [|exact IH]. cbn. intros; lia. }
  destruct (signals_after_last ts w _ Hall) as (_ & _ & Hc & _).
  rewrite Hl, Hsig, Hcl in Hc. subst w'.
  split; [exact Hl|]. split; [lia|].
  intros Hpos. apply first_signal_clears; lia.
Qed.

Lemma registered_guard_clears_once_per_signal_witness :
  clears (observe_401s [10000; 10400; 19000]%Z
            (AdminAuthGuard_mount false (fresh_window false None None)))
  = signals (observe_401s [10000; 10400; 19000]%Z
               (AdminAuthGuard_mount false (fresh_window false None None))).
Proof.
  exact (proj1 (proj2 (registered_guard_clears_once_per_signal
                         None None [10000; 10400; 19000]%Z eq_refl))).
Defined.

End SignalRate.

(* ------------------------------------------------------------------ *)
(** ** Logging in and out *)
(* ------------------------------------------------------------------ *)

Section LoginProperties.
Import Session Transport Login.

Lemma no_listener_keeps_session (ts : list Z) :
  forall w : window,
  listeners w = 0 ->
  sessionKey (observe_401s ts w) = sessionKey w
  /\ isAuthenticated (observe_401s ts w) = isAuthenticated w
  /\ clears (observe_401s ts w) = clears w.
Proof.
  induction ts as [|t ts IH]; intros w Hl; [now repeat split|].
  rewrite observe_cons.
  assert (H : listeners (on_unauthorized t w) = 0
              /\ sessionKey (on_unauthorized t w) = sessionKey w
              /\ isAuthenticated (on_unauthorized t w) = isAuthenticated w
              /\ clears (on_unauthorized t w) = clears w).
  { unfold on_unauthorized. destruct (t - lastAuthError w >? 2000)%Z;
      [|now repeat split].
    unfold dispatchEvent. cbn [listeners]. rewrite Hl. cbn.
    now repeat split. }
  destruct H as (H1 & H2 & H3 & H4).
  destruct (IH _ H1) as (I1 & I2 & I3). repeat split; congruence.
Qed.

(** Logging in with a non-empty key reloads the page exactly when the
    server answers with a status other than 401.  The page it reloads into
    holds the key in the session storage, is authenticated, and has no
    handler for the unauthorized signal, so that no later 401 response
    removes the key.  With a 401 or without an answer the key is removed
    again and an error is shown. *)
Theorem login_reloads_unless_rejected :
  forall (key : string) (reply : fetch_reply) (w : window),
    key <> "" ->
    let res := handleLogin key reply w in
    (reloads res = true <->
       exists r, reply = Response r /\ status r <> 401%Z)
    /\ (reloads res = true ->
          shown res = None
          /\ isAuthenticated (reload (after res)) = true
          /\ listeners (reload (after res)) = 0
          /\ forall ts : list Z,
               sessionKey (observe_401s ts (reload (after res))) = Some key
               /\ isAuthenticated (observe_401s ts (reload (after res)))
                  = true)
    /\ (reloads res = false ->
          sessionKey (after res) = None
          /\ shown res <> None
          /\ isAuthenticated (after res) = isAuthenticated w).
Proof.
  intros key reply w Hkey res.
  apply String.eqb_neq in Hkey.
  assert (Hmount : forall v : window,
            sessionKey v = Some key ->
            isAuthenticated (reload v) = true
            /\ listeners (reload v) = 0
            /\ sessionKey (reload v) = Some key).
  { intros v Hv. unfold reload, AdminAuthGuard_mount, fresh_window.
    cbn [sessionKey]. rewrite Hv. cbn [present]. rewrite Hkey.
    now repeat split. }
  assert (Hlater : forall v : window,
            sessionKey v = Some key ->
            isAuthenticated (reload v) = true
            /\ listeners (reload v) = 0
            /\ forall ts : list Z,
                 sessionKey (observe_401s ts (reload v)) = Some key
                 /\ isAuthenticated (observe_401s ts (reload v)) = true).
  { intros v Hv. destruct (Hmount v Hv) as (M1 & M2 & M3).
    split; [exact M1|]. split; [exact M2|]. intros ts.
    destruct (no_listener_keeps_session ts _ M2) as (N1 & N2 & _).
    split; congruence. }
  subst res. unfold handleLogin. rewrite Hkey.
  destruct reply as [e|r].
  - cbn. split; [|split].
    + split; [discriminate | intros (r & Hr & _); discriminate].
    + discriminate.
    + intros _. repeat split. discriminate.
  - destruct (ok r || (status r =? 204)%Z)%bool eqn:Hok.
    + assert (Hne : status r <> 401%Z).
      { intros H. rewrite (unauthorized_not_ok r H), H in Hok.
        discriminate. }
      cbn [reloads after shown]. split; [|split].
      * split; [intros _; now exists r | reflexivity].
      * intros _. split; [reflexivity|]. now apply Hlater.
      * discriminate.
    + destruct (status r =? 401)%Z eqn:H401.
      * apply Z.eqb_eq in H401. cbn. split; [|split].
        -- split; [discriminate|].
           intros (r' & Hr & Hne). injection Hr as <-. contradiction.
        -- discriminate.
        -- intros _. repeat split. discriminate.
      * apply Z.eqb_neq in H401. cbn [reloads after shown]. split; [|split].
        -- split; [intros _; now exists r | reflexivity].
        -- intros _. split; [reflexivity|]. now apply Hlater.
        -- discriminate.
Qed.

Lemma login_reloads_unless_rejected_witness :
  sessionKey
    (observe_401s [5000%Z]
       (reload (after (handleLogin "secret"
                         (Response {| status := 500; body := "";
                                      json := None |})
                         (AdminAuthGuard_mount false
                            (fresh_window false None None))))))
  = Some "secret".
Proof.
  assert (Hkey : "secret" <> "") by discriminate.
  refine (proj1 (proj2 (proj2 (proj2
            (proj1 (proj2 (login_reloads_unless_rejected "secret"
                             (Response {| status := 500; body := "";
                                          json := None |})
                             (AdminAuthGuard_mount false
                                (fresh_window false None None)) Hkey))
               eq_refl))) [5000%Z])).
Defined.

(** Logging out removes both stored keys, and the page it reloads into
    shows the login form with the handler registered. *)
Lemma logout_returns_to_login :
  forall w : window,
    let w' := reload (handleLogout w) in
    sessionKey w' = None /\ localKey w' = None
    /\ isAuthenticated w' = false /\ listeners w' = 1.
Proof. intros w. cbn. now repeat split. Qed.

End LoginProperties.

(* ------------------------------------------------------------------ *)
(** ** The monitor: teardown, paging, repeated and reordered events *)
(* ------------------------------------------------------------------ *)

Section MonitorControlsProperties.
Import Monitor MonitorControls.
Local Open Scope list_scope.

Lemma unmounted_ignores (e : ProxyRequestLog) (s : state) :
  isMounted s = false -> on_request_event e s = s.
Proof. intros H. unfold on_request_event. now rewrite H. Qed.

Lemma unmounted_ignores_all (es : list ProxyRequestLog) (s : state) :
  isMounted s = false -> ingest_all es s = s.
Proof.
  intros H. induction es as [|e es IH]; [reflexivity|].
  rewrite ingest_all_cons, unmounted_ignores; assumption.
Qed.

(** After the cleanup of the mount effect the monitor is inert: pushed
    events are dropped, a flush does nothing, and a flush that was waiting
    for its tallies when the component went away sets neither the
    statistics nor the count nor the entries when they arrive. *)
Theorem unmounted_monitor_is_inert :
  forall (s : state) (events : list ProxyRequestLog)
         (tallies : reply (option ProxyStats * Z)),
    ingest_all events (cleanup s) = cleanup s
    /\ flush tallies (cleanup s) = cleanup s
    /\ (forall (x : option ProxyStats) (count : Z),
          logs (flush_resume (Resolved (x, count)) (cleanup s)) = logs s
          /\ stats (flush_resume (Resolved (x, count)) (cleanup s)) = stats s
          /\ totalCount (flush_resume (Resolved (x, count)) (cleanup s))
             = totalCount s
          /\ console (flush_resume (Resolved (x, count)) (cleanup s))
             = console s).
Proof.
  intros s events tallies. split; [|split].
  - now apply unmounted_ignores_all.
  - reflexivity.
  - intros x count. now repeat split.
Qed.

Lemma ceil_div_bounds (a b : Z) :
  (0 < b)%Z -> ((ceil_div a b - 1) * b < a <= ceil_div a b * b)%Z.
Proof.
  intros Hb. unfold ceil_div.
  pose proof (Z.div_mod (- a) b ltac:(lia)) as Hdm.
  pose proof (Z.mod_pos_bound (- a) b Hb) as Hr.
  nia.
Qed.

(** The pages of the monitor tile the entries the backend counts: the
    last page ends at the count, every page holds between one and
    [pageSize] entries, each page starts right after the one before, and a
    page that [goToPage] loads asks for an offset below the count. *)
Theorem monitor_pages_tile_the_count :
  forall (total pageSize : Z),
    (0 < pageSize)%Z -> (0 < total)%Z ->
    let n := totalPages total pageSize in
    (1 <= n)%Z
    /\ pageStart total 1 pageSize = 1%Z
    /\ pageEnd total n pageSize = total
    /\ (forall p : Z, (1 <= p <= n)%Z ->
          (pageStart total p pageSize <= pageEnd total p pageSize)%Z
          /\ (pageEnd total p pageSize - pageStart total p pageSize
              < pageSize)%Z
          /\ pageStart total p pageSize = (offset_of p pageSize + 1)%Z
          /\ ((p < n)%Z ->
                pageStart total (p + 1) pageSize
                = (pageEnd total p pageSize + 1)%Z))
    /\ (forall page current : Z,
          goToPage page current total pageSize <> None ->
          goToPage page current total pageSize = Some page
          /\ (0 <= offset_of page pageSize < total)%Z).
Proof.
  intros total pageSize Hsize Htotal n.
  pose proof (ceil_div_bounds total pageSize Hsize) as Hn.
  fold (totalPages total pageSize) in Hn. fold n in Hn.
  assert (Hz : (total =? 0)%Z = false) by (apply Z.eqb_neq; lia).
  unfold pageStart, pageEnd, offset_of. rewrite Hz.
  split; [nia|]. split; [lia|]. split; [lia|]. split.
  - intros p Hp. repeat split; nia.
  - intros page current. unfold goToPage. fold n.
    destruct (1 <=? page)%Z eqn:H1; [|intros H; now elim H].
    destruct (page <=? n)%Z eqn:H2; [|intros H; now elim H].
    destruct (negb (page =? current)%Z); [|intros H; now elim H].
    intros _. split; [reflexivity|].
    apply Z.leb_le in H1, H2. nia.
Qed.

Lemma monitor_pages_tile_the_count_witness :
  pageEnd 250 (totalPages 250 100) 100 = 250%Z.
Proof.
  assert (H1 : (0 < 100)%Z) by lia.
  assert (H2 : (0 < 250)%Z) by lia.
  exact (proj1 (proj2 (proj2
           (monitor_pages_tile_the_count 250 100 H1 H2)))).
Defined.

Lemma sort_of_sorted (l : list ProxyRequestLog) :
  StronglySorted newer_or_equal l -> sort l = l.
Proof.
  induction 1 as [|x l Hl IH Hx]; [reflexivity|].
  cbn [sort]. rewrite IH. destruct l as [|y l']; [reflexivity|].
  cbn [insert]. inversion Hx as [|? ? Hy _]; subst.
  unfold newer_or_equal in Hy.
  replace (timestamp y >? timestamp x)%Z with false; [reflexivity|].
  symmetry. rewrite Z.gtb_ltb. apply Z.ltb_ge. exact Hy.
Qed.

Lemma filter_all_known (pending prev : list ProxyRequestLog) :
  (forall x, In x pending -> has_id (id x) prev = true) ->
  filter (fun l => negb (has_id (id l) prev)) pending = [].
Proof.
  induction pending as [|x pending IH]; intros H; [reflexivity|].
  cbn [filter]. rewrite (H x (or_introl eq_refl)). cbn [negb].
  apply IH. intros y Hy. apply H. now right.
Qed.

Lemma merge_known (pending prev : list ProxyRequestLog) :
  (forall x, In x pending -> has_id (id x) prev = true) ->
  StronglySorted newer_or_equal prev -> length prev <= 100 ->
  merge pending prev = prev.
Proof.
  intros Hk Hs Hl. unfold merge. rewrite (filter_all_known _ _ Hk).
  cbn [app]. rewrite (sort_of_sorted _ Hs). now apply firstn_all2.
Qed.

Lemma ingest_all_origin (es : list ProxyRequestLog) :
  forall (s : state) (x : ProxyRequestLog),
  In x (pendingLogs (ingest_all es s)) ->
  In x (pendingLogs s) \/ exists e, In e es /\ x = summary e.
Proof.
  induction es as [|e es IH]; intros s x Hx; [now left|].
  rewrite ingest_all_cons in Hx. destruct (IH _ _ Hx) as [H|(e' & He & ->)].
  - unfold on_request_event in H.
    destruct (negb (isMounted s)); [now left|].
    destruct (has_id (id e) (pendingLogs s)); [now left|].
    cbn in H. apply in_app_or in H as [H|[<-|[]]]; [now left|].
    right. exists e. split; [now left | reflexivity].
  - right. exists e'. split; [now right | reflexivity].
Qed.

Lemma flush_keeps_mounted (tallies : reply (option ProxyStats * Z))
    (s : state) :
  isMounted (flush tallies s) = isMounted s.
Proof.
  unfold flush, flush_with, flush_sync. cbn [isMounted setArmed].
  destruct (isMounted s) eqn:Hm; cbn [negb]; [|exact Hm].
  cbn [pendingLogs logs setArmed]. destruct (pendingLogs s); [exact Hm|].
  cbn [ingest_all fold_left]. unfold flush_resume.
  destruct tallies as [[x count]|e]; cbn; rewrite ?Hm; [|reflexivity].
  now destruct x.
Qed.

(** Events delivered again after the flush that showed them leave the
    view as it is: the next flush finds their ids among the entries shown
    and adds nothing. *)
Theorem redelivered_events_leave_view :
  forall (s : state) (t1 t2 : reply (option ProxyStats * Z))
         (again : list ProxyRequestLog),
    isMounted s = true -> pendingLogs s <> [] ->
    (forall e, In e again -> has_id (id e) (logs (flush t1 s)) = true) ->
    logs (flush t2 (ingest_all again (flush t1 s))) = logs (flush t1 s).
Proof.
  intros s t1 t2 again Hm Hp Hknown.
  destruct (flush_merges t1 s Hm Hp) as [Hlogs Hpend].
  assert (Hm1 : isMounted (flush t1 s) = true)
    by (now rewrite flush_keeps_mounted).
  set (s1 := flush t1 s) in *.
  destruct (ingest_all_keeps again s1 Hm1) as (Hl2 & Hm2 & _ & _).
  set (s2 := ingest_all again s1) in *.
  destruct (pendingLogs s2) as [|x rest] eqn:Hp2.
  - unfold flush, flush_with, flush_sync.
    change (isMounted (setArmed false s2)) with (isMounted s2).
    change (pendingLogs (setArmed false s2)) with (pendingLogs s2).
    rewrite Hm2, Hp2. exact Hl2.
  - assert (Hne : pendingLogs s2 <> []) by (rewrite Hp2; discriminate).
    destruct (flush_merges t2 s2 Hm2 Hne) as [-> _]. rewrite Hl2.
    apply merge_known.
    + intros y Hy. subst s2.
      destruct (ingest_all_origin again s1 y Hy) as [H|(e & He & ->)].
      * rewrite Hpend in H. destruct H.
      * cbn [summary id]. now apply Hknown.
    + rewrite Hlogs. apply merge_sorted.
    + rewrite Hlogs. apply merge_bounded.
Qed.

Lemma redelivered_events_leave_view_witness :
  logs (flush (Rejected "offline")
          (ingest_all [entry "b" 200]
             (flush (Rejected "offline") one_pending)))
  = logs (flush (Rejected "offline") one_pending).
Proof.
  assert (Hp : pendingLogs one_pending <> []) by discriminate.
  refine (redelivered_events_leave_view one_pending (Rejected "offline")
            (Rejected "offline") [entry "b" 200] eq_refl Hp _).
  intros e [<-|[]]. reflexivity.
Defined.

Lemma Permutation_filter_keeps (f : ProxyRequestLog -> bool)
    (l1 l2 : list ProxyRequestLog) :
  Permutation l1 l2 -> Permutation (filter f l1) (filter f l2).
Proof.
  induction 1 as [|x l1 l2 _ IH|x y l|l1 l2 l3 _ IH1 _ IH2].
  - constructor.
  - cbn. destruct (f x); [now constructor | exact IH].
  - cbn. destruct (f x), (f y); try reflexivity. constructor.
  - now transitivity (filter f l2).
Qed.

Lemma sorted_perm_unique (l1 : list ProxyRequestLog) :
  forall l2 : list ProxyRequestLog,
  StronglySorted newer_or_equal l1 -> StronglySorted newer_or_equal l2 ->
  Permutation l1 l2 -> NoDup (map timestamp l1) -> l1 = l2.
Proof.
  induction l1 as [|x l1 IH]; intros l2 H1 H2 Hperm Hnd.
  - apply Permutation_nil in Hperm. now subst.
  - destruct l2 as [|y l2];
      [apply Permutation_sym, Permutation_nil in Hperm; discriminate|].
    inversion H1 as [|? ? H1' Hx]; subst.
    inversion H2 as [|? ? H2' Hy]; subst.
    inversion Hnd as [|? ? Hnx Hnd']; subst.
    assert (Hxy : x = y).
    { assert (Hy1 : In y (x :: l1))
        by (eapply Permutation_in;
            [apply Permutation_sym; exact Hperm | now left]).
      destruct Hy1 as [E|Hy1]; [exact E|].
      assert (Hx2 : In x (y :: l2))
        by (eapply Permutation_in; [exact Hperm | now left]).
      destruct Hx2 as [E|Hx2]; [now symmetry|].
      rewrite Forall_forall in Hx, Hy.
      pose proof (Hx y Hy1) as A. pose proof (Hy x Hx2) as B.
      unfold newer_or_equal in A, B.
      exfalso. apply Hnx. replace (timestamp x) with (timestamp y) by lia.
      now apply in_map. }
    subst y. f_equal. apply IH; try assumption.
    eapply Permutation_cons_inv. exact Hperm.
Qed.

(** With distinct timestamps the view after a flush does not depend on the
    order in which the pending entries arrived. *)
Theorem view_independent_of_arrival_order :
  forall (pending1 pending2 prev : list ProxyRequestLog),
    Permutation pending1 pending2 ->
    NoDup (map timestamp (pending1 ++ prev)) ->
    merge pending1 prev = merge pending2 prev.
Proof.
  intros p1 p2 prev Hperm Hnd. unfold merge. f_equal.
  set (f := fun l => negb (has_id (id l) prev)).
  assert (Hp : Permutation (filter f p1 ++ prev) (filter f p2 ++ prev))
    by (apply Permutation_app_tail, Permutation_filter_keeps, Hperm).
  apply sorted_perm_unique; try apply sort_sorted.
  - rewrite (sort_perm (filter f p1 ++ prev)), Hp.
    symmetry. apply sort_perm.
  - assert (Hsub : NoDup (map timestamp (filter f p1 ++ prev))).
    { rewrite map_app in *. clear Hp Hperm.
      induction p1 as [|x p1 IH]; [exact Hnd|].
      cbn in Hnd. inversion Hnd as [|? ? Hx Hnd']; subst.
      cbn [filter]. destruct (f x); [|now apply IH].
      cbn. constructor; [|now apply IH].
      intros Hin. apply Hx. apply in_app_or in Hin as [Hin|Hin];
        apply in_or_app; [left | now right].
      apply in_map_iff in Hin as (z & Hz & Hin).
      apply filter_In in Hin as [Hin _].
      apply in_map_iff. now exists z. }
    eapply Permutation_NoDup; [|exact Hsub].
    apply Permutation_map. symmetry. apply sort_perm.
Qed.

Lemma view_independent_of_arrival_order_witness :
  merge [entry "a" 100; entry "b" 200] [entry "c" 150]
  = merge [entry "b" 200; entry "a" 100] [entry "c" 150].
Proof.
  assert (Hnd : NoDup (map timestamp
                         ([entry "a" 100; entry "b" 200] ++ [entry "c" 150]))).
  { cbn. repeat constructor; cbn; intuition discriminate. }
  exact (view_independent_of_arrival_order
           [entry "a" 100; entry "b" 200] [entry "b" 200; entry "a" 100]
           [entry "c" 150] (perm_swap _ _ []) Hnd).
Defined.

(** Clearing the entries leaves the pending ones where they are: when the
    backend has cleared, the view is empty, and the next flush fills it
    with the entries that were pushed before the clear and not yet shown.
    When the backend refuses, nothing but the console changes. *)
Theorem cleared_view_refills_from_pending :
  forall (s : state) (tallies : reply (option ProxyStats * Z)),
    isMounted s = true -> pendingLogs s <> [] ->
    logs (executeClearLogs (Resolved tt) s) = []
    /\ totalCount (executeClearLogs (Resolved tt) s) = 0%Z
    /\ logs (flush tallies (executeClearLogs (Resolved tt) s))
       = firstn 100 (sort (pendingLogs s))
    /\ (forall e : string,
          logs (executeClearLogs (Rejected e) s) = logs s
          /\ stats (executeClearLogs (Rejected e) s) = stats s
          /\ totalCount (executeClearLogs (Rejected e) s) = totalCount s
          /\ pendingLogs (executeClearLogs (Rejected e) s) = pendingLogs s).
Proof.
  intros s tallies Hm Hp. split; [reflexivity|]. split; [reflexivity|].
  split; [|intros e; now repeat split].
  destruct (flush_merges tallies (executeClearLogs (Resolved tt) s) Hm Hp)
    as [-> _].
  unfold merge. cbn [executeClearLogs logs pendingLogs setTotalCount
                     setStats setLogs has_id existsb negb].
  rewrite app_nil_r. f_equal. f_equal. clear Hp.
  induction (pendingLogs s) as [|x l IH]; [reflexivity|].
  cbn. now rewrite IH.
Qed.

Lemma cleared_view_refills_from_pending_witness :
  logs (flush (Rejected "offline")
          (executeClearLogs (Resolved tt) one_pending))
  = firstn 100 (sort (pendingLogs one_pending)).
Proof.
  assert (Hp : pendingLogs one_pending <> []) by discriminate.
  exact (proj1 (proj2 (proj2
           (cleared_view_refills_from_pending one_pending
              (Rejected "offline") eq_refl Hp)))).
Defined.

End MonitorControlsProperties.

(* ------------------------------------------------------------------ *)
(** ** The debug console: bursts, deliveries, enabling and disabling *)
(* ------------------------------------------------------------------ *)

Section ConsoleRunsProperties.
Import DebugConsole ConsoleRuns.
Local Open Scope list_scope.

Lemma addLog_is_last_n (e : LogEntry) (w : world) :
  logs (addLog e w) = last_n MAX_LOGS (logs w ++ [e]).
Proof. rewrite addLog_logs. reflexivity. Qed.

Lemma last_n_absorbs (n : nat) (l r : list LogEntry) :
  last_n n (last_n n l ++ r) = last_n n (l ++ r).
Proof.
  unfold last_n. rewrite !length_app, length_skipn.
  destruct (Nat.le_gt_cases (length l) n) as [Hle|Hgt].
  - replace (length l - n) with 0 by lia. cbn [skipn].
    now rewrite Nat.sub_0_r.
  - replace (length l - (length l - n) + length r - n) with (length r)
      by lia.
    replace (length l + length r - n) with (length r + (length l - n))
      by lia.
    rewrite <- skipn_skipn. f_equal.
    rewrite skipn_app. replace (length l - n - length l) with 0 by lia.
    reflexivity.
Qed.

Lemma addLogs_logs (es : list LogEntry) :
  forall (e : LogEntry) (w : world),
  logs (addLogs es (addLog e w)) = last_n MAX_LOGS (logs w ++ e :: es).
Proof.
  induction es as [|e' es IH]; intros e w.
  - apply addLog_is_last_n.
  - change (addLogs (e' :: es) (addLog e w))
      with (addLogs es (addLog e' (addLog e w))).
    rewrite IH, addLog_is_last_n, last_n_absorbs, <- app_assoc.
    reflexivity.
Qed.

(** A burst of entries leaves the newest [MAX_LOGS] of all that were
    there and came, in their order. *)
Theorem burst_keeps_newest :
  forall (es : list LogEntry) (w : world),
    es <> [] ->
    logs (addLogs es w) = last_n MAX_LOGS (logs w ++ es)
    /\ length (logs (addLogs es w)) <= MAX_LOGS
    /\ (MAX_LOGS <= length es ->
          logs (addLogs es w) = last_n MAX_LOGS es).
Proof.
  intros es w Hes. destruct es as [|e es]; [contradiction|].
  change (addLogs (e :: es) w) with (addLogs es (addLog e w)).
  rewrite addLogs_logs. split; [reflexivity|]. split.
  - unfold last_n. rewrite length_skipn. lia.
  - intros Hlen. unfold last_n. rewrite length_app.
    replace (length (logs w) + length (e :: es) - MAX_LOGS)
      with (length (e :: es) - MAX_LOGS + length (logs w)) by lia.
    rewrite <- skipn_skipn. f_equal.
    rewrite skipn_app, Nat.sub_diag, skipn_all. reflexivity.
Qed.

Lemma burst_keeps_newest_witness :
  logs (addLogs [sample_entry; sample_entry] initial)
  = last_n MAX_LOGS (logs initial ++ [sample_entry; sample_entry]).
Proof.
  assert (H : [sample_entry; sample_entry] <> []) by discriminate.
  exact (proj1 (burst_keeps_newest [sample_entry; sample_entry] initial H)).
Defined.

Lemma deliver_is_burst (e : LogEntry) (w : world) :
  deliver e w = addLogs (repeat e (length (handlers w))) w.
Proof.
  unfold deliver, addLogs. generalize (handlers w) as hs. intros hs.
  revert w. induction hs as [|h hs IH]; intros w; [reflexivity|].
  cbn [fold_left length repeat]. apply IH.
Qed.

Lemma deliver_logs (e : LogEntry) (w : world) :
  handlers w <> [] ->
  logs (deliver e w)
  = last_n MAX_LOGS (logs w ++ repeat e (length (handlers w))).
Proof.
  intros Hh. rewrite deliver_is_burst.
  destruct (handlers w) as [|h hs]; [contradiction|].
  cbn [length repeat].
  change (addLogs (e :: repeat e (length hs)) w)
    with (addLogs (repeat e (length hs)) (addLog e w)).
  apply addLogs_logs.
Qed.

(** One event is appended once for every handler that is registered: with
    two handlers the entry appears twice.  The copies are all there while
    the view has room for them. *)
Theorem event_appended_once_per_handler :
  forall (e : LogEntry) (w : world),
    handlers w <> [] ->
    logs (deliver e w)
    = last_n MAX_LOGS (logs w ++ repeat e (length (handlers w)))
    /\ (length (logs w) + length (handlers w) <= MAX_LOGS ->
          logs (deliver e w) = logs w ++ repeat e (length (handlers w))).
Proof.
  intros e w Hh. rewrite (deliver_logs e w Hh). split; [reflexivity|].
  intros Hroom. unfold last_n. rewrite length_app, repeat_length.
  replace (length (logs w) + length (handlers w) - MAX_LOGS) with 0 by lia.
  reflexivity.
Qed.

Lemma event_appended_once_per_handler_witness :
  logs (deliver sample_entry (overlapping_listens initial))
  = last_n MAX_LOGS
      (logs (overlapping_listens initial)
       ++ repeat sample_entry
            (length (handlers (overlapping_listens initial)))).
Proof.
  assert (H : handlers (overlapping_listens initial) <> []) by discriminate.
  exact (proj1 (event_appended_once_per_handler sample_entry
                  (overlapping_listens initial) H)).
Defined.

Lemma addLog_next (e : LogEntry) (w : world) : next (addLog e w) = next w.
Proof. unfold addLog. now destruct (Nat.ltb _ _). Qed.

Lemma deliver_next (e : LogEntry) (w : world) : next (deliver e w) = next w.
Proof.
  unfold deliver. generalize (handlers w) as hs. intros hs. revert w.
  induction hs as [|h hs IH]; intros w; [reflexivity|].
  cbn [fold_left]. now rewrite IH, addLog_next.
Qed.

Lemma fresh_weaken (hs : list positive) (n m : positive) :
  (n <= m)%positive ->
  Forall (fun h => (h < n)%positive) hs ->
  Forall (fun h => (h < m)%positive) hs.
Proof.
  intros Hnm H. eapply Forall_impl; [|exact H]. cbn. intros h Hh. lia.
Qed.

Lemma fresh_filter (f : positive -> bool) (hs : list positive) (n : positive) :
  Forall (fun h => (h < n)%positive) hs ->
  Forall (fun h => (h < n)%positive) (filter f hs).
Proof.
  intros H. rewrite Forall_forall in *. intros h Hh.
  apply filter_In in Hh as [Hh _]. now apply H.
Qed.

Lemma step_fresh (isTauri : bool) (w w' : world) :
  step isTauri w w' -> handlers_fresh w -> handlers_fresh w'.
Proof.
  unfold handlers_fresh.
  intros Hstep Hf.
  destruct Hstep as [w _|w|w|w _|w _|w|b w|b w|l w|e w _];
    try exact Hf.
  - unfold startPolling. destruct (polling w); [exact Hf|]. cbn.
    eapply fresh_weaken; [|exact Hf]. lia.
  - unfold stopPolling. destruct (pollInterval w) as [i|]; [|exact Hf].
    now destruct (i =? 0)%Z.
  - unfold startListening. destruct (negb isTauri); [exact Hf|].
    now destruct (unlistenFn w).
  - cbn. constructor; [lia|]. eapply fresh_weaken; [|exact Hf]. lia.
  - unfold stopListening. destruct (unlistenFn w) as [h|]; [|exact Hf].
    cbn. now apply fresh_filter.
  - destruct (deliver_subscription e w) as (_ & _ & -> & _).
    now rewrite deliver_next.
Qed.

Lemma reachable_fresh (isTauri : bool) (w : world) :
  reachable isTauri w -> handlers_fresh w.
Proof.
  induction 1 as [|w w' _ IH Hstep]; [constructor|].
  exact (step_fresh _ _ _ Hstep IH).
Qed.

Lemma filter_fresh (hs : list positive) (n : positive) :
  Forall (fun h => (h < n)%positive) hs ->
  filter (fun x => negb (Pos.eqb x n)) hs = hs.
Proof.
  induction 1 as [|h hs Hh _ IH]; [reflexivity|].
  cbn [filter]. replace (Pos.eqb h n) with false
    by (symmetry; apply Pos.eqb_neq; lia).
  cbn [negb]. now rewrite IH.
Qed.

(** Two calls of [startListening] that overlap both register a handler,
    and only the second handle is stored: [stopListening] then removes one
    handler and leaves the other registered with no handle to remove it
    by, so that events keep being appended. *)
Theorem overlapping_listens_leave_a_handler :
  forall (w : world) (e : LogEntry),
    reachable true w -> unlistenFn w = None ->
    let w2 := overlapping_listens w in
    reachable true w2
    /\ handlers w2 = Pos.succ (next w) :: next w :: handlers w
    /\ unlistenFn (stopListening w2) = None
    /\ handlers (stopListening w2) = next w :: handlers w
    /\ startListening true (stopListening w2)
       <> stopListening w2
    /\ exists older,
         logs (deliver e (stopListening w2)) = older ++ [e].
Proof.
  intros w e Hr Hu w2.
  pose proof (reachable_fresh _ _ Hr) as Hfresh. unfold handlers_fresh in Hfresh.
  assert (Hs1 : startListening true w
                = {| isOpen := isOpen w; isEnabled := isEnabled w;
                     logs := logs w; unlistenFn := None;
                     pollInterval := pollInterval w; timers := timers w;
                     handlers := handlers w; awaiting := S (awaiting w);
                     next := next w |})
    by (unfold startListening; cbn; now rewrite Hu).
  assert (Hr2 : reachable true w2).
  { subst w2. unfold overlapping_listens.
    eapply reach_step; [eapply reach_step; [eapply reach_step;
      [eapply reach_step; [exact Hr | constructor] | constructor]
      | constructor] | constructor].
    - rewrite Hs1. cbn. lia.
    - rewrite Hs1. cbn. lia. }
  split; [exact Hr2|].
  assert (Hh2 : handlers w2 = Pos.succ (next w) :: next w :: handlers w)
    by (subst w2; unfold overlapping_listens; rewrite Hs1; reflexivity).
  assert (Hu2 : unlistenFn w2 = Some (Pos.succ (next w)))
    by (subst w2; unfold overlapping_listens; rewrite Hs1; reflexivity).
  split; [exact Hh2|].
  assert (Hstop : handlers (stopListening w2) = next w :: handlers w).
  { unfold stopListening. rewrite Hu2. cbn [handlers]. rewrite Hh2.
    cbn [filter]. rewrite Pos.eqb_refl. cbn [negb].
    replace (Pos.eqb (next w) (Pos.succ (next w))) with false
      by (symmetry; apply Pos.eqb_neq; lia).
    cbn [negb]. f_equal. apply filter_fresh.
    eapply fresh_weaken; [|exact Hfresh]. lia. }
  assert (Hnone : unlistenFn (stopListening w2) = None)
    by (unfold stopListening; now rewrite Hu2).
  split; [exact Hnone|]. split; [exact Hstop|]. split.
  - unfold startListening. cbn [negb]. rewrite Hnone.
    intros Heq. apply (f_equal awaiting) in Heq. cbn in Heq. lia.
  - rewrite deliver_logs by (rewrite Hstop; discriminate).
    rewrite Hstop. cbn [length repeat].
    unfold last_n.
    set (l := logs (stopListening w2) ++ e :: repeat e (length (handlers w))).
    assert (Hl : exists pre, l = pre ++ [e]).
    { subst l.
      exists (logs (stopListening w2) ++ repeat e (length (handlers w))).
      now rewrite repeat_cons, app_assoc. }
    destruct Hl as [pre Hpre]. rewrite Hpre, length_app. cbn [length].
    pose proof MAX_LOGS_ge_2 as Hmax.
    exists (skipn (length pre + 1 - MAX_LOGS) pre).
    rewrite skipn_app.
    replace (length pre + 1 - MAX_LOGS - length pre) with 0 by lia.
    reflexivity.
Qed.

Lemma overlapping_listens_leave_a_handler_witness :
  handlers (stopListening (overlapping_listens initial)) = [1%positive].
Proof.
  exact (proj1 (proj2 (proj2 (proj2
           (overlapping_listens_leave_a_handler initial sample_entry
              (reach_initial true) eq_refl))))).
Defined.

End ConsoleRunsProperties.

(* ------------------------------------------------------------------ *)
(** ** The account service and the configuration store *)
(* ------------------------------------------------------------------ *)

Section ServiceProperties.
Import Js Dispatcher Transport Services.

(** [listAccounts] never resolves to a falsy value: an array wrapped as
    [{accounts: [...]}] is unwrapped, a falsy answer becomes the empty
    array, and what it returns it would return again unchanged.  A
    rejection is passed on. *)
Theorem listAccounts_normalises :
  (forall v : jsval,
     truthy (accounts_of v) = true
     /\ accounts_of (accounts_of v) = accounts_of v
     /\ (truthy v = false -> accounts_of v = JArr []))
  /\ (forall (fields : obj) (items : list jsval),
        get fields "accounts" = JArr items ->
        listAccounts (Returns (JObj fields)) = Returns (JArr items))
  /\ (forall e : thrown, listAccounts (Rejects e) = Rejects e).
Proof.
  split; [|split].
  - intros v. destruct v as [| |b|n|s|items|fields]; cbn;
      try (now repeat split).
    + destruct b; now repeat split.
    + destruct (n =? 0)%Z eqn:E; cbn; rewrite ?E; now repeat split.
    + destruct (String.eqb s "") eqn:E; cbn; rewrite ?E; now repeat split.
    + destruct (get fields "accounts") eqn:E; cbn; rewrite ?E;
        now repeat split.
  - intros fields items H. cbn. now rewrite H.
  - reflexivity.
Qed.

Lemma listAccounts_normalises_witness :
  listAccounts (Returns (JObj [("accounts", JArr [JStr "a"])]))
  = Returns (JArr [JStr "a"]).
Proof.
  exact (proj1 (proj2 listAccounts_normalises)
           [("accounts", JArr [JStr "a"])] [JStr "a"] eq_refl).
Defined.

End ServiceProperties.

Section ConfigStoreProperties.
Import ConfigStore.
Local Open Scope list_scope.

Lemma includes_item_app (q : string) (l1 l2 : list string) :
  includes_item q (l1 ++ l2) = includes_item q l1 || includes_item q l2.
Proof. unfold includes_item. apply existsb_app. Qed.

Lemma includes_item_removed (q path : string) (l : list string) :
  includes_item q (filter (fun item => negb (String.eqb item path)) l)
  = includes_item q l && negb (String.eqb q path).
Proof.
  unfold includes_item. induction l as [|x l IH]; [reflexivity|].
  cbn [filter existsb]. destruct (String.eqb x path) eqn:Ex; cbn [negb].
  - apply String.eqb_eq in Ex. subst x. rewrite IH.
    destruct (String.eqb q path); cbn; [now rewrite !andb_false_r|].
    reflexivity.
  - cbn [existsb]. rewrite IH.
    destruct (String.eqb q x) eqn:Eq; cbn; [|reflexivity].
    apply String.eqb_eq in Eq. subst x. now rewrite Ex.
Qed.

(** Toggling a menu item flips whether that item is hidden and leaves
    every other item, the theme and the language as they were, once the
    configuration is saved; when saving fails the configuration stays and
    the error is recorded and rethrown. *)
Theorem toggleMenuItem_flips_one_item :
  forall (path : string) (st : ConfigState) (c : AppConfig),
    config st = Some c ->
    (let st' := fst (toggleMenuItem path Saved st) in
     isMenuItemHidden path st' = negb (isMenuItemHidden path st)
     /\ (forall other : string,
           other <> path ->
           isMenuItemHidden other st' = isMenuItemHidden other st)
     /\ (exists c', config st' = Some c'
                    /\ theme c' = theme c /\ language c' = language c
                    /\ other_settings c' = other_settings c)
     /\ snd (toggleMenuItem path Saved st) = None)
    /\ (forall msg : string,
          config (fst (toggleMenuItem path (SaveFailed msg) st)) = Some c
          /\ error (fst (toggleMenuItem path (SaveFailed msg) st)) = Some msg
          /\ snd (toggleMenuItem path (SaveFailed msg) st) = Some msg).
Proof.
  intros path st c Hc. split.
  - unfold toggleMenuItem, isMenuItemHidden. rewrite Hc.
    cbn [saveConfig fst snd config hiddenItems hidden_menu_items].
    split; [|split; [|split]].
    + destruct (includes_item path (hiddenItems c)) eqn:E.
      * rewrite includes_item_removed, String.eqb_refl. cbn.
        now rewrite andb_false_r.
      * rewrite includes_item_app. cbn. rewrite String.eqb_refl.
        now rewrite orb_true_r.
    + intros other Hne. apply String.eqb_neq in Hne.
      destruct (includes_item path (hiddenItems c)).
      * rewrite includes_item_removed, Hne. cbn. apply andb_true_r.
      * rewrite includes_item_app. cbn. rewrite Hne. cbn.
        now rewrite orb_false_r.
    + eexists. split; [reflexivity|]. now repeat split.
    + reflexivity.
  - intros msg. unfold toggleMenuItem. rewrite Hc. cbn.
    now repeat split.
Qed.

Lemma toggleMenuItem_flips_one_item_witness :
  isMenuItemHidden "/settings"
    (fst (toggleMenuItem "/settings" Saved
            {| config := Some {| theme := "dark"; language := "en";
                                 hidden_menu_items := None;
                                 other_settings := [] |};
               loading := false; error := None; showAllQuotas := false;
               stored_show_all := None |}))
  = true.
Proof.
  exact (proj1 (proj1 (toggleMenuItem_flips_one_item "/settings"
           {| config := Some {| theme := "dark"; language := "en";
                                hidden_menu_items := None;
                                other_settings := [] |};
              loading := false; error := None; showAllQuotas := false;
              stored_show_all := None |}
           {| theme := "dark"; language := "en";
              hidden_menu_items := None; other_settings := [] |}
           eq_refl))).
Defined.

(** Once the quota switch has been toggled, a store created anew over the
    same storage starts with the value the switch was left at; and [n]
    toggles leave the switch where it was when [n] is even. *)
Theorem showAllQuotas_survives_reload :
  forall (n : nat) (st : ConfigState),
    0 < n ->
    showAllQuotas (create (stored_show_all (toggles n st)))
    = showAllQuotas (toggles n st)
    /\ showAllQuotas (toggles n st)
       = if Nat.even n then showAllQuotas st else negb (showAllQuotas st).
Proof.
  intros n st Hn.
  assert (Hpar : forall k s,
            showAllQuotas (toggles k s)
            = if Nat.even k then showAllQuotas s
              else negb (showAllQuotas s)).
  { intros k. induction k as [k IH] using lt_wf_ind. intros s.
    destruct k as [|[|k]]; [reflexivity | reflexivity |].
    change (toggles (S (S k)) s)
      with (toggles k (toggleShowAllQuotas (toggleShowAllQuotas s))).
    rewrite IH by lia. cbn [Nat.even toggleShowAllQuotas showAllQuotas].
    now rewrite negb_involutive. }
  split; [|apply Hpar].
  assert (Hsync : forall k s,
            stored_show_all s
            = Some (if showAllQuotas s then "true" else "false")%string ->
            stored_show_all (toggles k s)
            = Some (if showAllQuotas (toggles k s)
                    then "true" else "false")%string).
  { intros k. induction k as [|k IH]; intros s Hs; [exact Hs|].
    cbn [toggles]. apply IH. reflexivity. }
  destruct n as [|n]; [lia|]. cbn [toggles].
  rewrite (Hsync n (toggleShowAllQuotas st) eq_refl).
  unfold create. cbn [showAllQuotas].
  now destruct (showAllQuotas (toggles n (toggleShowAllQuotas st))).
Qed.

Lemma showAllQuotas_survives_reload_witness :
  showAllQuotas (create (stored_show_all (toggles 3 (create None))))
  = showAllQuotas (toggles 3 (create None)).
Proof.
  assert (H : 0 < 3) by lia.
  exact (proj1 (showAllQuotas_survives_reload 3 (create None) H)).
Defined.

End ConfigStoreProperties.

(* ------------------------------------------------------------------ *)
(** ** The accounts page: tabs, pages, selection, import *)
(* ------------------------------------------------------------------ *)

Section AccountsPageProperties.
Import Js AccountsPage.
Local Open Scope list_scope.

(** The page size is at least one whatever the settings and the measured
    container are, and a positive size chosen on the page wins over the
    configured one. *)
Theorem page_size_is_positive :
  forall (localPageSize config_page_size : option Z) (width height : Z)
         (viewMode : ViewMode),
    (1 <= ITEMS_PER_PAGE localPageSize config_page_size width height
            viewMode)%Z
    /\ (forall n : Z,
          localPageSize = Some n -> (0 < n)%Z ->
          ITEMS_PER_PAGE localPageSize config_page_size width height
            viewMode = n).
Proof.
  intros lp cp width height viewMode. split.
  - unfold ITEMS_PER_PAGE.
    destruct lp as [n|]; [destruct (0 <? n)%Z eqn:E;
      [apply Z.ltb_lt in E; lia|]|];
    (destruct cp as [m|]; [destruct (0 <? m)%Z eqn:E';
      [apply Z.ltb_lt in E'; lia|]|]);
    (destruct (height =? 0)%Z; [destruct viewMode; lia|]);
    (destruct viewMode; [lia|]);
    destruct (1200 <=? width)%Z, (900 <=? width)%Z, (600 <=? width)%Z;
    nia.
  - intros n -> Hn. unfold ITEMS_PER_PAGE.
    apply Z.ltb_lt in Hn. now rewrite Hn.
Qed.

Lemma page_size_is_positive_witness :
  ITEMS_PER_PAGE (Some 20%Z) (Some 50%Z) 1280 720 grid_mode = 20%Z.
Proof.
  assert (H : (0 < 20)%Z) by lia.
  exact (proj2 (page_size_is_positive (Some 20%Z) (Some 50%Z) 1280 720
                  grid_mode) 20%Z eq_refl H).
Defined.

Lemma filter_length_le {A : Type} (f : A -> bool) (l : list A) :
  length (filter f l) <= length l.
Proof.
  induction l as [|x l IH]; [constructor|].
  cbn. destruct (f x); cbn; lia.
Qed.

Lemma filter_disjoint_length {A : Type} (f g : A -> bool) (l : list A) :
  (forall x, f x = true -> g x = false) ->
  length (filter f l) + length (filter g l) <= length l.
Proof.
  intros H. induction l as [|x l IH]; [constructor|].
  cbn. destruct (f x) eqn:Ef; [rewrite (H x Ef)|destruct (g x)]; cbn; lia.
Qed.

Lemma free_excludes (toLowerCase : string -> string) (a : Account) :
  is_free toLowerCase a = true ->
  tier_has toLowerCase "pro" a = false
  /\ tier_has toLowerCase "ultra" a = false.
Proof.
  unfold is_free, tier_has. destruct (subscription_tier a) as [t|];
    [|discriminate].
  intros H. apply andb_true_iff in H as [H Hu].
  apply andb_true_iff in H as [_ Hp].
  apply negb_true_iff in Hu, Hp. now split.
Qed.

(** The tabs agree with their counters, and the free tab shares no
    account with the pro tab or the ultra tab: each counter is the length
    of the list its tab shows, every tab shows accounts of the search
    result only, and the free counter together with the pro or the ultra
    counter does not exceed the number of accounts found. *)
Theorem tabs_agree_with_counters :
  forall (toLowerCase : string -> string) (searched : list Account),
    let counters := filterCounts toLowerCase searched in
    length (filteredAccounts toLowerCase all searched) = count_all counters
    /\ length (filteredAccounts toLowerCase pro searched)
       = count_pro counters
    /\ length (filteredAccounts toLowerCase ultra searched)
       = count_ultra counters
    /\ length (filteredAccounts toLowerCase free searched)
       = count_free counters
    /\ (forall (f : FilterType) (a : Account),
          In a (filteredAccounts toLowerCase f searched) -> In a searched)
    /\ (forall a : Account,
          In a (filteredAccounts toLowerCase free searched) ->
          ~ In a (filteredAccounts toLowerCase pro searched)
          /\ ~ In a (filteredAccounts toLowerCase ultra searched))
    /\ count_pro counters + count_free counters <= count_all counters
    /\ count_ultra counters + count_free counters <= count_all counters.
Proof.
  intros toLowerCase searched counters. subst counters.
  cbn [filteredAccounts filterCounts count_all count_pro count_ultra
       count_free].
  do 4 (split; [reflexivity|]).
  split; [|split; [|split]].
  - intros f a H. destruct f; cbn [filteredAccounts] in H; [exact H| | |];
      apply filter_In in H; tauto.
  - intros a H. apply filter_In in H as [_ Hf].
    destruct (free_excludes _ _ Hf) as [Hp Hu].
    split; intros Hin; apply filter_In in Hin as [_ Hin]; congruence.
  - rewrite Nat.add_comm. apply filter_disjoint_length.
    intros x Hx. now destruct (free_excludes _ _ Hx).
  - rewrite Nat.add_comm. apply filter_disjoint_length.
    intros x Hx. now destruct (free_excludes _ _ Hx).
Qed.

Lemma tabs_agree_with_counters_witness :
  ~ In {| id := "a"; email := "a@x"; subscription_tier := Some "free" |}
       (filteredAccounts (fun s => s) pro
          [ {| id := "a"; email := "a@x";
               subscription_tier := Some "free" |} ]).
Proof.
  assert (H : In {| id := "a"; email := "a@x";
                    subscription_tier := Some "free" |}
                (filteredAccounts (fun s => s) free
                   [ {| id := "a"; email := "a@x";
                        subscription_tier := Some "free" |} ]))
    by (left; reflexivity).
  exact (proj1 (proj1 (proj2 (proj2 (proj2 (proj2 (proj2
           (tabs_agree_with_counters (fun s => s)
              [ {| id := "a"; email := "a@x";
                   subscription_tier := Some "free" |} ]))))))
           _ H)).
Defined.

Lemma slice_nonneg {A : Type} (l : list A) (a b : nat) :
  slice l (Z.of_nat a) (Z.of_nat a + Z.of_nat b) = firstn b (skipn a l).
Proof.
  unfold slice.
  replace (Z.of_nat a <? 0)%Z with false by (symmetry; apply Z.ltb_ge; lia).
  replace (Z.of_nat a + Z.of_nat b <? 0)%Z with false
    by (symmetry; apply Z.ltb_ge; lia).
  destruct (Z.leb_spec (Z.min (Z.of_nat a + Z.of_nat b) (Z.of_nat (length l)))
              (Z.min (Z.of_nat a) (Z.of_nat (length l)))) as [Hle|Hlt].
  - assert (H : b = 0 \/ length l <= a) by lia.
    destruct H as [->|H]; [reflexivity|].
    rewrite skipn_all2 by exact H. now rewrite firstn_nil.
  - rewrite (Z.min_l (Z.of_nat a)) by lia. rewrite Nat2Z.id.
    destruct (Z.le_ge_cases (Z.of_nat a + Z.of_nat b) (Z.of_nat (length l)))
      as [H|H].
    + rewrite Z.min_l by lia. f_equal. lia.
    + rewrite Z.min_r by lia.
      rewrite !firstn_all2; [reflexivity | |]; rewrite length_skipn; lia.
Qed.

Lemma page_as_firstn (l : list Account) (n p : Z) :
  (0 < n)%Z -> (1 <= p)%Z ->
  paginatedAccounts p n l
  = firstn (Z.to_nat n) (skipn (Z.to_nat ((p - 1) * n)) l).
Proof.
  intros Hn Hp. unfold paginatedAccounts.
  rewrite <- (slice_nonneg l (Z.to_nat ((p - 1) * n)) (Z.to_nat n)).
  rewrite !Z2Nat.id by nia. reflexivity.
Qed.

Lemma firstn_add_skipn {A : Type} (a b : nat) :
  forall l : list A, firstn (a + b) l = firstn a l ++ firstn b (skipn a l).
Proof.
  induction a as [|a IH]; intros l; [reflexivity|].
  destruct l as [|x l]; [now rewrite !firstn_nil|].
  cbn. now rewrite IH.
Qed.

Lemma pages_concat (l : list Account) (n : Z) (k : nat) :
  (0 < n)%Z ->
  concat (map (fun p => paginatedAccounts (Z.of_nat p) n l) (seq 1 k))
  = firstn (k * Z.to_nat n) l.
Proof.
  intros Hn. induction k as [|k IH]; [reflexivity|].
  rewrite seq_S, map_app, concat_app, IH. cbn [map concat].
  rewrite app_nil_r, page_as_firstn by lia.
  replace (Z.to_nat ((Z.of_nat (1 + k) - 1) * n)) with (k * Z.to_nat n)
    by nia.
  rewrite <- firstn_add_skipn. f_equal. lia.
Qed.

Lemma In_firstn_any {A : Type} (n : nat) (l : list A) (x : A) :
  In x (firstn n l) -> In x l.
Proof.
  intros H. rewrite <- (firstn_skipn n l). apply in_or_app. now left.
Qed.

Lemma In_skipn_any {A : Type} (n : nat) (l : list A) (x : A) :
  In x (skipn n l) -> In x l.
Proof.
  intros H. rewrite <- (firstn_skipn n l). apply in_or_app. now right.
Qed.

(** The pages of the accounts list tile it: page [p] holds the entries
    from position [(p - 1) * n] on, at most [n] of them, it is empty
    exactly beyond the last page, and the pages from 1 to the number of
    pages the pager shows, put one after the other, are the whole list. *)
Theorem account_pages_tile_the_list :
  forall (filtered : list Account) (itemsPerPage : Z),
    (0 < itemsPerPage)%Z ->
    (forall p : Z, (1 <= p)%Z ->
       length (paginatedAccounts p itemsPerPage filtered)
         <= Z.to_nat itemsPerPage
       /\ (paginatedAccounts p itemsPerPage filtered = []
           <-> (Z.of_nat (length filtered) <= (p - 1) * itemsPerPage)%Z)
       /\ forall a : Account,
            In a (paginatedAccounts p itemsPerPage filtered) ->
            In a filtered)
    /\ concat (map (fun p => paginatedAccounts (Z.of_nat p) itemsPerPage
                               filtered)
                 (seq 1 (Z.to_nat
                           (MonitorControls.ceil_div
                              (Z.of_nat (length filtered)) itemsPerPage))))
       = filtered.
Proof.
  intros l n Hn. split.
  - intros p Hp. rewrite page_as_firstn by assumption. split; [|split].
    + rewrite length_firstn. lia.
    + split.
      * intros H. apply (f_equal (@length Account)) in H.
        rewrite length_firstn, length_skipn in H. cbn in H. nia.
      * intros H. rewrite skipn_all2 by nia. apply firstn_nil.
    + intros a Ha. apply In_firstn_any in Ha.
      eapply In_skipn_any. exact Ha.
  - rewrite pages_concat by assumption. apply firstn_all2.
    pose proof (ceil_div_bounds (Z.of_nat (length l)) n Hn) as Hb.
    nia.
Qed.

Lemma account_pages_tile_the_list_witness :
  length (paginatedAccounts 2 2
            [ {| id := "a"; email := "a@x"; subscription_tier := None |};
              {| id := "b"; email := "b@x"; subscription_tier := None |};
              {| id := "c"; email := "c@x"; subscription_tier := None |} ])
  <= Z.to_nat 2.
Proof.
  assert (H1 : (0 < 2)%Z) by lia.
  assert (H2 : (1 <= 2)%Z) by lia.
  exact (proj1 (proj1 (account_pages_tile_the_list
           [ {| id := "a"; email := "a@x"; subscription_tier := None |};
             {| id := "b"; email := "b@x"; subscription_tier := None |};
             {| id := "c"; email := "c@x"; subscription_tier := None |} ]
           2 H1) 2%Z H2)).
Defined.

End AccountsPageProperties.

Section SelectionAndImport.
Import Js AccountsPage.
Local Open Scope list_scope.

Lemma set_has_add (s : list string) (y x : string) :
  set_has (set_add s y) x = set_has s x || String.eqb x y.
Proof.
  unfold set_add. destruct (set_has s y) eqn:E.
  - destruct (String.eqb x y) eqn:Exy; [|now rewrite orb_false_r].
    apply String.eqb_eq in Exy. subst x. now rewrite E.
  - unfold set_has. rewrite existsb_app. cbn. now rewrite orb_false_r.
Qed.

Lemma set_has_delete (s : list string) (y x : string) :
  set_has (set_delete s y) x = set_has s x && negb (String.eqb x y).
Proof.
  unfold set_has, set_delete. induction s as [|z s IH]; [reflexivity|].
  cbn [filter existsb]. destruct (String.eqb z y) eqn:Ez; cbn [negb].
  - apply String.eqb_eq in Ez. subst z. rewrite IH.
    destruct (String.eqb x y); cbn; [now rewrite andb_false_r|reflexivity].
  - cbn [existsb]. rewrite IH.
    destruct (String.eqb x z) eqn:Exz; cbn; [|reflexivity].
    apply String.eqb_eq in Exz. subst z. now rewrite Ez.
Qed.

Lemma set_has_add_all (ids : list string) :
  forall (s : list string) (x : string),
  set_has (fold_left set_add ids s) x
  = set_has s x || existsb (String.eqb x) ids.
Proof.
  induction ids as [|y ids IH]; intros s x; cbn [fold_left existsb].
  - now rewrite orb_false_r.
  - rewrite IH, set_has_add. now rewrite orb_assoc.
Qed.

Lemma set_has_delete_all (ids : list string) :
  forall (s : list string) (x : string),
  set_has (fold_left set_delete ids s) x
  = set_has s x && negb (existsb (String.eqb x) ids).
Proof.
  induction ids as [|y ids IH]; intros s x; cbn [fold_left existsb].
  - now rewrite andb_true_r.
  - rewrite IH, set_has_delete, negb_orb. now rewrite andb_assoc.
Qed.

(** The checkbox of a row flips that row only.  The checkbox of the page
    leaves every row of the page in the same state, selected unless all of
    them were, and rows of other pages as they are; used twice in a row on
    a page that has rows, it ends with no row of the page selected. *)
Theorem selection_toggles :
  forall (selectedIds currentIds : list string),
    (forall id x : string,
       set_has (handleToggleSelect id selectedIds) x
       = if String.eqb x id then negb (set_has selectedIds id)
         else set_has selectedIds x)
    /\ (forall x : string,
          In x currentIds ->
          set_has (handleToggleAll currentIds selectedIds) x
          = negb (forallb (set_has selectedIds) currentIds))
    /\ (forall x : string,
          ~ In x currentIds ->
          set_has (handleToggleAll currentIds selectedIds) x
          = set_has selectedIds x)
    /\ (forall x : string,
          In x currentIds ->
          forallb (set_has selectedIds) currentIds = false ->
          set_has (handleToggleAll currentIds
                     (handleToggleAll currentIds selectedIds)) x = false).
Proof.
  intros sel cur.
  assert (Hin : forall x, In x cur -> existsb (String.eqb x) cur = true).
  { intros x Hx. apply existsb_exists. exists x.
    split; [exact Hx | apply String.eqb_refl]. }
  assert (Hout : forall x, ~ In x cur -> existsb (String.eqb x) cur = false).
  { intros x Hx. apply not_true_is_false. intros H.
    apply existsb_exists in H as (y & Hy & E).
    apply String.eqb_eq in E. now subst y. }
  assert (Hall : forall x, In x cur ->
            set_has (handleToggleAll cur sel) x
            = negb (forallb (set_has sel) cur)).
  { intros x Hx. unfold handleToggleAll.
    destruct (forallb (set_has sel) cur) eqn:E.
    - rewrite set_has_delete_all, (Hin x Hx). apply andb_false_r.
    - rewrite set_has_add_all, (Hin x Hx). apply orb_true_r. }
  split; [|split; [|split]].
  - intros id x. unfold handleToggleSelect.
    destruct (set_has sel id) eqn:E.
    + rewrite set_has_delete. destruct (String.eqb x id) eqn:Ex; cbn.
      * apply andb_false_r.
      * apply andb_true_r.
    + rewrite set_has_add. destruct (String.eqb x id) eqn:Ex; cbn.
      * apply orb_true_r.
      * apply orb_false_r.
  - exact Hall.
  - intros x Hx. unfold handleToggleAll.
    destruct (forallb (set_has sel) cur).
    + rewrite set_has_delete_all, (Hout x Hx). apply andb_true_r.
    + rewrite set_has_add_all, (Hout x Hx). apply orb_false_r.
  - intros x Hx Hsome.
    assert (Hnow : forallb (set_has (handleToggleAll cur sel)) cur = true).
    { apply forallb_forall. intros y Hy. rewrite (Hall y Hy), Hsome.
      reflexivity. }
    unfold handleToggleAll at 1. rewrite Hnow.
    rewrite set_has_delete_all, (Hin x Hx). apply andb_false_r.
Qed.

Lemma selection_toggles_witness :
  set_has (handleToggleAll ["a"; "b"] ["a"]) "b"
  = negb (forallb (set_has ["a"]) ["a"; "b"]).
Proof.
  assert (H : In "b" ["a"; "b"]) by (right; left; reflexivity).
  exact (proj1 (proj2 (selection_toggles ["a"] ["a"; "b"])) "b" H).
Defined.

Lemma validEntries_null (items : list jsval) :
  (exists item, In item items /\ (item = JNull \/ item = JUndefined)) ->
  validEntries items = None.
Proof.
  intros (item & Hin & Hnull). induction items as [|x items IH]; [destruct Hin|].
  cbn [validEntries]. destruct Hin as [->|Hin].
  - now destruct Hnull as [->| ->].
  - rewrite (IH Hin). now destruct (valid_entry x).
Qed.

(** A file that does not parse, is not an array, is an empty array or
    holds no valid entry ends with the invalid-format toast and no call;
    an array with a [null] entry throws instead, without a call. *)
Theorem import_rejects_without_calls :
  forall (addAccount : nat -> jsval -> jsval -> bool),
    processImportData addAccount None = ([], Toast InvalidFormat)
    /\ processImportData addAccount (Some (JArr []))
       = ([], Toast InvalidFormat)
    /\ (forall v : jsval,
          (forall items, v <> JArr items) ->
          processImportData addAccount (Some v) = ([], Toast InvalidFormat))
    /\ (forall items : list jsval,
          validEntries items = Some [] ->
          processImportData addAccount (Some (JArr items))
          = ([], Toast InvalidFormat))
    /\ (forall items : list jsval,
          (exists item, In item items
                        /\ (item = JNull \/ item = JUndefined)) ->
          processImportData addAccount (Some (JArr items)) = ([], Throws)).
Proof.
  intros addAccount. split; [reflexivity|]. split; [reflexivity|].
  split; [|split].
  - intros v Hv. destruct v as [| |b|n|str|items|fields]; try reflexivity.
    now elim (Hv items).
  - intros items H. unfold processImportData.
    destruct items; [reflexivity|]. now rewrite H.
  - intros items H. unfold processImportData.
    destruct items as [|x items]; [destruct H as (item & [] & _)|].
    now rewrite (validEntries_null _ H).
Qed.

Lemma import_rejects_without_calls_witness :
  processImportData (fun _ _ _ => true)
    (Some (JArr [JObj [("refresh_token", JStr "1//abc")]; JNull]))
  = ([], Throws).
Proof.
  refine (proj2 (proj2 (proj2 (proj2
            (import_rejects_without_calls (fun _ _ _ => true)))))
            [JObj [("refresh_token", JStr "1//abc")]; JNull] _).
  exists JNull. split; [right; left; reflexivity | left; reflexivity].
Defined.

End SelectionAndImport.

(* ------------------------------------------------------------------ *)
(** ** The request-log monitor: what a flush installs, what a pull leaves *)
(* ------------------------------------------------------------------ *)

Section MonitorReconciliation.
Import Monitor.
Local Open Scope list_scope.

Lemma has_id_false (i : string) (l : list ProxyRequestLog) :
  has_id i l = false <-> forall x, In x l -> id x <> i.
Proof.
  split.
  - intros H x Hx E. apply not_true_iff_false in H. apply H.
    apply has_id_In. rewrite <- E. now apply in_map.
  - intros H. apply not_true_iff_false. intros E.
    apply has_id_In, in_map_iff in E as (x & E & Hx). exact (H x Hx E).
Qed.

(** The updater of the flush, said without its code: the new view and what
    it drops are together the old view and the pending entries whose ids
    the old view lacks; nothing dropped is newer than anything kept; and
    exactly the excess over 100 is dropped. *)
Lemma merge_characterised (pending prev : list ProxyRequestLog) :
  exists dropped,
    Permutation (merge pending prev ++ dropped)
      (filter (fun l => negb (has_id (id l) prev)) pending ++ prev)
    /\ (forall x y, In x (merge pending prev) -> In y dropped ->
                    (timestamp y <= timestamp x)%Z)
    /\ length dropped
       = length (filter (fun l => negb (has_id (id l) prev)) pending)
         + length prev - 100
    /\ length (merge pending prev)
       = Nat.min 100
           (length (filter (fun l => negb (has_id (id l) prev)) pending)
            + length prev).
Proof.
  destruct (merge_evicts_oldest pending prev) as (dropped & Hsort & Hold).
  set (fresh := filter (fun l => negb (has_id (id l) prev)) pending) in *.
  assert (Hperm : Permutation (merge pending prev ++ dropped) (fresh ++ prev))
    by (rewrite <- Hsort; apply sort_perm).
  assert (Hlen : length (merge pending prev)
                 = Nat.min 100 (length fresh + length prev)).
  { unfold merge. fold fresh. rewrite length_firstn.
    rewrite (Permutation_length (sort_perm (fresh ++ prev))), length_app.
    reflexivity. }
  exists dropped. split; [exact Hperm|]. split; [exact Hold|].
  split; [|exact Hlen].
  apply Permutation_length in Hperm. rewrite !length_app in Hperm. lia.
Qed.

Lemma flush_with_quiet (during : list ProxyRequestLog)
    (tallies : reply (option ProxyStats * Z)) (s : state) :
  pendingLogs s = [] -> logs (flush_with during tallies s) = logs s.
Proof.
  intros Hp. unfold flush_with, flush_sync.
  change (isMounted (setArmed false s)) with (isMounted s).
  change (pendingLogs (setArmed false s)) with (pendingLogs s).
  rewrite Hp. now destruct (negb (isMounted s)).
Qed.

Lemma flush_with_bounded (during : list ProxyRequestLog)
    (tallies : reply (option ProxyStats * Z)) (s : state) :
  length (logs s) <= 100 ->
  length (logs (flush_with during tallies s)) <= 100.
Proof.
  intros Hb. destruct (isMounted s) eqn:Hm.
  - destruct (pendingLogs s) as [|x rest] eqn:Hp.
    + now rewrite flush_with_quiet.
    + assert (Hne : pendingLogs s <> []) by (rewrite Hp; discriminate).
      destruct (flush_with_merges during tallies s Hm Hne) as [-> _].
      apply merge_bounded.
  - unfold flush_with, flush_sync.
    change (isMounted (setArmed false s)) with (isMounted s).
    rewrite Hm. exact Hb.
Qed.

Lemma on_request_event_logs (e : ProxyRequestLog) (s : state) :
  logs (on_request_event e s) = logs s.
Proof.
  unfold on_request_event. destruct (negb (isMounted s)); [reflexivity|].
  now destruct (has_id (id e) (pendingLogs s)).
Qed.

(** C1.  What the flush does with the entries that are pending when its
    timer fires is what the claim says: the new view and the entries
    dropped make up the old view and the pending entries with new ids,
    the view is ordered by descending timestamp, holds the newest 100 at
    most and drops nothing while there is room, and the buffer is empty
    afterwards.  But the buffer is emptied only after the flush has waited
    for the tallies: an event that arrives meanwhile is taken into the
    pending buffer and removed from it again without ever being merged,
    and no later flush shows it. *)
Theorem C1_entry_during_flush_never_merged :
  (forall (s : state) (events during : list ProxyRequestLog)
          (tallies : reply (option ProxyStats * Z)),
     isMounted s = true ->
     events <> [] ->
     let s1 := ingest_all events s in
     let s2 := flush_with during tallies s1 in
     (forall e, In e events -> has_id (id e) (pendingLogs s1) = true)
     /\ (exists dropped,
           Permutation (logs s2 ++ dropped)
             (filter (fun l => negb (has_id (id l) (logs s)))
                (pendingLogs s1) ++ logs s)
           /\ (forall x y, In x (logs s2) -> In y dropped ->
                           (timestamp y <= timestamp x)%Z)
           /\ length dropped
              = length (filter (fun l => negb (has_id (id l) (logs s)))
                          (pendingLogs s1))
                + length (logs s) - 100)
     /\ StronglySorted newer_or_equal (logs s2)
     /\ (NoDup (map id (logs s)) -> NoDup (map id (pendingLogs s)) ->
           NoDup (map id (logs s2)))
     /\ pendingLogs s2 = []
     /\ (forall c, In c during ->
           has_id (id c) (pendingLogs s1) = false ->
           has_id (id c) (logs s) = false ->
           has_id (id c)
             (pendingLogs (ingest_all during (fst (flush_sync s1)))) = true
           /\ has_id (id c) (logs s2) = false
           /\ forall (later : list ProxyRequestLog)
                     (t : reply (option ProxyStats * Z)),
                logs (flush_with later t s2) = logs s2))
  /\ (forall tallies : reply (option ProxyStats * Z),
        logs (flush tallies
                (ingest_all [entry "a" 100; entry "b" 200; entry "a" 100]
                   initial))
        = [entry "b" 200; entry "a" 100])
  /\ (forall tallies : reply (option ProxyStats * Z),
        logs (flush_with [entry "c" 300] tallies showing_one)
        = [entry "b" 200; entry "a" 100]).
Proof.
  split; [|split].
  - intros s events during tallies Hm Hev s1 s2.
    destruct (ingest_all_keeps events s Hm) as (Hlogs & Hm1 & _ & Hnd).
    destruct (flush_with_merges during tallies s1 Hm1
                (ingest_all_nonempty _ _ Hm Hev)) as [Hview Hpend].
    fold s2 in Hview, Hpend. fold s1 in Hlogs, Hnd. rewrite Hlogs in Hview.
    destruct (merge_characterised (pendingLogs s1) (logs s))
      as (dropped & Hperm & Hold & Hdrop & _).
    rewrite Hview. split; [|split; [|split; [|split; [|split]]]].
    + intros e He. now apply ingest_all_pending.
    + exists dropped. now repeat split.
    + apply merge_sorted.
    + intros H1 H2. apply merge_unique_ids; auto.
    + exact Hpend.
    + intros c Hc Hnp Hnv. split; [|split].
      * apply ingest_all_pending; [|exact Hc].
        fold s1 in Hm1. unfold flush_sync.
        change (isMounted (setArmed false s1)) with (isMounted s1).
        change (pendingLogs (setArmed false s1)) with (pendingLogs s1).
        rewrite Hm1. cbn [negb].
        destruct (pendingLogs s1); exact Hm1.
      * apply has_id_false. intros x Hx.
        apply merge_origin in Hx as [Hx|[Hx _]].
        -- exact (proj1 (has_id_false _ _) Hnv x Hx).
        -- exact (proj1 (has_id_false _ _) Hnp x Hx).
      * intros later t. rewrite <- Hview. now apply flush_with_quiet.
  - intros [[[x|] c]|msg]; reflexivity.
  - intros [[[x|] c]|msg]; reflexivity.
Qed.

Lemma C1_entry_during_flush_never_merged_witness :
  has_id "c" (pendingLogs
                (ingest_all [entry "c" 300]
                   (fst (flush_sync (ingest_all [entry "b" 200] initial)))))
  = true
  /\ has_id "c" (logs (flush_with [entry "c" 300] (Rejected "offline")
                         (ingest_all [entry "b" 200] initial))) = false.
Proof.
  assert (Hne : [entry "b" 200] <> []) by discriminate.
  assert (Hin : In (entry "c" 300) [entry "c" 300]) by (left; reflexivity).
  destruct (proj2 (proj2 (proj2 (proj2 (proj2
              (proj1 C1_entry_during_flush_never_merged initial
                 [entry "b" 200] [entry "c" 300] (Rejected "offline")
                 eq_refl Hne)))))
              (entry "c" 300) Hin eq_refl eq_refl) as (H1 & H2 & _).
  split; [exact H1 | exact H2].
Defined.

(** ** The pull *)


(** One pull, call by call. *)
Lemma loadData_effect (p : pull) (s : state) :
  snd (loadData false p s) = Resolved tt
  /\ loading (fst (loadData false p s)) = false
  /\ logs (fst (loadData false p s))
     = match pulled p with Some h => h | None => logs s end
  /\ pendingLogs (fst (loadData false p s))
     = match pulled p with Some _ => [] | None => pendingLogs s end
  /\ totalCount (fst (loadData false p s)) = count_after p s
  /\ stats (fst (loadData false p s)) = stats_after p s
  /\ console (fst (loadData false p s)) = console_after p s.
Proof.
  unfold console_after, pull_failure, stats_after, failed_pull, count_after,
    pulled, preamble_ok.
  unfold loadData, finally, try_catch, loadData_body, bind, await, update, ret.
  destruct (r_config p) as [[b|]|e0]; cbn;
    [destruct (r_monitor p) as [u|e1]; cbn| |];
    try (unfold report_failure; destruct (String.eqb _ _);
         now repeat split);
    (destruct (r_count p) as [c|e2]; cbn;
     [|unfold report_failure; destruct (String.eqb _ _); now repeat split]);
    (destruct (r_history p) as [[h|]|e3]; cbn;
     [| |unfold report_failure; destruct (String.eqb _ _);
         now repeat split]);
    (destruct (r_stats p) as [[x|]|e4]; cbn;
     [| |unfold report_failure; destruct (String.eqb _ _)]);
    now repeat split.
Qed.




End MonitorReconciliation.

(* ------------------------------------------------------------------ *)
(** ** The bound of the two views *)
(* ------------------------------------------------------------------ *)

Section ViewBounds.
Import Monitor.
Local Open Scope list_scope.

Lemma run_push_bounded (ops : list push_op) :
  forall s : state,
  length (logs s) <= 100 -> length (logs (run_push ops s)) <= 100.
Proof.
  induction ops as [|op ops IH]; intros s Hb; [exact Hb|].
  cbn [run_push fold_left]. apply IH. destruct op as [e|during tallies].
  - cbn [run_push_op]. now rewrite on_request_event_logs.
  - cbn [run_push_op]. now apply flush_with_bounded.
Qed.

Lemma addLog_exact (e : DebugConsole.LogEntry) (w : DebugConsole.world) :
  exists dropped,
    DebugConsole.logs w ++ [e]
    = dropped ++ DebugConsole.logs (DebugConsole.addLog e w)
    /\ length dropped
       = length (DebugConsole.logs w) + 1 - DebugConsole.MAX_LOGS
    /\ length (DebugConsole.logs (DebugConsole.addLog e w))
       = Nat.min DebugConsole.MAX_LOGS (length (DebugConsole.logs w) + 1).
Proof.
  rewrite addLog_logs.
  set (l := DebugConsole.logs w ++ [e]).
  assert (Hl : length l = length (DebugConsole.logs w) + 1)
    by (subst l; rewrite length_app; reflexivity).
  exists (firstn (length l - DebugConsole.MAX_LOGS) l).
  split; [symmetry; apply firstn_skipn|].
  rewrite length_firstn, length_skipn. lia.
Qed.

Lemma addLogs_bounded (es : list DebugConsole.LogEntry) :
  forall w : DebugConsole.world,
  length (DebugConsole.logs w) <= DebugConsole.MAX_LOGS ->
  length (DebugConsole.logs (ConsoleRuns.addLogs es w))
    <= DebugConsole.MAX_LOGS.
Proof.
  induction es as [|e es IH]; intros w Hb; [exact Hb|].
  change (ConsoleRuns.addLogs (e :: es) w)
    with (ConsoleRuns.addLogs es (DebugConsole.addLog e w)).
  apply IH, addLog_bounded.
Qed.

(** C8, as the code has it.  The push paths keep the bound and evict only
    when it would be exceeded.  A flush of the request logs leaves the
    smaller of 100 and the number of entries it has to show; what it drops
    is exactly the excess and no newer than anything it keeps; and no
    sequence of events and flushes takes a view of at most 100 entries
    beyond 100.  [addLog] leaves the smaller of [MAX_LOGS] = 5000 and one
    more than before, dropping exactly the excess from the front, the
    entries that arrived first; and no burst takes the debug view beyond
    [MAX_LOGS].  A pull installs the pulled list as it is, so after a pull
    the view is as long as the backend's answer. *)
Theorem C8_push_paths_bound_the_view :
  (forall (s : state) (tallies : reply (option ProxyStats * Z)),
     isMounted s = true -> pendingLogs s <> [] ->
     length (logs (flush tallies s))
     = Nat.min 100
         (length (filter (fun l => negb (has_id (id l) (logs s)))
                    (pendingLogs s))
          + length (logs s))
     /\ exists dropped,
          Permutation (logs (flush tallies s) ++ dropped)
            (filter (fun l => negb (has_id (id l) (logs s)))
               (pendingLogs s) ++ logs s)
          /\ length dropped
             = length (filter (fun l => negb (has_id (id l) (logs s)))
                         (pendingLogs s))
               + length (logs s) - 100
          /\ forall x y, In x (logs (flush tallies s)) -> In y dropped ->
                         (timestamp y <= timestamp x)%Z)
  /\ (forall (ops : list push_op) (s : state),
        length (logs s) <= 100 -> length (logs (run_push ops s)) <= 100)
  /\ (forall (e : DebugConsole.LogEntry) (w : DebugConsole.world),
        exists dropped,
          DebugConsole.logs w ++ [e]
          = dropped ++ DebugConsole.logs (DebugConsole.addLog e w)
          /\ length dropped
             = length (DebugConsole.logs w) + 1 - DebugConsole.MAX_LOGS
          /\ length (DebugConsole.logs (DebugConsole.addLog e w))
             = Nat.min DebugConsole.MAX_LOGS
                 (length (DebugConsole.logs w) + 1))
  /\ (forall (es : list DebugConsole.LogEntry) (w : DebugConsole.world),
        length (DebugConsole.logs w) <= DebugConsole.MAX_LOGS ->
        length (DebugConsole.logs (ConsoleRuns.addLogs es w))
          <= DebugConsole.MAX_LOGS)
  /\ DebugConsole.MAX_LOGS = 5000
  /\ (forall (p : pull) (s : state) (h : list ProxyRequestLog),
        pulled p = Some h ->
        logs (fst (loadData false p s)) = h)
  /\ (forall (l : list DebugConsole.LogEntry) (w : DebugConsole.world),
        DebugConsole.logs (DebugConsole.loadLogs (DebugConsole.Ok l) w) = l).
Proof.
  split; [|split; [|split; [|split; [|split; [reflexivity|split]]]]].
  - intros s tallies Hm Hp.
    destruct (flush_merges tallies s Hm Hp) as [-> _].
    destruct (merge_characterised (pendingLogs s) (logs s))
      as (dropped & Hperm & Hold & Hdrop & Hlen).
    split; [exact Hlen|]. exists dropped. now repeat split.
  - intros ops s. apply run_push_bounded.
  - intros e w. apply addLog_exact.
  - intros es w. apply addLogs_bounded.
  - intros p s h Hp.
    destruct (loadData_effect p s) as (_ & _ & -> & _). now rewrite Hp.
  - reflexivity.
Qed.

Lemma C8_push_paths_bound_the_view_witness :
  length (logs (flush (Rejected "offline") showing_one))
  = Nat.min 100
      (length (filter (fun l => negb (has_id (id l) (logs showing_one)))
                 (pendingLogs showing_one))
       + length (logs showing_one)).
Proof.
  assert (Hne : pendingLogs showing_one <> []) by discriminate.
  exact (proj1 (proj1 C8_push_paths_bound_the_view showing_one
                  (Rejected "offline") eq_refl Hne)).
Defined.

(** C8 as the specification words it fails on the pull path: a page of 101
    request logs is installed as the view, one more than N_max. *)
Lemma C8_counterexample :
  length (logs (fst (loadData false (page_pull (page 101) 101) initial)))
  = 101
  /\ ~ length (logs (fst (loadData false (page_pull (page 101) 101)
                            initial))) <= 100.
Proof.
  assert (H : logs (fst (loadData false (page_pull (page 101) 101) initial))
              = page 101).
  { destruct (loadData_effect (page_pull (page 101) 101) initial)
      as (_ & _ & -> & _). reflexivity. }
  rewrite H. unfold page. rewrite length_map, length_seq. split; lia.
Qed.

End ViewBounds.

(* ------------------------------------------------------------------ *)
(** ** The guards of the two subscriptions *)
(* ------------------------------------------------------------------ *)

Section SubscriptionGuards.
Import DebugConsole ConsoleRuns.
Local Open Scope list_scope.

Lemma overlapping_listens_reached (w : world) :
  reachable true w -> unlistenFn w = None ->
  reachable true (overlapping_listens w)
  /\ handlers (overlapping_listens w)
     = Pos.succ (next w) :: next w :: handlers w
  /\ logs (overlapping_listens w) = logs w.
Proof.
  intros Hr Hu.
  assert (Hs1 : startListening true w
                = {| isOpen := isOpen w; isEnabled := isEnabled w;
                     logs := logs w; unlistenFn := None;
                     pollInterval := pollInterval w; timers := timers w;
                     handlers := handlers w; awaiting := S (awaiting w);
                     next := next w |})
    by (unfold startListening; cbn; now rewrite Hu).
  split; [|split].
  - unfold overlapping_listens.
    eapply reach_step; [eapply reach_step; [eapply reach_step;
      [eapply reach_step; [exact Hr | constructor] | constructor]
      | constructor] | constructor].
    + rewrite Hs1. cbn. lia.
    + rewrite Hs1. cbn. lia.
  - unfold overlapping_listens. rewrite Hs1. reflexivity.
  - unfold overlapping_listens. rewrite Hs1. reflexivity.
Qed.

(** C9.  The timer guard holds: in every state the store can reach there
    is at most one timer, timers and handlers are never both live, a
    start with a live handle and a stop without one change nothing, and
    the request-log monitor, which raises its flag before it waits for
    [listen], never calls [listen] twice.  The listener guard of the debug
    console does not hold: it looks at the handle, which is stored only
    once [listen] has resolved, so two calls that overlap both register a
    handler, a second listener is live, and one event is then appended
    twice. *)
Theorem C9_overlapping_start_registers_twice :
  (forall (isTauri : bool) (w : world),
     reachable isTauri w ->
     length (timers w) <= 1
     /\ (timers w = [] \/ handlers w = [])
     /\ length (timers (startPolling w)) <= 1
     /\ (polling w = true -> startPolling w = w)
     /\ (forall h : positive,
           unlistenFn w = Some h -> startListening isTauri w = w)
     /\ (pollInterval w = None -> stopPolling w = w)
     /\ (unlistenFn w = None -> stopListening w = w))
  /\ (forall s : Monitor.state,
        snd (Monitor.setupListener true
               (fst (Monitor.setupListener true s))) = false)
  /\ (forall (w : world) (e : LogEntry),
        reachable true w -> unlistenFn w = None ->
        reachable true (overlapping_listens w)
        /\ length (handlers (overlapping_listens w))
           = 2 + length (handlers w)
        /\ exists older,
             logs (deliver e (overlapping_listens w)) = older ++ [e; e])
  /\ ~ (forall w : world, reachable true w -> length (handlers w) <= 1).
Proof.
  split; [|split; [|split]].
  - intros isTauri w Hr.
    pose proof (reachable_inv _ _ Hr) as (Ht & Hw & Hp).
    assert (Hone : length (timers w) <= 1).
    { destruct (pollInterval w) as [i|];
        [destruct Hp as [-> _] | rewrite Hp]; cbn; lia. }
    split; [exact Hone|]. split; [|split; [|split; [|split; [|split]]]].
    + destruct isTauri; [left; now apply Ht | right; now apply Hw].
    + unfold startPolling, polling.
      destruct (pollInterval w) as [i|] eqn:E.
      * destruct Hp as [Hti Hi].
        replace (negb (i =? 0)%Z) with true
          by (symmetry; apply negb_true_iff, Z.eqb_neq; lia).
        exact Hone.
      * cbn. rewrite Hp. cbn. lia.
    + intros H. unfold startPolling. now rewrite H.
    + intros h H. unfold startListening. rewrite H. now destruct isTauri.
    + intros H. unfold stopPolling. now rewrite H.
    + intros H. unfold stopListening. now rewrite H.
  - intros s. unfold Monitor.setupListener. cbn [negb].
    destruct (Monitor.listenerSetup s) eqn:E; cbn; now rewrite ?E.
  - intros w e Hr Hu.
    destruct (overlapping_listens_reached w Hr Hu) as (Hr2 & Hh & Hl).
    split; [exact Hr2|]. split; [now rewrite Hh|].
    rewrite deliver_logs by (rewrite Hh; discriminate).
    rewrite Hh. cbn [length repeat]. unfold last_n.
    set (l := logs (overlapping_listens w) ++ repeat e (length (handlers w))).
    assert (Hl2 : logs (overlapping_listens w)
                    ++ e :: e :: repeat e (length (handlers w))
                  = l ++ [e; e]).
    { subst l. rewrite <- app_assoc. f_equal.
      rewrite repeat_cons.
      change (e :: repeat e (length (handlers w)) ++ [e])
        with ((e :: repeat e (length (handlers w))) ++ [e]).
      rewrite repeat_cons, <- app_assoc. reflexivity. }
    rewrite Hl2, length_app. cbn [length].
    pose proof MAX_LOGS_ge_2 as Hmax.
    exists (skipn (length l + 2 - MAX_LOGS) l).
    rewrite skipn_app.
    replace (length l + 2 - MAX_LOGS - length l) with 0 by lia.
    reflexivity.
  - intros H.
    destruct (overlapping_listens_reached initial (reach_initial true)
                eq_refl) as (Hr2 & Hh & _).
    specialize (H _ Hr2). rewrite Hh in H. cbn in H. lia.
Qed.

Lemma C9_overlapping_start_registers_twice_witness :
  length (handlers (overlapping_listens initial))
  = 2 + length (handlers initial).
Proof.
  exact (proj1 (proj2 (proj1 (proj2 (proj2
           C9_overlapping_start_registers_twice))
           initial sample_entry (reach_initial true) eq_refl))).
Defined.

End SubscriptionGuards.

(* ------------------------------------------------------------------ *)
(** ** Templates without a placeholder; the round trip of the console;
       what an import calls *)
(* ------------------------------------------------------------------ *)

Section PlainTemplates.
Import Js Dispatcher.
Local Open Scope list_scope.

Lemma query_pairs_filter (u : string) (args : obj) :
  query_pairs u args
  = map (fun kv => (fst kv, ToString (snd kv)))
      (filter (fun kv =>
                 negb (includes u (encodeURIComponent (ToString (snd kv))))
                 && match snd kv with
                    | JUndefined | JNull => false
                    | _ => true
                    end)
         args).
Proof.
  induction args as [|[key value] rest IH]; [reflexivity|].
  cbn [query_pairs filter fst snd].
  destruct (includes u (encodeURIComponent (ToString value))); cbn [negb andb];
    [exact IH|].
  destruct value; cbn [map fst snd]; now rewrite IH.
Qed.

(** A command whose template holds no colon takes nothing from its
    arguments for the path: the path is the template as it stands.  With
    GET or DELETE the query string then holds, in the order of the
    arguments, those that are neither null nor undefined and whose encoded
    text does not occur in the template, and no others; with POST or PATCH
    the body is the [request] argument when there is one and the whole
    argument object otherwise. *)
Theorem plain_template_keeps_path :
  forall (table : list (string * descriptor)) (cmd : string) (d : descriptor)
         (args : obj) (apiKey : option string),
    own table cmd = Some d ->
    Template.free_of ":" (url d) = true ->
    resolve_path (url d) args = (url d, args)
    /\ prepare table cmd (Some args) apiKey
       = Fetches
           {| req_url :=
                if is_query_method (method d)
                then
                  let qs :=
                    URLSearchParams_toString
                      (map (fun kv => (fst kv, ToString (snd kv)))
                         (filter
                            (fun kv =>
                               negb (includes (url d)
                                       (encodeURIComponent
                                          (ToString (snd kv))))
                               && match snd kv with
                                  | JUndefined | JNull => false
                                  | _ => true
                                  end)
                            args)) in
                  if String.eqb qs "" then url d
                  else (url d ++ "?" ++ qs)%string
                else url d;
              req_method := Some (method d);
              req_headers := headers apiKey;
              req_body :=
                if is_query_method (method d) then None
                else Some (match get args "request" with
                           | JUndefined => JObj args
                           | v => v
                           end) |}.
Proof.
  intros table cmd d args apiKey Hown Hfree.
  assert (Hres : resolve_path (url d) args = (url d, args))
    by (unfold resolve_path; now apply fold_unchanged).
  split; [exact Hres|].
  unfold prepare. rewrite (lookup_own _ _ _ Hown), Hres. cbn [fst snd].
  destruct (is_query_method (method d)); [|reflexivity].
  unfold with_query. now rewrite query_pairs_filter.
Qed.

Lemma plain_template_keeps_path_witness :
  prepare COMMAND_MAPPING "get_proxy_logs_filtered"
    (Some [("filter", JStr "log"); ("note", JNull); ("limit", JNum 100)])
    None
  = Fetches {| req_url := "/api/logs?limit=100";
               req_method := Some GET;
               req_headers := headers None;
               req_body := None |}.
Proof.
  exact (proj2 (plain_template_keeps_path COMMAND_MAPPING
                  "get_proxy_logs_filtered" (mk "/api/logs" GET)
                  [("filter", JStr "log"); ("note", JNull);
                   ("limit", JNum 100)] None
                  eq_refl eq_refl)).
Defined.

End PlainTemplates.

Section ConsoleRoundTrip.
Import DebugConsole ConsoleRuns.
Local Open Scope list_scope.

(** Enabling the console and disabling it again, from a state the store
    can reach in which no feed is live.  When the backend accepts both
    calls, the round trip leaves no timer, no stored handle, no pending
    [listen] and no handler besides those that were there, whether or not
    [listen] succeeded.  When it refuses [enable], nothing changes.  When
    it refuses [disable], nothing is released: the console stays enabled
    with the timer, or the handler, that enabling registered. *)
Theorem enable_disable_round_trip :
  forall (isTauri : bool) (r_logs : answer (list LogEntry))
         (listened : bool) (w : world),
    reachable isTauri w ->
    pollInterval w = None -> unlistenFn w = None -> awaiting w = 0 ->
    (let w' := disable isTauri (Ok tt)
                 (enable isTauri (Ok tt) r_logs listened w) in
     isEnabled w' = false
     /\ timers w' = [] /\ pollInterval w' = None
     /\ handlers w' = handlers w /\ unlistenFn w' = None
     /\ awaiting w' = 0
     /\ logs w' = logs (loadLogs r_logs w))
    /\ (forall r_disable : answer unit,
          disable isTauri r_disable (enable isTauri Failed r_logs listened w)
          = disable isTauri r_disable w)
    /\ (let w1 := enable isTauri (Ok tt) r_logs listened w in
        disable isTauri Failed w1 = w1
        /\ isEnabled w1 = true
        /\ (isTauri = false ->
              timers w1 = [Z.pos (next w)]
              /\ pollInterval w1 = Some (Z.pos (next w)))
        /\ (isTauri = true -> listened = true ->
              handlers w1 = next w :: handlers w
              /\ unlistenFn w1 = Some (next w))
        /\ (isTauri = true -> listened = false ->
              handlers w1 = handlers w /\ unlistenFn w1 = None)).
Proof.
  intros isTauri r_logs listened w Hr Hp Hu Ha.
  pose proof (reachable_fresh _ _ Hr) as Hfresh.
  destruct (reachable_inv _ _ Hr) as (_ & Hw & Htim). rewrite Hp in Htim.
  unfold handlers_fresh in Hfresh.
  split; [|split; [reflexivity|]].
  - destruct isTauri.
    + unfold enable, disable, startListening_run, startListening.
      destruct r_logs as [l|]; cbn; rewrite Hu; cbn; rewrite Ha; cbn;
        destruct listened; cbn; rewrite ?Hu, ?Pos.eqb_refl; cbn;
        rewrite ?(filter_fresh _ _ Hfresh); now repeat split.
    + unfold enable, disable, startPolling, stopPolling, polling.
      destruct (Hw eq_refl) as (_ & Haw & Hun).
      destruct r_logs as [l|]; cbn; rewrite Hp; cbn;
        rewrite Htim, Pos.eqb_refl; cbn; now repeat split.
  - split; [reflexivity|].
    destruct isTauri.
    + unfold enable, startListening_run, startListening.
      destruct r_logs as [l|]; cbn; rewrite Hu; cbn; rewrite Ha; cbn;
        (split; [now destruct listened|]);
        (split; [discriminate|]);
        (split; intros _ ->; cbn; now split).
    + unfold enable, startPolling, polling.
      destruct r_logs as [l|]; cbn; rewrite Hp; cbn; rewrite Htim;
        (split; [reflexivity|]);
        (split; [intros _; now split|]);
        (split; discriminate).
Qed.

Lemma enable_disable_round_trip_witness :
  timers (disable false Failed (enable false (Ok tt) Failed true initial))
  = [1%Z].
Proof.
  destruct (proj2 (proj2 (enable_disable_round_trip false Failed true initial
                            (reach_initial false) eq_refl eq_refl eq_refl)))
    as (Hkeep & _ & Hweb & _).
  rewrite Hkeep. exact (proj1 (Hweb eq_refl)).
Defined.

End ConsoleRoundTrip.

Section ImportCalls.
Import Js AccountsPage.
Local Open Scope list_scope.

Lemma valid_entry_importable (item : jsval) :
  item <> JNull -> item <> JUndefined ->
  valid_entry item = Some (importable item).
Proof.
  intros H1 H2. destruct item as [| |b|n|s|l|fields];
    try reflexivity; try contradiction.
  cbn. destruct (get fields "refresh_token") as [| |b|n|token|l|o];
    try reflexivity.
  destruct token as [|c token]; [reflexivity|]. reflexivity.
Qed.

Lemma validEntries_filter (items : list jsval) :
  (forall item, In item items -> item <> JNull /\ item <> JUndefined) ->
  validEntries items = Some (filter importable items).
Proof.
  induction items as [|item items IH]; intros H; [reflexivity|].
  cbn [validEntries filter].
  destruct (H item (or_introl eq_refl)) as [H1 H2].
  rewrite (valid_entry_importable item H1 H2).
  rewrite IH by (intros x Hx; apply H; now right).
  reflexivity.
Qed.

Lemma import_loop_exact (addAccount : nat -> jsval -> jsval -> bool)
    (entries : list jsval) :
  forall n : nat,
  import_loop addAccount n entries
  = (map call_of entries,
     length (filter (fun ic => addAccount (fst ic) (fst (snd ic))
                                 (snd (snd ic)))
               (combine (seq n (length entries)) (map call_of entries))),
     length (filter (fun ic => negb (addAccount (fst ic) (fst (snd ic))
                                       (snd (snd ic))))
               (combine (seq n (length entries)) (map call_of entries)))).
Proof.
  induction entries as [|entry entries IH]; intros n; [reflexivity|].
  cbn [import_loop]. destruct (call_of entry) as [email token] eqn:Ec.
  rewrite (IH (S n)). cbn [map length seq combine filter fst snd].
  rewrite Ec. cbn [fst snd].
  now destruct (addAccount n email token).
Qed.

Lemma importable_token (entry : jsval) :
  importable entry = true ->
  exists token, snd (call_of entry) = JStr token
                /\ String.prefix "1//" token = true.
Proof.
  destruct entry as [| |b|n|s|l|fields]; try discriminate. cbn.
  destruct (get fields "refresh_token") as [| |b|n|token|l|o];
    try discriminate.
  intros H. now exists token.
Qed.

(** Importing a file without [null] entries calls [addAccount] for exactly
    the entries whose [refresh_token] is a string that starts with [1//],
    once each, in the order of the file and whether or not earlier calls
    failed, with the entry's email (or the empty string) and that token.
    When there is no such entry it ends with the invalid-format toast;
    otherwise the toast reports the calls that succeeded and those that
    failed, which together are all the calls. *)
Theorem import_calls_exactly_the_valid_entries :
  forall (addAccount : nat -> jsval -> jsval -> bool) (items : list jsval),
    items <> [] ->
    (forall item, In item items -> item <> JNull /\ item <> JUndefined) ->
    let result := processImportData addAccount (Some (JArr items)) in
    let calls := map call_of (filter importable items) in
    let successCount :=
      length (filter (fun ic => addAccount (fst ic) (fst (snd ic))
                                  (snd (snd ic)))
                (combine (seq 0 (length calls)) calls)) in
    let failCount :=
      length (filter (fun ic => negb (addAccount (fst ic) (fst (snd ic))
                                        (snd (snd ic))))
                (combine (seq 0 (length calls)) calls)) in
    fst result = calls
    /\ successCount + failCount = length calls
    /\ (forall call, In call calls ->
          exists token, snd call = JStr token
                        /\ String.prefix "1//" token = true)
    /\ snd result
       = Toast (if Nat.eqb (length calls) 0 then InvalidFormat
                else if Nat.eqb failCount 0 then ImportSuccess successCount
                else if Nat.ltb 0 successCount
                     then ImportPartial successCount failCount
                     else ImportFail).
Proof.
  intros addAccount items Hne Hnull result calls successCount failCount.
  assert (Hsum : successCount + failCount = length calls).
  { subst successCount failCount.
    assert (H : forall (l : list (nat * (jsval * jsval)))
                       (f : nat * (jsval * jsval) -> bool),
              length (filter f l) + length (filter (fun x => negb (f x)) l)
              = length l).
    { intros l f. induction l as [|x l IH]; [reflexivity|].
      cbn. destruct (f x); cbn; lia. }
    rewrite H, length_combine, length_seq. lia. }
  assert (Htok : forall call, In call calls ->
            exists token, snd call = JStr token
                          /\ String.prefix "1//" token = true).
  { intros call Hin. subst calls.
    apply in_map_iff in Hin as (entry & <- & Hin).
    apply filter_In in Hin as [_ Hin]. now apply importable_token. }
  subst result. unfold processImportData.
  destruct items as [|first others]; [contradiction|].
  rewrite (validEntries_filter _ Hnull).
  destruct (filter importable (first :: others)) as [|e es] eqn:Ef.
  - split; [reflexivity|]. split; [exact Hsum|]. split; [exact Htok|].
    reflexivity.
  - rewrite import_loop_exact. cbn [fst snd].
    replace (length (e :: es)) with (length calls)
      by (subst calls; now rewrite length_map).
    change (map call_of (e :: es)) with calls.
    split; [reflexivity|]. split; [exact Hsum|]. split; [exact Htok|].
    replace (Nat.eqb (length calls) 0) with false
      by (subst calls; reflexivity).
    reflexivity.
Qed.

Lemma import_calls_exactly_the_valid_entries_witness :
  fst (processImportData (fun n _ _ => Nat.eqb n 0)
         (Some (JArr [JObj [("email", JStr "a@x");
                            ("refresh_token", JStr "1//abc")];
                      JObj [("refresh_token", JStr "2//abc")];
                      JObj [("refresh_token", JStr "1//def")]])))
  = [(JStr "a@x", JStr "1//abc"); (JStr "", JStr "1//def")].
Proof.
  assert (Hne : [JObj [("email", JStr "a@x");
                       ("refresh_token", JStr "1//abc")];
                 JObj [("refresh_token", JStr "2//abc")];
                 JObj [("refresh_token", JStr "1//def")]] <> [])
    by discriminate.
  refine (proj1 (import_calls_exactly_the_valid_entries
                   (fun n _ _ => Nat.eqb n 0)
                   [JObj [("email", JStr "a@x");
                          ("refresh_token", JStr "1//abc")];
                    JObj [("refresh_token", JStr "2//abc")];
                    JObj [("refresh_token", JStr "1//def")]] Hne _)).
  intros item [<-|[<-|[<-|[]]]]; split; discriminate.
Defined.

End ImportCalls.
